(** * circles: a ball bouncing inside concentric rotating arcs

    A shallow embedding of [src/main.py] and the verification of its
    specification.  Python floats are read as real numbers, so every
    "within epsilon" of the specification becomes an equality of reals.
    Where a statement turns on which side of a bound a float lands, the
    reals do not decide it: [random_angle_with_cut] is embedded a second
    time over binary64 floats (module [Float64]) and evaluated there.
    The calls into pygame and into [random] are embedded by what their
    documentation says they compute; each such definition says so. *)

From Stdlib Require Import Floats.
From Stdlib Require Import Reals Lra Lia ZArith List Bool Sorted.
Import ListNotations.

Open Scope R_scope.

(** ** Constants of the module *)

Definition BALL_REFLECT_ANGLE : R := 5.
Definition BALL_GRAVITY : R := 275 / 1000.
Definition BALL_RADIUS : R := 125 / 10.

Definition ARC_DELTA : R := PI / 6.
Definition ARC_SPEED_MIN : Z := 150.
Definition ARC_SPEED_MAX : Z := 300.
Definition ARC_STEP : R := 40.

Definition PARTICLE_SPEED : R := 5 / 10.
Definition PARTICLE_LIFETIME : R := 40.
Definition PARTICLE_AMOUNT : nat := 200.

(** ** Exceptions and results *)

Inductive exn : Set :=
| ValueError      (* raised by the source and by pygame's vector and colour code *)
| PygameError     (* pygame.error, a surface of negative size *)
| Exception.      (* the bare [Exception] of [Sprite.__init__] *)

Inductive result (A : Type) : Type :=
| Ok (a : A)
| Raise (e : exn).

Arguments Ok {A} a.
Arguments Raise {A} e.

Definition rbind {A B : Type} (m : result A) (f : A -> result B) : result B :=
  match m with
  | Ok a => f a
  | Raise e => Raise e
  end.

(** ** Python arithmetic on floats *)

(** [x % m]: the remainder takes the sign of the divisor.  The only divisor
    in the source is [2 * pi]. *)
Definition py_mod (x m : R) : R := x - m * IZR (Int_part (x / m)).

(** [int(x)] truncates towards zero. *)
Definition py_int (x : R) : Z :=
  if Rle_dec 0 x then Int_part x else (- Int_part (- x))%Z.

(** [min(a, b)] returns [b] only when [b < a]; [max(a, b)] returns [b] only
    when [b > a]. *)
Definition py_min (a b : R) : R := if Rlt_dec b a then b else a.
Definition py_max (a b : R) : R := if Rlt_dec a b then b else a.

(** Truthiness of a float: [0.0] is false. *)
Definition truthy (v : R) : bool := if Req_dec_T v 0 then false else true.

(** ** pygame.Vector2 *)

Module Vector2.

Record t : Type := mk { x : R; y : R }.

Definition zero : t := mk 0 0.

Definition add (u v : t) : t := mk (x u + x v) (y u + y v).
Definition mul (v : t) (k : R) : t := mk (x v * k) (y v * k).
Definition div (v : t) (k : R) : t := mk (x v / k) (y v / k).
Definition dot (u v : t) : R := x u * x v + y u * y v.
Definition length (v : t) : R := sqrt (x v * x v + y v * y v).

(** [bool(v)]: a vector is false when all its coordinates are zero. *)
Definition nonzero (v : t) : bool := truthy (x v) || truthy (y v).

(** [v.normalize()] raises [ValueError] on a vector of length zero
    (pygame: "Can't normalize Vector of length Zero"). *)
Definition normalize (v : t) : result t :=
  if Req_dec_T (length v) 0 then Raise ValueError
  else Ok (div v (length v)).

(** [v.rotate_rad(a)]: counter-clockwise rotation by [a] radians. *)
Definition rotate_rad (v : t) (a : R) : t :=
  mk (cos a * x v - sin a * y v) (sin a * x v + cos a * y v).

(** [v.rotate(a)]: the same with [a] in degrees. *)
Definition rotate (v : t) (a : R) : t := rotate_rad v (a * PI / 180).

(** [v.reflect(n)]: pygame refuses a normal of length zero, brings any
    other normal to length one, and returns [v - 2 (v . n) n]. *)
Definition reflect (v n : t) : result t :=
  if Req_dec_T (dot n n) 0 then Raise ValueError
  else
    let n1 := div n (sqrt (dot n n)) in
    let d := dot v n1 in
    Ok (mk (x v - 2 * x n1 * d) (y v - 2 * y n1 * d)).

End Vector2.

Abbreviation Vector2 := Vector2.t.

(** A [Point] is a pair of coordinates; it is kept as a vector. *)
Definition Point : Type := Vector2.

(** ** pygame.geometry.Circle *)

Module Circle.

Record t : Type := mk { center : Point; radius : R }.

(** [c.move_ip(v)] *)
Definition move_ip (c : t) (v : Vector2) : t :=
  mk (Vector2.add (center c) v) (radius c).

(** Modelled from the spec: [Circle.contains] is pygame's; section 4.1
    gives the containment test
    [|c2.center - c1.center| + c2.radius <= c1.radius]. *)
Definition contains (c1 c2 : t) : bool :=
  let dx := Vector2.x (center c2) - Vector2.x (center c1) in
  let dy := Vector2.y (center c2) - Vector2.y (center c1) in
  if Rle_dec (sqrt (dx * dx + dy * dy) + radius c2) (radius c1)
  then true else false.

(** Distance between the centres of two circles. *)
Definition center_distance (c1 c2 : t) : R :=
  let dx := Vector2.x (center c1) - Vector2.x (center c2) in
  let dy := Vector2.y (center c1) - Vector2.y (center c2) in
  sqrt (dx * dx + dy * dy).

End Circle.

Abbreviation Circle := Circle.t.

(** ** pygame.Surface and pygame.Color, as far as the sprites use them *)

Record Surface : Type := mkSurface { width : R; height : R }.

(** [pygame.Surface((w, h))] for a size in whole numbers; it raises
    [pygame.error] on a negative one.  pygame converts each side to an
    integer, which does nothing to a whole number (and takes a side between
    -1 and 0 for 0).  The sizes [main] passes are whole: the diameter 25 of
    the ball, the diameters of the arcs of [set_mode] on a display of integer
    size, twice a [randint] for a particle.  The theorems on a constructor
    called with any radius give the centre of the circle only, say that it
    returns for a radius that is not negative, and that it raises for one of
    -1/2 or less. *)
Definition new_Surface (w h : R) : result Surface :=
  if Rlt_dec w 0 then Raise PygameError
  else if Rlt_dec h 0 then Raise PygameError
  else Ok (mkSurface w h).

Record Color : Type := mkColor { r : Z; g : Z; b : Z; a : Z }.

Definition channel_ok (c : Z) : bool := (0 <=? c)%Z && (c <=? 255)%Z.

(** [pygame.Color(seq)] for a sequence of three or four integers: every
    channel must lie in 0..255, a missing alpha is 255. *)
Definition new_Color (c : list Z) : result Color :=
  match c with
  | [cr; cg; cb] =>
      if channel_ok cr && channel_ok cg && channel_ok cb
      then Ok (mkColor cr cg cb 255) else Raise ValueError
  | [cr; cg; cb; ca] =>
      if channel_ok cr && channel_ok cg && channel_ok cb && channel_ok ca
      then Ok (mkColor cr cg cb ca) else Raise ValueError
  | _ => Raise ValueError
  end.

Definition set_alpha (c : Color) (v : Z) : Color := mkColor (r c) (g c) (b c) v.

(** ** The random module

    The generator is a stream of draws from [0, 1) and a position in it.
    [random()] returns the next draw; [uniform(a, b)] is
    [a + (b - a) * random()] as in CPython; [randint] and [choice] take
    one draw each and scale it to their range. *)

Module Random.

Record state : Type := mk { draws : nat -> R; pos : nat }.

Definition peek (s : state) : R := draws s (pos s).
Definition advance (n : nat) (s : state) : state := mk (draws s) (pos s + n).

Definition random (s : state) : R * state := (peek s, advance 1 s).

Definition uniform (lo hi : R) (s : state) : R * state :=
  (lo + (hi - lo) * peek s, advance 1 s).

Definition randint (lo hi : Z) (s : state) : Z * state :=
  ((lo + Int_part (peek s * IZR (hi - lo + 1)))%Z, advance 1 s).

(** [choice([1, -1])] *)
Definition choice_sign (s : state) : R * state :=
  ((if Rlt_dec (peek s) (1 / 2) then 1 else -1), advance 1 s).

(** Every draw of the stream lies in [0, 1). *)
Definition unit_draws (s : state) : Prop :=
  forall k : nat, 0 <= draws s k < 1.

End Random.

(** Computations that draw random numbers and may raise. *)
Definition M (A : Type) : Type := Random.state -> result (A * Random.state).

Definition ret {A : Type} (v : A) : M A := fun s => Ok (v, s).

Definition bind {A B : Type} (m : M A) (f : A -> M B) : M B :=
  fun s =>
    match m s with
    | Ok (v, s') => f v s'
    | Raise e => Raise e
    end.

Definition draw {A : Type} (d : Random.state -> A * Random.state) : M A :=
  fun s => Ok (d s).

Definition lift {A : Type} (v : result A) : M A :=
  fun s =>
    match v with
    | Ok v' => Ok (v', s)
    | Raise e => Raise e
    end.

Declare Scope m_scope.
Delimit Scope m_scope with m.
Notation "x <- m ;; k" := (bind m (fun x => k))
  (at level 61, m at next level, right associativity) : m_scope.
Notation "' pat <- m ;; k" := (bind m (fun x => match x with pat => k end))
  (at level 61, pat pattern, m at next level, right associativity) : m_scope.

(** ** Sprite *)

Module Sprite.

(** The image of a sprite only matters for rendering and for the mask
    test, which is an external collaborator; the model keeps the circle
    and the [alive] flag. *)
Record t : Type := mk { circle : Circle; alive : bool }.

(** [Sprite.__init__(center, image)] *)
Definition init (center : Point) (image : Surface) : result t :=
  if Req_dec_T (width image) (height image)
  then Ok (mk (Circle.mk center (width image / 2)) true)
  else Raise Exception.

Definition kill (s : t) : t := mk (circle s) false.

Definition move_ip (s : t) (v : Vector2) : t :=
  mk (Circle.move_ip (circle s) v) (alive s).

End Sprite.

(** ** Ball *)

Module Ball.

Record t : Type := mk { sprite : Sprite.t; velocity : Vector2 }.

Definition circle (self : t) : Circle := Sprite.circle (sprite self).

(** [Ball.__init__(center, radius)] *)
Definition init (center : Point) (radius : R) : result t :=
  rbind (new_Surface (radius * 2) (radius * 2)) (fun image =>
  rbind (Sprite.init center image) (fun sp =>
  Ok (mk sp Vector2.zero))).

(** [Ball.reset(center)] *)
Definition reset (self : t) (center : Point) : t :=
  mk (Sprite.mk (Circle.mk center (Circle.radius (circle self)))
                (Sprite.alive (sprite self)))
     Vector2.zero.

(** [Ball.reflect(circle)] *)
Definition reflect (self : t) (circle : Circle) : M t :=
  (let radius := Circle.radius circle - Circle.radius (Ball.circle self) in
   let dx := Vector2.x (Circle.center circle)
             - Vector2.x (Circle.center (Ball.circle self)) in
   let dy := Vector2.y (Circle.center circle)
             - Vector2.y (Circle.center (Ball.circle self)) in
   let length := sqrt (dx * dx + dy * dy) in
   normal <- lift (Vector2.normalize (Vector2.mk dx dy)) ;;
   u <- draw Random.random ;;
   let angle := (u - 5 / 10) * BALL_REFLECT_ANGLE in
   dir <- lift (Vector2.normalize (velocity self)) ;;
   let moved := Sprite.move_ip (sprite self)
                  (Vector2.mul dir (radius - length)) in
   v <- lift (Vector2.reflect (velocity self) (Vector2.rotate normal angle)) ;;
   ret (mk moved v))%m.

(** [Ball.update()], with the class attribute [Sprite.speed_mult] passed
    in. *)
Definition update (speed_mult : R) (self : t) : t :=
  let moved := Sprite.move_ip (sprite self)
                 (Vector2.mul (velocity self) speed_mult) in
  mk moved (Vector2.mk (Vector2.x (velocity self))
                       (Vector2.y (velocity self) + BALL_GRAVITY)).

End Ball.

(** ** Arc *)

Module Arc.

Record t : Type :=
  mk { sprite : Sprite.t; color : list Z; speed : R; angle : R }.

Definition circle (self : t) : Circle := Sprite.circle (sprite self).
Definition alive (self : t) : bool := Sprite.alive (sprite self).
Definition kill (self : t) : t :=
  mk (Sprite.kill (sprite self)) (color self) (speed self) (angle self).

(** The colour drawn when none is passed:
    [[randint(50, 255) for _ in range(3)]]. *)
Definition random_color : M (list Z) :=
  (c1 <- draw (Random.randint 50 255) ;;
   c2 <- draw (Random.randint 50 255) ;;
   c3 <- draw (Random.randint 50 255) ;;
   ret [c1; c2; c3])%m.

(** [choice([1, -1]) * pi / randint(ARC_SPEED_MIN, ARC_SPEED_MAX)] *)
Definition random_speed : M R :=
  (sign <- draw Random.choice_sign ;;
   n <- draw (Random.randint ARC_SPEED_MIN ARC_SPEED_MAX) ;;
   ret (sign * PI / IZR n))%m.

(** [random() * 2 * pi] *)
Definition random_angle : M R :=
  (u <- draw Random.random ;; ret (u * 2 * PI))%m.

(** [Arc.__init__(center, radius, color, angle, speed)].  An argument
    left out is [None]; the three tests are tests of truthiness. *)
Definition init (center : Point) (radius : R) (color : option (list Z))
    (angle speed : option R) : M t :=
  (col <- match color with
          | Some (c :: cs) =>
              cl <- lift (new_Color (c :: cs)) ;; ret [r cl; g cl; b cl]
          | _ => random_color
          end ;;
   spd <- match speed with
          | Some v => if truthy v then ret v else random_speed
          | None => random_speed
          end ;;
   ang <- match angle with
          | Some v => if truthy v then ret v else random_angle
          | None => random_angle
          end ;;
   image <- lift (new_Surface (radius * 2) (radius * 2)) ;;
   sp <- lift (Sprite.init center image) ;;
   ret (mk sp col spd ang))%m.

Section Collide.

(** [pygame.sprite.collide_mask(arc, ball)] as a truth value: whether
    the opaque pixels of the two images overlap. *)
Variable collide_mask : t -> Ball.t -> bool.

(** [Arc.collide_ball(ball)]: the answer and the ball it has moved. *)
Definition collide_ball (self : t) (ball : Ball.t) : result (bool * Ball.t) :=
  let radius := Circle.radius (circle self) - Circle.radius (Ball.circle ball) in
  let dx := Vector2.x (Circle.center (circle self))
            - Vector2.x (Circle.center (Ball.circle ball)) in
  let dy := Vector2.y (Circle.center (circle self))
            - Vector2.y (Circle.center (Ball.circle ball)) in
  let length := sqrt (dx * dx + dy * dy) in
  rbind (Vector2.normalize (Ball.velocity ball)) (fun dir =>
  let ball' := Ball.mk (Sprite.move_ip (Ball.sprite ball)
                          (Vector2.mul dir (radius - length)))
                       (Ball.velocity ball) in
  Ok (collide_mask self ball', ball')).

End Collide.

(** [Arc.update()], with [Sprite.speed_mult] passed in. *)
Definition update (speed_mult : R) (self : t) : t :=
  mk (sprite self) (color self) (speed self)
     (angle self + speed self * speed_mult).

End Arc.

(** ** Particle *)

Module Particle.

Record t : Type :=
  mk { sprite : Sprite.t; velocity : Vector2; gravity : Vector2;
       lifetime : R; color : Color }.

Definition circle (self : t) : Circle := Sprite.circle (sprite self).
Definition alive (self : t) : bool := Sprite.alive (sprite self).
Definition alpha (self : t) : Z := a (color self).

(** [pygame.Vector2(PARTICLE_SPEED).rotate(random() * 360)] *)
Definition random_velocity : M Vector2 :=
  (u <- draw Random.random ;;
   ret (Vector2.rotate (Vector2.mk PARTICLE_SPEED PARTICLE_SPEED) (u * 360)))%m.

(** [Particle.__init__(center, color, radius, velocity, gravity, lifetime)] *)
Definition init (center : Point) (color : list Z) (radius : R)
    (velocity gravity : option Vector2) (lifetime : option R) : M t :=
  (vel <- match velocity with
          | Some v => if Vector2.nonzero v then ret v else random_velocity
          | None => random_velocity
          end ;;
   let grav := match gravity with
               | None => Vector2.mk 0 (1 / 10)
               | Some gv => gv
               end in
   let life := match lifetime with
               | Some l => if truthy l then l else PARTICLE_LIFETIME
               | None => PARTICLE_LIFETIME
               end in
   col <- lift (new_Color color) ;;
   let col := set_alpha col 255 in
   image <- lift (new_Surface (radius * 2) (radius * 2)) ;;
   sp <- lift (Sprite.init center image) ;;
   ret (mk sp vel grav life col))%m.

(** The alpha written by [update] for a remaining lifetime. *)
Definition fade (lifetime : R) : Z :=
  py_int (py_max (py_min (255 * lifetime / PARTICLE_LIFETIME) 255) 0).

(** [Particle.update()], with [Sprite.speed_mult] passed in. *)
Definition update (speed_mult : R) (self : t) : t :=
  let moved := Sprite.move_ip (sprite self)
                 (Vector2.mul (velocity self) speed_mult) in
  let vel := Vector2.add (velocity self) (gravity self) in
  let life := lifetime self - speed_mult in
  let col := set_alpha (color self) (fade life) in
  let sp := if Rle_dec life 0 then Sprite.kill moved else moved in
  mk sp vel (gravity self) life col.

(** Successive updates, one per tick, each with the multiplier of its
    tick. *)
Fixpoint updates (mults : list R) (self : t) : t :=
  match mults with
  | [] => self
  | m :: rest => updates rest (update m self)
  end.

(** The alpha before the first tick and after each tick. *)
Fixpoint alphas (mults : list R) (self : t) : list Z :=
  alpha self ::
  match mults with
  | [] => []
  | m :: rest => alphas rest (update m self)
  end.

End Particle.

(** ** Sampling an angle outside a cut *)

Definition random_angle_with_cut (start length : R) : M R :=
  if Rle_dec length 0 then lift (Raise ValueError)
  else if Rge_dec length (2 * PI) then lift (Raise ValueError)
  else
    (let start := py_mod start (2 * PI) in
     let end_ := start + length in
     if Rgt_dec end_ (2 * PI) then
       let end_wrapped := py_mod end_ (2 * PI) in
       let allowed_start := end_wrapped in
       let allowed_end := start in
       let total_length := allowed_end - allowed_start in
       random_value <- draw (Random.uniform 0 total_length) ;;
       let angle := allowed_start + random_value in
       ret (py_mod angle (2 * PI))
     else
       let allowed1_length := start in
       let allowed2_length := 2 * PI - end_ in
       let total_length := allowed1_length + allowed2_length in
       random_value <- draw (Random.uniform 0 total_length) ;;
       let angle := if Rlt_dec random_value allowed1_length
                    then random_value
                    else end_ + (random_value - allowed1_length) in
       ret (py_mod angle (2 * PI)))%m.

(** *** The same function in binary64

    The floats of Python are the binary64 floats of the kernel; each
    operation rounds to nearest even as in CPython.  [random()] returns a
    multiple of 2^-53 in [0, 1); it is the argument [u]. *)

Module Float64.

(** [math.pi] *)
Definition pi : float := 0x1.921fb54442d18p+1%float.

(** C's [fmod(x, y)]: the exact remainder, with the sign of [x]. *)
Definition fmod (x y : float) : float :=
  match Prim2SF x, Prim2SF y with
  | S754_finite sx mx ex, S754_finite _ my ey =>
      let e := Z.min ex ey in
      let X := (Z.pos mx * 2 ^ (ex - e))%Z in
      let Y := (Z.pos my * 2 ^ (ey - e))%Z in
      match (X mod Y)%Z with
      | Z.pos m => SF2Prim (S754_finite sx m e)
      | _ => if sx then neg_zero else zero
      end
  | S754_zero _, S754_finite _ _ _ => x
  | S754_zero _, S754_infinity _ => x
  | S754_finite _ _ _, S754_infinity _ => x
  | _, _ => nan
  end.

(** [x % y] of CPython's [float_rem]: [fmod], moved by [y] when its sign
    differs from the sign of [y]; a zero remainder takes the sign of [y].
    The only divisor in the source is [2 * pi]. *)
Definition py_mod (x y : float) : float :=
  let m := fmod x y in
  if (m =? 0)%float then (if (y <? 0)%float then neg_zero else zero)
  else if Bool.eqb (y <? 0)%float (m <? 0)%float then m
  else (m + y)%float.

(** [uniform(a, b)] is [a + (b - a) * random()]. *)
Definition uniform (a b u : float) : float := (a + (b - a) * u)%float.

Definition random_angle_with_cut (start length u : float) : result float :=
  if (length <=? 0)%float then Raise ValueError
  else if (2 * pi <=? length)%float then Raise ValueError
  else
    let start := py_mod start (2 * pi)%float in
    let end_ := (start + length)%float in
    if (2 * pi <? end_)%float then
      let end_wrapped := py_mod end_ (2 * pi)%float in
      let allowed_start := end_wrapped in
      let allowed_end := start in
      let total_length := (allowed_end - allowed_start)%float in
      let random_value := uniform 0%float total_length u in
      let angle := (allowed_start + random_value)%float in
      Ok (py_mod angle (2 * pi)%float)
    else
      let allowed1_length := start in
      let allowed2_length := (2 * pi - end_)%float in
      let total_length := (allowed1_length + allowed2_length)%float in
      let random_value := uniform 0%float total_length u in
      let angle := if (random_value <? allowed1_length)%float
                   then random_value
                   else (end_ + (random_value - allowed1_length))%float in
      Ok (py_mod angle (2 * pi)%float).

(** The largest value of [random()], [1 - 2^-53]. *)
Definition last_draw : float := 0x1.fffffffffffffp-1%float.

(** [lo <= v < hi] *)
Definition within (v lo hi : float) : bool := ((lo <=? v) && (v <? hi))%float.

End Float64.

(** ** Fracture of an arc *)

(** One round of the loop of [break_arc]. *)
Definition spawn_particle (arc : Arc.t) (center : Vector2) : M Particle.t :=
  (theta <- random_angle_with_cut (Arc.angle arc - ARC_DELTA) ARC_DELTA ;;
   let radius := Vector2.rotate_rad
                   (Vector2.mk (Circle.radius (Arc.circle arc)) 0) (- theta) in
   size <- draw (Random.randint 1 3) ;;
   Particle.init (Vector2.add center radius) (Arc.color arc) (IZR size)
                 None None None)%m.

Fixpoint break_arc_loop (n : nat) (arc : Arc.t) (particles : list Particle.t)
    (center : Vector2) : M (list Particle.t) :=
  match n with
  | O => ret particles
  | S n' =>
      (p <- spawn_particle arc center ;;
       break_arc_loop n' arc (particles ++ [p]) center)%m
  end.

(** [break_arc(arc, particles, center)]: the killed arc and the group. *)
Definition break_arc (arc : Arc.t) (particles : list Particle.t)
    (center : Vector2) : M (Arc.t * list Particle.t) :=
  (let arc := Arc.kill arc in
   ps <- break_arc_loop PARTICLE_AMOUNT arc particles center ;;
   ret (arc, ps))%m.

(** ** The main loop *)

Fixpoint mapM {A B : Type} (f : A -> M B) (l : list A) : M (list B) :=
  match l with
  | [] => ret []
  | v :: rest => (w <- f v ;; ws <- mapM f rest ;; ret (w :: ws))%m
  end.

(** What a slot of the group [all_sprites] refers to.  The ball is one
    object, held by [main] and by the group; the arcs are only reached
    through the group. *)
Inductive SpriteRef : Type :=
| RBall
| RArc (arc : Arc.t).

Inductive Key : Set := K_1 | K_2 | K_3 | K_4 | K_9 | K_other.

Inductive Event : Type :=
| QUIT
| KEYDOWN (key : Key)
| MOUSEBUTTONDOWN (button : Z) (mouse_pos : Point)
| MOUSEMOTION (mouse_pos : Point)
| MOUSEWHEEL (wheel_y : Z)
| OTHER.

(** The radius of the [i]-th arc of a layout. *)
Definition arc_radius (center : Vector2) (i : nat) : R :=
  py_min (Vector2.x center) (Vector2.y center) - 50 - INR i * ARC_STEP.

(** [set_mode(key, sprites, center)] *)
Definition set_mode (key : Key) (sprites : list SpriteRef) (center : Vector2)
    : M (list SpriteRef) :=
  (color <- Arc.random_color ;;
   angle <- Arc.random_angle ;;
   speed <- Arc.random_speed ;;
   arcs <- match key with
           | K_1 =>
               mapM (fun i => Arc.init center (arc_radius center i)
                                None None None) (seq 0 9)
           | K_2 =>
               mapM (fun i => Arc.init center (arc_radius center i)
                                (Some color) (Some angle)
                                (Some (speed + INR i / 2000))) (seq 0 9)
           | K_3 =>
               mapM (fun i => Arc.init center (arc_radius center i)
                                (Some color)
                                (Some (angle + PI * INR (i mod 2)))
                                (Some (if Nat.eqb (i mod 2) 0
                                       then - speed else speed))) (seq 0 9)
           | _ => ret []
           end ;;
   ret (sprites ++ map RArc arcs))%m.

(** The state [main] keeps between ticks, with the class attribute
    [Sprite.speed_mult]. *)
Record Sim : Type :=
  mkSim { speed_mult : R;
          running : bool;
          center : Vector2;
          destroy_on_collide : bool;
          particles_on_cursor : bool;
          ball : Ball.t;
          all_sprites : list SpriteRef;
          particles : list Particle.t }.

(** The state of [main] when it enters its loop. *)
Definition main_init (center : Vector2) : M Sim :=
  (ball <- lift (Ball.init center BALL_RADIUS) ;;
   arcs <- mapM (fun i => Arc.init center (arc_radius center i)
                            None None None) (seq 0 9) ;;
   ret (mkSim 1 true center false false ball (RBall :: map RArc arcs) []))%m.

(** The particle of a left click. *)
Definition click_particle (mouse_pos : Point) : M Particle.t :=
  (c1 <- draw (Random.randint (-20) 20) ;;
   c2 <- draw (Random.randint (-20) 20) ;;
   c3 <- draw (Random.randint (-20) 20) ;;
   size <- draw (Random.randint 2 5) ;;
   u <- draw Random.random ;;
   w <- draw Random.random ;;
   life <- draw (Random.randint 30 60) ;;
   Particle.init mouse_pos [(235 + c1)%Z; (113 + c2)%Z; (20 + c3)%Z] (IZR size)
     (Some (Vector2.mk ((u - 5 / 10) * 2) (-1)))
     (Some (Vector2.mk 0 (w / 40)))
     (Some (IZR life)))%m.

(** The particle of a mouse move. *)
Definition cursor_particle (mouse_pos : Point) (color : list Z) : M Particle.t :=
  (size <- draw (Random.randint 2 5) ;;
   u <- draw Random.random ;;
   deg <- draw (Random.randint 0 360) ;;
   life <- draw (Random.randint 30 60) ;;
   Particle.init mouse_pos color (IZR size)
     (Some (Vector2.rotate (Vector2.mk 0 (u * 2)) (IZR deg)))
     None
     (Some (IZR life)))%m.

(** The mouse wheel: [min(max(speed_mult + 0.1 * y, 0.1), 3)]. *)
Definition wheel (speed_mult : R) (wheel_y : Z) : R :=
  py_min (py_max (speed_mult + 1 / 10 * IZR wheel_y) (1 / 10)) 3.

(** One event of the queue. *)
Definition handle_event (e : Event) (st : Sim) : M Sim :=
  match e with
  | QUIT =>
      ret (mkSim (speed_mult st) false (center st) (destroy_on_collide st)
             (particles_on_cursor st) (ball st) (all_sprites st) (particles st))
  | KEYDOWN K_4 =>
      ret (mkSim (speed_mult st) (running st) (center st)
             (negb (destroy_on_collide st))
             (particles_on_cursor st) (ball st) (all_sprites st) (particles st))
  | KEYDOWN K_9 =>
      ret (mkSim (speed_mult st) (running st) (center st) (destroy_on_collide st)
             (negb (particles_on_cursor st))
             (ball st) (all_sprites st) (particles st))
  | KEYDOWN K_other => ret st
  | KEYDOWN key =>
      (let ball := Ball.reset (ball st) (center st) in
       sprites <- set_mode key [RBall] (center st) ;;
       ret (mkSim 1 (running st) (center st) (destroy_on_collide st)
              (particles_on_cursor st) ball sprites []))%m
  | MOUSEBUTTONDOWN button mouse_pos =>
      if (button =? 1)%Z then
        (new <- mapM (fun _ => click_particle mouse_pos) (seq 0 40) ;;
         ret (mkSim (speed_mult st) (running st) (center st)
                (destroy_on_collide st) (particles_on_cursor st) (ball st)
                (all_sprites st) (particles st ++ new)))%m
      else if (button =? 2)%Z then
        ret (mkSim 1 (running st) (center st) (destroy_on_collide st)
               (particles_on_cursor st) (ball st) (all_sprites st) (particles st))
      else ret st
  | MOUSEMOTION mouse_pos =>
      if particles_on_cursor st then
        (color <- Arc.random_color ;;
         new <- mapM (fun _ => cursor_particle mouse_pos color) (seq 0 5) ;;
         ret (mkSim (speed_mult st) (running st) (center st)
                (destroy_on_collide st) (particles_on_cursor st) (ball st)
                (all_sprites st) (particles st ++ new)))%m
      else ret st
  | MOUSEWHEEL wheel_y =>
      ret (mkSim (wheel (speed_mult st) wheel_y) (running st) (center st)
             (destroy_on_collide st) (particles_on_cursor st) (ball st)
             (all_sprites st) (particles st))
  | OTHER => ret st
  end.

Fixpoint handle_events (es : list Event) (st : Sim) : M Sim :=
  match es with
  | [] => ret st
  | e :: rest => (st' <- handle_event e st ;; handle_events rest st')%m
  end.

(** [Group.update()] on [all_sprites]: a live sprite is updated, a dead one
    is removed. *)
Fixpoint update_sprites (mult : R) (ball : Ball.t) (l : list SpriteRef)
    : Ball.t * list SpriteRef :=
  match l with
  | [] => (ball, [])
  | RBall :: rest =>
      if Sprite.alive (Ball.sprite ball) then
        let (ball', rest') := update_sprites mult (Ball.update mult ball) rest in
        (ball', RBall :: rest')
      else update_sprites mult ball rest
  | RArc arc :: rest =>
      let (ball', rest') := update_sprites mult ball rest in
      if Arc.alive arc then (ball', RArc (Arc.update mult arc) :: rest')
      else (ball', rest')
  end.

(** [Group.update()] on [particles]. *)
Fixpoint update_particles (mult : R) (l : list Particle.t) : list Particle.t :=
  match l with
  | [] => []
  | p :: rest =>
      if Particle.alive p then Particle.update mult p :: update_particles mult rest
      else update_particles mult rest
  end.

(** The circle of [all_sprites[-1]]. *)
Definition ref_circle (ball : Ball.t) (s : SpriteRef) : Circle :=
  match s with
  | RBall => Ball.circle ball
  | RArc arc => Arc.circle arc
  end.

(** The guard of the collision check:
    [len(all_sprites) > 1 and not all_sprites[-1].circle.contains(ball.circle)]. *)
Definition check_fires (st : Sim) : bool :=
  (1 <? length (all_sprites st))%nat
  && negb (Circle.contains (ref_circle (ball st) (last (all_sprites st) RBall))
                           (Ball.circle (ball st))).

Section Tick.

Variable collide_mask : Arc.t -> Ball.t -> bool.

(** The body of the guarded block, for the arc [all_sprites[-1]]. *)
Definition resolve (arc : Arc.t) (st : Sim) : M Sim :=
  ('(hit, ball1) <- lift (Arc.collide_ball collide_mask arc (ball st)) ;;
   if (hit : bool) then
     '(arc1, ps1) <- (if destroy_on_collide st
                      then break_arc arc (particles st) (center st)
                      else ret (arc, particles st)) ;;
     ball2 <- Ball.reflect ball1 (Arc.circle arc1) ;;
     ret (mkSim (speed_mult st) (running st) (center st)
            (destroy_on_collide st) (particles_on_cursor st) ball2
            (removelast (all_sprites st) ++ [RArc arc1]) ps1)
   else
     '(arc1, ps1) <- break_arc arc (particles st) (center st) ;;
     ret (mkSim (speed_mult st) (running st) (center st)
            (destroy_on_collide st) (particles_on_cursor st) ball1
            (removelast (all_sprites st) ++ [RArc arc1]) ps1))%m.

(** Lines 394 to 402 of [main]. *)
Definition collision_phase (st : Sim) : M Sim :=
  if check_fires st then
    match last (all_sprites st) RBall with
    | RArc arc => resolve arc st
    | RBall => lift (Raise Exception)   (* a ball has no [collide_ball] *)
    end
  else ret st.

(** One round of the loop of [main], up to rendering. *)
Definition tick (events : list Event) (st : Sim) : M Sim :=
  (st1 <- handle_events events st ;;
   let (ball1, sprites1) :=
     update_sprites (speed_mult st1) (ball st1) (all_sprites st1) in
   let ps1 := update_particles (speed_mult st1) (particles st1) in
   collision_phase
     (mkSim (speed_mult st1) (running st1) (center st1)
        (destroy_on_collide st1) (particles_on_cursor st1)
        ball1 sprites1 ps1))%m.

End Tick.

(** ** Vocabulary of the statements *)

(** A live ball given by centre, radius and velocity. *)
Definition ball_at (cx cy rad vx vy : R) : Ball.t :=
  Ball.mk (Sprite.mk (Circle.mk (Vector2.mk cx cy) rad) true) (Vector2.mk vx vy).

(** A live arc given by centre, radius and angle, of colour (200, 50, 30). *)
Definition arc_at (cx cy rad ang : R) : Arc.t :=
  Arc.mk (Sprite.mk (Circle.mk (Vector2.mk cx cy) rad) true) [200; 50; 30]%Z
         (PI / 200) ang.

(** [theta] lies in [[start, start + length)] taken mod 2 pi: some turn of
    it lies in the interval. *)
Definition in_cut (theta start length : R) : Prop :=
  exists k : Z, start <= theta + 2 * PI * IZR k < start + length.

(** The same with the end point included, [[start, start + length]]. *)
Definition in_closed_cut (theta start length : R) : Prop :=
  exists k : Z, start <= theta + 2 * PI * IZR k <= start + length.

(** The margin kept from the two ends of a cut where a statement is about
    the floats of the code, and the angles of an arc it is kept for: up to
    1e6 rad in magnitude the float operations of [random_angle_with_cut]
    round by less than 1e-9 rad in all.  An arc turns by at most pi / 50 a
    tick. *)
Definition ANGLE_MARGIN : R := 1 / 1000000000.
Definition ANGLE_RANGE : R := 1000000.

(** [ARC_DELTA] in binary64. *)
Definition ARC_DELTA_f : float := (Float64.pi / 6)%float.

(** The two arcs left of the circle once the cut [[s0, s0 + length)] is
    taken out, for [s0] in [[0, 2 pi)]. *)
Definition in_allowed (theta s0 length : R) : Prop :=
  (s0 + length - 2 * PI <= theta < s0) \/ (s0 + length <= theta).

(** The clamp of [Particle.update]. *)
Definition clamp255 (v : R) : R := Rmax (Rmin v 255) 0.

(** The sum of the speed multipliers of a run of ticks. *)
Definition Rsum (l : list R) : R := fold_right Rplus 0 l.

(** A generator whose every draw is 0. *)
Definition still_source : Random.state := Random.mk (fun _ => 0) 0.

(** The velocity a particle starts with, and the generator afterwards. *)
Definition initial_velocity (velocity : option Vector2) (s : Random.state)
    : Vector2 * Random.state :=
  let drawn :=
    (Vector2.rotate (Vector2.mk PARTICLE_SPEED PARTICLE_SPEED) (Random.peek s * 360),
     Random.advance 1 s) in
  match velocity with
  | Some v => if Vector2.nonzero v then (v, s) else drawn
  | None => drawn
  end.

Definition initial_gravity (gravity : option Vector2) : Vector2 :=
  match gravity with
  | None => Vector2.mk 0 (1 / 10)
  | Some gv => gv
  end.

Definition initial_lifetime (lifetime : option R) : R :=
  match lifetime with
  | Some l => if truthy l then l else PARTICLE_LIFETIME
  | None => PARTICLE_LIFETIME
  end.

(** A fresh particle with two ticks to live. *)
Definition short_lived : Particle.t :=
  Particle.mk (Sprite.mk (Circle.mk (Vector2.mk 0 0) 3) true)
    (Vector2.mk 0 (-1)) (Vector2.mk 0 (1 / 10)) 2 (mkColor 235 113 20 255).

(** The speed drawn at position [k] of the stream. *)
Definition drawn_speed (s : Random.state) (k : nat) : R :=
  (if Rlt_dec (Random.draws s k) (1 / 2) then 1 else -1) * PI
  / IZR (ARC_SPEED_MIN
         + Int_part (Random.draws s (k + 1)
                     * IZR (ARC_SPEED_MAX - ARC_SPEED_MIN + 1))).

(** The angle drawn at position [k] of the stream. *)
Definition drawn_angle (s : Random.state) (k : nat) : R :=
  Random.draws s k * 2 * PI.

(** The colour of an arc is a list of three channels in 0..255. *)
Definition valid_color (c : list Z) : Prop :=
  exists cr cg cb,
    c = [cr; cg; cb]
    /\ channel_ok cr = true /\ channel_ok cg = true /\ channel_ok cb = true.

(** A particle of the burst of [arc]: at angle [theta] on the circle of
    the arc around [center], with the colour of the arc, opaque and alive. *)
Definition burst_particle_at (arc : Arc.t) (center : Vector2) (theta : R)
    (p : Particle.t) : Prop :=
  Circle.center (Particle.circle p)
  = Vector2.add center
      (Vector2.rotate_rad (Vector2.mk (Circle.radius (Arc.circle arc)) 0) (- theta))
  /\ [r (Particle.color p); g (Particle.color p); b (Particle.color p)]
     = Arc.color arc
  /\ Particle.alpha p = 255%Z
  /\ Particle.alive p = true.

(** The arcs of the group, in order. *)
Fixpoint arcs_of (l : list SpriteRef) : list Arc.t :=
  match l with
  | [] => []
  | RBall :: rest => arcs_of rest
  | RArc arc :: rest => arc :: arcs_of rest
  end.

(** The last arc of a layout, with the ball across its circle. *)
Definition one_arc_state : Sim :=
  mkSim 1 true (Vector2.mk 0 0) false false (ball_at 10 0 2 0 1)
    [RBall; RArc (arc_at 0 0 10 1)] [].

(** A computation [m] run on a generator of unit draws: if it returns,
    its value satisfies [Q] and the stream of draws is the one it started
    with, further along. *)
Definition returns {A : Type} (m : M A) (Q : A -> Prop) : Prop :=
  forall (s : Random.state) (v : A) (s' : Random.state),
    Random.unit_draws s -> m s = Ok (v, s') ->
    Q v /\ Random.draws s' = Random.draws s.

(** An arc as [Arc.__init__] builds it around [center]. *)
Definition arc_ok (center : Vector2) (arc : Arc.t) : Prop :=
  Circle.center (Arc.circle arc) = center
  /\ 0 <= Circle.radius (Arc.circle arc)
  /\ valid_color (Arc.color arc).

(** The states [main] runs through: the ball alive in the first slot of
    the group, behind it arcs around the centre of the screen, and the speed
    multiplier within the range of the mouse wheel. *)
Definition well_formed (st : Sim) : Prop :=
  Sprite.alive (Ball.sprite (ball st)) = true
  /\ 1 / 10 <= speed_mult st <= 3
  /\ exists arcs,
       all_sprites st = RBall :: map RArc arcs
       /\ Forall (arc_ok (center st)) arcs.

(** Two arcs left of a layout, with the ball across the inner circle. *)
Definition two_arc_state : Sim :=
  mkSim 1 true (Vector2.mk 0 0) false false (ball_at 10 0 2 0 1)
    [RBall; RArc (arc_at 0 0 50 1); RArc (arc_at 0 0 10 1)] [].

(** A computation [m] run on a generator of unit draws returns, its value
    satisfies [Q], and the stream of draws is the one it started with. *)
Definition succeeds {A : Type} (m : M A) (Q : A -> Prop) : Prop :=
  forall s : Random.state,
    Random.unit_draws s ->
    exists (v : A) (s' : Random.state),
      m s = Ok (v, s') /\ Q v /\ Random.draws s' = Random.draws s.

(** Successive passes of [Group.update] over the particles, one per tick. *)
Fixpoint run_particles (mults : list R) (l : list Particle.t) : list Particle.t :=
  match mults with
  | [] => l
  | m :: rest => run_particles rest (update_particles m l)
  end.

(** Successive updates of the ball, one per tick. *)
Fixpoint ball_updates (mults : list R) (ball : Ball.t) : Ball.t :=
  match mults with
  | [] => ball
  | m :: rest => ball_updates rest (Ball.update m ball)
  end.

(** The state with another speed multiplier. *)
Definition with_speed_mult (st : Sim) (mult : R) : Sim :=
  mkSim mult (running st) (center st) (destroy_on_collide st)
    (particles_on_cursor st) (ball st) (all_sprites st) (particles st).

(** The state with more particles. *)
Definition with_particles (st : Sim) (ps : list Particle.t) : Sim :=
  mkSim (speed_mult st) (running st) (center st) (destroy_on_collide st)
    (particles_on_cursor st) (ball st) (all_sprites st) ps.

(** A colour argument [Arc.__init__] accepts: none, an empty sequence, or
    three channels in 0..255. *)
Definition color_arg_ok (color : option (list Z)) : Prop :=
  match color with
  | None => True
  | Some [] => True
  | Some c => valid_color c
  end.

(** What [Arc.__init__] stores for each argument. *)
Definition stored_color (color : option (list Z)) (c : list Z) : Prop :=
  match color with
  | Some (x :: rest) => c = x :: rest
  | _ => exists c1 c2 c3,
           c = [c1; c2; c3]
           /\ (50 <= c1 <= 255)%Z /\ (50 <= c2 <= 255)%Z /\ (50 <= c3 <= 255)%Z
  end.

Definition stored_speed (speed : option R) (v : R) : Prop :=
  match speed with
  | Some w => if truthy w then v = w
              else PI / 300 <= Rabs v <= PI / 150
  | None => PI / 300 <= Rabs v <= PI / 150
  end.

Definition stored_angle (angle : option R) (v : R) : Prop :=
  match angle with
  | Some w => if truthy w then v = w else 0 <= v < 2 * PI
  | None => 0 <= v < 2 * PI
  end.

(** Successive updates of an arc, one per tick. *)
Fixpoint arc_updates (mults : list R) (arc : Arc.t) : Arc.t :=
  match mults with
  | [] => arc
  | m :: rest => arc_updates rest (Arc.update m arc)
  end.

(** Whatever the generator, [m] either returns a value that satisfies [Q]
    or raises an exception that satisfies [P]. *)
Definition outcome {A : Type} (m : M A) (Q : A -> Prop) (P : exn -> Prop) : Prop :=
  forall s : Random.state,
    match m s with
    | Ok (v, _) => Q v
    | Raise e => P e
    end.

(** The [i]-th arc of the layout of mode [key]: on its circle around the
    centre, alive, with the shared colour in modes 2 and 3 and the mirrored
    speed in mode 3. *)
Definition mode_arc (key : Key) (center : Vector2) (color : list Z) (speed : R)
    (i : nat) (arc : Arc.t) : Prop :=
  Arc.circle arc = Circle.mk center (arc_radius center i)
  /\ Arc.alive arc = true
  /\ valid_color (Arc.color arc)
  /\ (key = K_2 \/ key = K_3 -> Arc.color arc = color)
  /\ (key = K_3 ->
      Arc.speed arc = if Nat.eqb (i mod 2) 0 then - speed else speed).

(** A particle of a left click at [mouse_pos]: an orange spark that starts
    upwards. *)
Definition click_spark (mouse_pos : Point) (p : Particle.t) : Prop :=
  Circle.center (Particle.circle p) = mouse_pos
  /\ 2 <= Circle.radius (Particle.circle p) <= 5
  /\ Particle.alive p = true
  /\ 30 <= Particle.lifetime p <= 60
  /\ (215 <= r (Particle.color p) <= 255)%Z
  /\ (93 <= g (Particle.color p) <= 133)%Z
  /\ (0 <= b (Particle.color p) <= 40)%Z
  /\ a (Particle.color p) = 255%Z
  /\ -1 <= Vector2.x (Particle.velocity p) < 1
  /\ Vector2.y (Particle.velocity p) = -1
  /\ Vector2.x (Particle.gravity p) = 0
  /\ 0 <= Vector2.y (Particle.gravity p) < 1 / 40.

(** A particle of the trail of the cursor at [mouse_pos], of colour
    [color]. *)
Definition trail_particle (mouse_pos : Point) (color : list Z) (p : Particle.t)
    : Prop :=
  Circle.center (Particle.circle p) = mouse_pos
  /\ 2 <= Circle.radius (Particle.circle p) <= 5
  /\ Particle.alive p = true
  /\ 30 <= Particle.lifetime p <= 60
  /\ [r (Particle.color p); g (Particle.color p); b (Particle.color p)] = color
  /\ a (Particle.color p) = 255%Z
  /\ Particle.gravity p = Vector2.mk 0 (1 / 10).

(** A state at rest: the ball in the middle of one arc, the cursor mode
    on. *)
Definition trail_state : Sim :=
  mkSim 1 true (Vector2.mk 0 0) false true (ball_at 0 0 2 0 0)
    [RBall; RArc (arc_at 0 0 10 1)] [].

(** * Verification *)

(** ** Vectors *)

Lemma sum_sqr_zero (u v : R) : u * u + v * v = 0 -> u = 0 /\ v = 0.
Proof.
  intro H. split.
  - destruct (Req_dec u 0) as [E | N]; [exact E | exfalso].
    assert (0 < u * u) by (destruct (Rtotal_order u 0) as [L | [L | L]]; [nra | contradiction | nra]).
    nra.
  - destruct (Req_dec v 0) as [E | N]; [exact E | exfalso].
    assert (0 < v * v) by (destruct (Rtotal_order v 0) as [L | [L | L]]; [nra | contradiction | nra]).
    nra.
Qed.

Lemma length_nonneg (v : Vector2) : 0 <= Vector2.length v.
Proof. unfold Vector2.length. apply sqrt_pos. Qed.

Lemma length_sqr (v : Vector2) :
  Vector2.length v * Vector2.length v
  = Vector2.x v * Vector2.x v + Vector2.y v * Vector2.y v.
Proof. unfold Vector2.length. apply sqrt_sqrt. nra. Qed.

Lemma length_zero (v : Vector2) : Vector2.length v = 0 -> v = Vector2.zero.
Proof.
  intro H. pose proof (length_sqr v) as S. rewrite H in S.
  destruct (sum_sqr_zero (Vector2.x v) (Vector2.y v)) as [Hx Hy]; [lra |].
  destruct v as [vx vy]. simpl in *. subst. reflexivity.
Qed.

Lemma length_of_zero : Vector2.length Vector2.zero = 0.
Proof.
  unfold Vector2.length, Vector2.zero. simpl.
  replace (0 * 0 + 0 * 0) with 0 by ring. apply sqrt_0.
Qed.

Lemma length_pos (v : Vector2) : v <> Vector2.zero -> 0 < Vector2.length v.
Proof.
  intro N. destruct (length_nonneg v) as [L | E]; [exact L |].
  exfalso. apply N. apply length_zero. symmetry. exact E.
Qed.

Lemma normalize_nonzero (v : Vector2) :
  v <> Vector2.zero ->
  Vector2.normalize v = Ok (Vector2.div v (Vector2.length v)).
Proof.
  intro N. unfold Vector2.normalize.
  destruct (Req_dec_T (Vector2.length v) 0) as [E | _]; [| reflexivity].
  exfalso. apply N. apply length_zero. exact E.
Qed.

Lemma normalize_zero : Vector2.normalize Vector2.zero = Raise ValueError.
Proof.
  unfold Vector2.normalize.
  destruct (Req_dec_T (Vector2.length Vector2.zero) 0) as [_ | N]; [reflexivity |].
  exfalso. apply N. apply length_of_zero.
Qed.

Lemma length_unit (v : Vector2) :
  Vector2.x v * Vector2.x v + Vector2.y v * Vector2.y v = 1 ->
  Vector2.length v = 1.
Proof.
  intro H. unfold Vector2.length. rewrite H. apply sqrt_1.
Qed.

Lemma div_length_unit (v : Vector2) :
  v <> Vector2.zero ->
  let n := Vector2.div v (Vector2.length v) in
  Vector2.x n * Vector2.x n + Vector2.y n * Vector2.y n = 1.
Proof.
  intros N n. pose proof (length_pos v N) as P. pose proof (length_sqr v) as S.
  unfold n, Vector2.div. simpl.
  set (l := Vector2.length v) in *.
  replace (Vector2.x v / l * (Vector2.x v / l) + Vector2.y v / l * (Vector2.y v / l))
    with ((Vector2.x v * Vector2.x v + Vector2.y v * Vector2.y v) / (l * l))
    by (field; lra).
  rewrite <- S. field. lra.
Qed.

Lemma rotate_rad_sqr (v : Vector2) (t : R) :
  let w := Vector2.rotate_rad v t in
  Vector2.x w * Vector2.x w + Vector2.y w * Vector2.y w
  = Vector2.x v * Vector2.x v + Vector2.y v * Vector2.y v.
Proof.
  simpl. pose proof (sin2_cos2 t) as H. unfold Rsqr in H.
  set (c := cos t) in *. set (s := sin t) in *.
  replace ((c * Vector2.x v - s * Vector2.y v) * (c * Vector2.x v - s * Vector2.y v)
           + (s * Vector2.x v + c * Vector2.y v) * (s * Vector2.x v + c * Vector2.y v))
    with ((s * s + c * c) * (Vector2.x v * Vector2.x v + Vector2.y v * Vector2.y v))
    by ring.
  rewrite H. ring.
Qed.

(** Reflection about a normal of length one keeps the length. *)
Lemma reflect_unit_normal (v n : Vector2) :
  Vector2.x n * Vector2.x n + Vector2.y n * Vector2.y n = 1 ->
  exists w, Vector2.reflect v n = Ok w /\ Vector2.length w = Vector2.length v.
Proof.
  intro U. unfold Vector2.reflect, Vector2.dot.
  destruct (Req_dec_T (Vector2.x n * Vector2.x n + Vector2.y n * Vector2.y n) 0)
    as [E | _]; [lra |].
  rewrite U, sqrt_1. eexists. split; [reflexivity |].
  unfold Vector2.length, Vector2.div. simpl. f_equal.
  set (nx := Vector2.x n) in *. set (ny := Vector2.y n) in *.
  set (a0 := Vector2.x v). set (b0 := Vector2.y v).
  replace (nx / 1) with nx by field. replace (ny / 1) with ny by field.
  replace ((a0 - 2 * nx * (a0 * nx + b0 * ny)) * (a0 - 2 * nx * (a0 * nx + b0 * ny))
           + (b0 - 2 * ny * (a0 * nx + b0 * ny)) * (b0 - 2 * ny * (a0 * nx + b0 * ny)))
    with (a0 * a0 + b0 * b0
          + 4 * (a0 * nx + b0 * ny) * (a0 * nx + b0 * ny) * (nx * nx + ny * ny - 1))
    by ring.
  rewrite U. ring.
Qed.

(** ** Penetration resolution: [Arc.collide_ball] *)

Lemma vector_neq_zero_y (vx vy : R) : vy <> 0 -> Vector2.mk vx vy <> Vector2.zero.
Proof. intros N E. apply N. injection E. intros. assumption. Qed.

Lemma vector_neq_zero_x (vx vy : R) : vx <> 0 -> Vector2.mk vx vy <> Vector2.zero.
Proof. intros N E. apply N. injection E. intros. assumption. Qed.

(** C7: with a ball at rest, [collide_ball] raises instead of answering. *)
Theorem collide_ball_zero_velocity (collide_mask : Arc.t -> Ball.t -> bool)
    (arc : Arc.t) (ball : Ball.t) :
  Ball.velocity ball = Vector2.zero ->
  Arc.collide_ball collide_mask arc ball = Raise ValueError.
Proof.
  intro Z. unfold Arc.collide_ball. rewrite Z, normalize_zero. reflexivity.
Qed.

Lemma collide_ball_zero_velocity_witness :
  Arc.collide_ball (fun _ _ => true) (arc_at 0 0 10 1) (ball_at 10 0 2 0 0)
  = Raise ValueError.
Proof.
  apply (collide_ball_zero_velocity (fun _ _ => true) (arc_at 0 0 10 1)
           (ball_at 10 0 2 0 0)).
  reflexivity.
Defined.

(** What [collide_ball] does to a moving ball, in general. *)
Lemma collide_ball_moving (collide_mask : Arc.t -> Ball.t -> bool)
    (arc : Arc.t) (ball : Ball.t) :
  Ball.velocity ball <> Vector2.zero ->
  let dir := Vector2.div (Ball.velocity ball) (Vector2.length (Ball.velocity ball)) in
  let ball' :=
    Ball.mk (Sprite.move_ip (Ball.sprite ball)
               (Vector2.mul dir
                  (Circle.radius (Arc.circle arc) - Circle.radius (Ball.circle ball)
                   - Circle.center_distance (Arc.circle arc) (Ball.circle ball))))
            (Ball.velocity ball) in
  Arc.collide_ball collide_mask arc ball = Ok (collide_mask arc ball', ball').
Proof.
  intros N dir ball'. unfold Arc.collide_ball.
  rewrite (normalize_nonzero _ N). reflexivity.
Qed.

(** A point at [d] along a unit direction from a centre, pushed a further
    [k - d] along that direction, is at distance [k] from the centre. *)
Lemma moved_distance (ax ay bx by_ nx ny d k : R) :
  nx * nx + ny * ny = 1 -> 0 <= k ->
  bx = ax + nx * d -> by_ = ay + ny * d ->
  sqrt ((bx + nx * (k - d) - ax) * (bx + nx * (k - d) - ax)
        + (by_ + ny * (k - d) - ay) * (by_ + ny * (k - d) - ay)) = k.
Proof.
  intros U K -> ->.
  replace ((ax + nx * d + nx * (k - d) - ax) * (ax + nx * d + nx * (k - d) - ax)
           + (ay + ny * d + ny * (k - d) - ay) * (ay + ny * d + ny * (k - d) - ay))
    with (k * k * (nx * nx + ny * ny)) by ring.
  rewrite U, Rmult_1_r. apply sqrt_square. exact K.
Qed.

(** C1, as the code has it: the ball is displaced along its velocity
    direction by the signed amount [R_a - r_b - d]; its centre ends at
    distance [R_a - r_b] from the arc's centre when it lies from that centre
    in the direction of the velocity. *)
Theorem collide_ball_displacement (collide_mask : Arc.t -> Ball.t -> bool)
    (arc : Arc.t) (ball : Ball.t) :
  Circle.radius (Arc.circle arc) > Circle.radius (Ball.circle ball) ->
  Ball.velocity ball <> Vector2.zero ->
  let allowed := Circle.radius (Arc.circle arc) - Circle.radius (Ball.circle ball) in
  let d := Circle.center_distance (Arc.circle arc) (Ball.circle ball) in
  exists dir ball',
    Vector2.normalize (Ball.velocity ball) = Ok dir /\
    Vector2.length dir = 1 /\
    Arc.collide_ball collide_mask arc ball = Ok (collide_mask arc ball', ball') /\
    Ball.velocity ball' = Ball.velocity ball /\
    Circle.radius (Ball.circle ball') = Circle.radius (Ball.circle ball) /\
    Circle.center (Ball.circle ball')
    = Vector2.add (Circle.center (Ball.circle ball)) (Vector2.mul dir (allowed - d)) /\
    (Circle.center (Ball.circle ball)
     = Vector2.add (Circle.center (Arc.circle arc)) (Vector2.mul dir d) ->
     Circle.center_distance (Ball.circle ball') (Arc.circle arc) = allowed).
Proof.
  intros HR N allowed d.
  pose proof (div_length_unit _ N) as U. simpl in U.
  set (dir := Vector2.div (Ball.velocity ball) (Vector2.length (Ball.velocity ball))) in *.
  exists dir, (Ball.mk (Sprite.move_ip (Ball.sprite ball)
                          (Vector2.mul dir (allowed - d)))
                       (Ball.velocity ball)).
  split; [apply normalize_nonzero; exact N |].
  split; [apply length_unit; exact U |].
  split; [apply collide_ball_moving; exact N |].
  split; [reflexivity |]. split; [reflexivity |]. split; [reflexivity |].
  intro Hrad.
  assert (A : 0 <= allowed) by (unfold allowed; lra).
  clearbody allowed d.
  unfold Circle.center_distance. cbn [Ball.circle Ball.sprite Sprite.circle
    Sprite.move_ip Circle.move_ip Circle.center Vector2.add Vector2.mul
    Vector2.x Vector2.y].
  apply moved_distance with (d := d); [exact U | exact A | |];
    fold (Ball.circle ball); rewrite Hrad; reflexivity.
Qed.

Lemma collide_ball_displacement_witness :
  exists ball',
    Arc.collide_ball (fun _ _ => true) (arc_at 0 0 10 1) (ball_at 10 0 2 1 0)
    = Ok (true, ball')
    /\ Ball.velocity ball' = Vector2.mk 1 0
    /\ Circle.center_distance (Ball.circle ball') (Arc.circle (arc_at 0 0 10 1))
       = 10 - 2.
Proof.
  destruct (collide_ball_displacement (fun _ _ => true) (arc_at 0 0 10 1)
              (ball_at 10 0 2 1 0))
    as [dir [ball' [Hn [_ [Hc [Hv [_ [_ Hdist]]]]]]]].
  - simpl. lra.
  - apply vector_neq_zero_x. lra.
  - exists ball'. split; [exact Hc |]. split; [exact Hv |]. apply Hdist.
    rewrite normalize_nonzero in Hn by (apply vector_neq_zero_x; lra).
    injection Hn as <-.
    assert (L : Vector2.length (Vector2.mk 1 0) = 1)
      by (apply length_unit; simpl; ring).
    assert (D : Circle.center_distance (Arc.circle (arc_at 0 0 10 1))
                  (Ball.circle (ball_at 10 0 2 1 0)) = 10)
      by (unfold Circle.center_distance; simpl; apply sqrt_lem_1; lra).
    rewrite L, D. unfold Vector2.add, Vector2.mul, Vector2.div. simpl.
    f_equal; field.
Defined.

(** C1 as stated fails: a ball that moves across the radius is pushed back
    along its velocity and stays off the boundary. *)
Lemma collide_ball_off_boundary :
  let arc := arc_at 0 0 10 1 in
  let ball := ball_at 10 0 2 0 1 in
  let ball' := ball_at 10 (-2) 2 0 1 in
  Circle.radius (Arc.circle arc) > Circle.radius (Ball.circle ball) /\
  Ball.velocity ball <> Vector2.zero /\
  Arc.collide_ball (fun _ _ => true) arc ball = Ok (true, ball') /\
  Circle.center_distance (Ball.circle ball') (Arc.circle arc)
  <> Circle.radius (Arc.circle arc) - Circle.radius (Ball.circle ball).
Proof.
  intros arc ball ball'.
  assert (N : Ball.velocity ball <> Vector2.zero)
    by (apply vector_neq_zero_y; lra).
  assert (L : Vector2.length (Ball.velocity ball) = 1)
    by (apply length_unit; simpl; ring).
  assert (D : Circle.center_distance (Arc.circle arc) (Ball.circle ball) = 10).
  { unfold Circle.center_distance. simpl. apply sqrt_lem_1; lra. }
  split; [simpl; lra |]. split; [exact N |]. split.
  - rewrite (collide_ball_moving _ arc ball N). rewrite L, D.
    unfold ball', ball_at, Sprite.move_ip, Circle.move_ip, Vector2.add,
      Vector2.mul, Vector2.div. simpl.
    replace (10 + 0 / 1 * (10 - 2 - 10)) with 10 by field.
    replace (0 + 1 / 1 * (10 - 2 - 10)) with (-2) by field.
    reflexivity.
  - unfold Circle.center_distance. simpl. intro E.
    assert (S : sqrt ((10 - 0) * (10 - 0) + (-2 - 0) * (-2 - 0))
                * sqrt ((10 - 0) * (10 - 0) + (-2 - 0) * (-2 - 0))
                = (10 - 0) * (10 - 0) + (-2 - 0) * (-2 - 0))
      by (apply sqrt_sqrt; lra).
    rewrite E in S. lra.
Qed.

(** ** Reflection: [Ball.reflect] *)

Lemma centers_differ (c1 c2 : Point) :
  c1 <> c2 ->
  Vector2.mk (Vector2.x c1 - Vector2.x c2) (Vector2.y c1 - Vector2.y c2)
  <> Vector2.zero.
Proof.
  intros N E. apply N. injection E. intros Hy Hx.
  destruct c1 as [x1 y1], c2 as [x2 y2]. simpl in *.
  f_equal; lra.
Qed.

(** C8: reflection keeps the speed of the ball, whatever the jitter drawn. *)
Theorem reflect_preserves_speed (ball : Ball.t) (circle : Circle)
    (s : Random.state) :
  Ball.velocity ball <> Vector2.zero ->
  Circle.center circle <> Circle.center (Ball.circle ball) ->
  exists ball',
    Ball.reflect ball circle s = Ok (ball', Random.advance 1 s) /\
    Vector2.length (Ball.velocity ball') = Vector2.length (Ball.velocity ball).
Proof.
  intros N C.
  pose proof (centers_differ _ _ C) as Nn.
  pose proof (div_length_unit _ Nn) as U. cbv zeta in U.
  set (normal := Vector2.mk
                   (Vector2.x (Circle.center circle)
                    - Vector2.x (Circle.center (Ball.circle ball)))
                   (Vector2.y (Circle.center circle)
                    - Vector2.y (Circle.center (Ball.circle ball)))) in *.
  set (n1 := Vector2.div normal (Vector2.length normal)) in *.
  set (angle := (Random.peek s - 5 / 10) * BALL_REFLECT_ANGLE).
  assert (U' : Vector2.x (Vector2.rotate n1 angle) * Vector2.x (Vector2.rotate n1 angle)
               + Vector2.y (Vector2.rotate n1 angle) * Vector2.y (Vector2.rotate n1 angle)
               = 1).
  { unfold Vector2.rotate.
    rewrite (rotate_rad_sqr n1 (angle * PI / 180)). exact U. }
  destruct (reflect_unit_normal (Ball.velocity ball) _ U') as [w [Hw Hl]].
  exists (Ball.mk (Sprite.move_ip (Ball.sprite ball)
                     (Vector2.mul
                        (Vector2.div (Ball.velocity ball)
                           (Vector2.length (Ball.velocity ball)))
                        (Circle.radius circle - Circle.radius (Ball.circle ball)
                         - Vector2.length normal)))
                  w).
  split; [| exact Hl].
  unfold Ball.reflect, bind, lift, draw, ret, Random.random.
  fold normal. rewrite (normalize_nonzero _ Nn). fold n1.
  rewrite (normalize_nonzero _ N). fold angle. rewrite Hw.
  reflexivity.
Qed.

Lemma reflect_preserves_speed_witness :
  exists ball',
    Ball.reflect (ball_at 8 0 2 3 4) (Circle.mk (Vector2.mk 0 0) 10)
      (Random.mk (fun _ => 1 / 4) 0)
    = Ok (ball', Random.advance 1 (Random.mk (fun _ => 1 / 4) 0)) /\
    Vector2.length (Ball.velocity ball') = Vector2.length (Vector2.mk 3 4).
Proof.
  apply (reflect_preserves_speed (ball_at 8 0 2 3 4)
           (Circle.mk (Vector2.mk 0 0) 10) (Random.mk (fun _ => 1 / 4) 0)).
  - apply vector_neq_zero_x. lra.
  - simpl. intro E. injection E. intros. lra.
Defined.

(** ** Python's float remainder *)

Lemma two_pi_pos : 0 < 2 * PI.
Proof. pose proof PI_RGT_0. lra. Qed.

Lemma py_mod_decompose (v m : R) : v = py_mod v m + m * IZR (Int_part (v / m)).
Proof. unfold py_mod. ring. Qed.

Lemma py_mod_range (v m : R) : 0 < m -> 0 <= py_mod v m < m.
Proof.
  intro P. unfold py_mod.
  destruct (base_Int_part (v / m)) as [L U].
  set (k := IZR (Int_part (v / m))) in *.
  assert (E : v = m * (v / m)) by (field; lra).
  split.
  - assert (m * k <= m * (v / m)) by (apply Rmult_le_compat_l; lra). lra.
  - assert (m * (v / m) < m * (k + 1)) by (apply Rmult_lt_compat_l; lra). lra.
Qed.

Lemma py_mod_shift (v m : R) (k : Z) :
  0 < m -> 0 <= v - m * IZR k < m -> py_mod v m = v - m * IZR k.
Proof.
  intros P [L U]. unfold py_mod.
  replace (Int_part (v / m)) with k; [reflexivity |].
  apply Int_part_spec. split.
  - apply Rmult_lt_reg_l with m; [exact P |].
    replace (m * (v / m - 1)) with (v - m) by (field; lra). lra.
  - apply Rmult_le_reg_l with m; [exact P |].
    replace (m * (v / m)) with v by (field; lra). lra.
Qed.

Lemma py_mod_small (v m : R) : 0 <= v < m -> py_mod v m = v.
Proof.
  intros [L U]. assert (P : 0 < m) by lra.
  rewrite (py_mod_shift v m 0 P); simpl; [ring |].
  replace (v - m * 0) with v by ring. lra.
Qed.

(** ** Sampling outside a cut: [random_angle_with_cut] *)

Lemma allowed_not_in_cut (theta start length : R) :
  0 < length < 2 * PI ->
  0 <= theta < 2 * PI ->
  in_allowed theta (py_mod start (2 * PI)) length ->
  ~ in_cut theta start length.
Proof.
  intros Hl Ht Ha [k Hk].
  pose proof two_pi_pos as P.
  pose proof (py_mod_range start (2 * PI) P) as Hs.
  pose proof (py_mod_decompose start (2 * PI)) as D.
  set (s0 := py_mod start (2 * PI)) in *.
  set (k0 := Int_part (start / (2 * PI))) in *.
  set (j := (k - k0)%Z).
  assert (Hj : s0 <= theta + 2 * PI * IZR j < s0 + length).
  { unfold j. rewrite minus_IZR. lra. }
  clearbody s0 j. clear D Hk.
  destruct (Z_le_gt_dec j (-1)) as [J | J].
  - apply IZR_le in J.
    assert (2 * PI * IZR j <= 2 * PI * -1) by (apply Rmult_le_compat_l; lra).
    lra.
  - destruct (Z_le_gt_dec 2 j) as [J2 | J2].
    + apply IZR_le in J2.
      assert (2 * PI * 2 <= 2 * PI * IZR j) by (apply Rmult_le_compat_l; lra).
      lra.
    + assert (C : j = 0%Z \/ j = 1%Z) by lia.
      unfold in_allowed in Ha.
      destruct C as [-> | ->]; simpl in Hj; lra.
Qed.

(** What [random_angle_with_cut] returns on a length it accepts. *)
Lemma random_angle_with_cut_allowed (start length : R) (s : Random.state) :
  0 < length < 2 * PI ->
  0 <= Random.peek s < 1 ->
  exists theta,
    random_angle_with_cut start length s = Ok (theta, Random.advance 1 s) /\
    0 <= theta < 2 * PI /\
    in_allowed theta (py_mod start (2 * PI)) length.
Proof.
  intros Hl Hu.
  pose proof two_pi_pos as P.
  pose proof (py_mod_range start (2 * PI) P) as Hs.
  unfold random_angle_with_cut.
  destruct (Rle_dec length 0) as [C | _]; [lra |].
  destruct (Rge_dec length (2 * PI)) as [C | _]; [lra |].
  set (s0 := py_mod start (2 * PI)) in *.
  set (u := Random.peek s) in *.
  destruct (Rgt_dec (s0 + length) (2 * PI)) as [W | NW].
  - assert (Ew : py_mod (s0 + length) (2 * PI) = s0 + length - 2 * PI).
    { rewrite (py_mod_shift _ _ 1 P); simpl; lra. }
    unfold bind, draw, ret, Random.uniform. fold u. rewrite Ew.
    set (theta := s0 + length - 2 * PI + (0 + (s0 - (s0 + length - 2 * PI) - 0) * u)).
    assert (Hu' : 0 <= (2 * PI - length) * u < 2 * PI - length).
    { split; [apply Rmult_le_pos; lra |].
      rewrite <- (Rmult_1_r (2 * PI - length)) at 2.
      apply Rmult_lt_compat_l; lra. }
    assert (Ht : s0 + length - 2 * PI <= theta < s0) by (unfold theta; lra).
    rewrite (py_mod_small theta (2 * PI)) by lra.
    exists theta. split; [reflexivity |]. split; [lra |]. left. exact Ht.
  - unfold bind, draw, ret, Random.uniform. fold u.
    set (rv := 0 + (s0 + (2 * PI - (s0 + length)) - 0) * u).
    assert (Hu' : 0 <= (2 * PI - length) * u < 2 * PI - length).
    { split; [apply Rmult_le_pos; lra |].
      rewrite <- (Rmult_1_r (2 * PI - length)) at 2.
      apply Rmult_lt_compat_l; lra. }
    assert (Hrv : 0 <= rv < 2 * PI - length) by (unfold rv; lra).
    destruct (Rlt_dec rv s0) as [B | B].
    + rewrite (py_mod_small rv (2 * PI)) by lra.
      exists rv. split; [reflexivity |]. split; [lra |]. left. lra.
    + rewrite (py_mod_small (s0 + length + (rv - s0)) (2 * PI)) by lra.
      exists (s0 + length + (rv - s0)). split; [reflexivity |].
      split; [lra |]. right. lra.
Qed.

(** Over the reals the sampling keeps out of the cut: for any start, any
    length in (0, 2 pi) and any draw of [0, 1), the angle returned lies in
    [0, 2 pi) and outside [[start, start + length)] mod 2 pi.  The function
    is written to avoid the cut; its floats, below, do not always. *)
Lemma random_angle_outside_cut_over_reals (start length : R) (s : Random.state) :
  0 < length < 2 * PI ->
  0 <= Random.peek s < 1 ->
  exists theta,
    random_angle_with_cut start length s = Ok (theta, Random.advance 1 s) /\
    0 <= theta < 2 * PI /\
    ~ in_cut theta start length.
Proof.
  intros Hl Hu.
  destruct (random_angle_with_cut_allowed start length s Hl Hu)
    as [theta [E [Ht Ha]]].
  exists theta. split; [exact E |]. split; [exact Ht |].
  apply allowed_not_in_cut; assumption.
Qed.

(** C4, refuted in binary64: with start 5.0, length 3.0 and the draw
    1 - 2^-53, the largest value [random()] returns, the function returns
    5.0, the first angle of the cut [[5, 8)].  The cut wraps, so the angle is
    [allowed_start + random_value] with [allowed_start] 1.7168146928204138
    and [total_length] 3.2831853071795862; the product with the draw is
    within half an ulp of [total_length], and the sum rounds to [start]. *)
Theorem random_angle_with_cut_returns_cut_start :
  Float64.within Float64.last_draw 0 1 = true /\
  Float64.random_angle_with_cut 5 3 Float64.last_draw = Ok 5%float /\
  Float64.within 5 5 (5 + 3) = true.
Proof. vm_compute. repeat split. Qed.

(** C6: [random_angle_with_cut] raises exactly when the length is not in
    (0, 2 pi); on every other length it returns an angle. *)
Theorem random_angle_with_cut_raises_iff (start length : R) (s : Random.state) :
  (random_angle_with_cut start length s = Raise ValueError
   <-> (length <= 0 \/ length >= 2 * PI))
  /\ ((exists theta, random_angle_with_cut start length s
                     = Ok (theta, Random.advance 1 s))
      <-> 0 < length < 2 * PI).
Proof.
  unfold random_angle_with_cut.
  destruct (Rle_dec length 0) as [C | C].
  - split; split.
    + intros _. left. exact C.
    + intros _. reflexivity.
    + intros [theta E]. discriminate E.
    + intros [L _]. lra.
  - destruct (Rge_dec length (2 * PI)) as [C2 | C2].
    + split; split.
      * intros _. right. exact C2.
      * intros _. reflexivity.
      * intros [theta E]. discriminate E.
      * intros [_ U]. lra.
    + split; split.
      * intro E. exfalso.
        destruct (Rgt_dec (py_mod start (2 * PI) + length) (2 * PI));
          unfold bind, draw, ret in E; simpl in E; discriminate E.
      * intros [L | L]; [lra | contradiction].
      * intros _. lra.
      * intros _.
        destruct (Rgt_dec (py_mod start (2 * PI) + length) (2 * PI));
          unfold bind, draw, ret; simpl; eexists; reflexivity.
Qed.

(** ** Integer parts, [min] and [max] *)

Lemma Int_part_floor (v : R) (z : Z) : IZR z <= v < IZR z + 1 -> Int_part v = z.
Proof.
  intros [L U]. symmetry. apply Int_part_spec. lra.
Qed.

Lemma Int_part_bounds (v : R) : IZR (Int_part v) <= v < IZR (Int_part v) + 1.
Proof. destruct (base_Int_part v) as [L U]. lra. Qed.

Lemma Int_part_mono (v w : R) : v <= w -> (Int_part v <= Int_part w)%Z.
Proof.
  intro H. pose proof (Int_part_bounds v) as Bv. pose proof (Int_part_bounds w) as Bw.
  assert (L : IZR (Int_part v) < IZR (Int_part w + 1)) by (rewrite plus_IZR; lra).
  apply lt_IZR in L. lia.
Qed.

Lemma py_int_nonneg (v : R) : 0 <= v -> py_int v = Int_part v.
Proof.
  intro H. unfold py_int. destruct (Rle_dec 0 v); [reflexivity | contradiction].
Qed.

Lemma py_min_Rmin (v w : R) : py_min v w = Rmin v w.
Proof.
  unfold py_min, Rmin. destruct (Rlt_dec w v), (Rle_dec v w); lra.
Qed.

Lemma py_max_Rmax (v w : R) : py_max v w = Rmax v w.
Proof.
  unfold py_max, Rmax. destruct (Rlt_dec v w), (Rle_dec v w); lra.
Qed.

Lemma clamp255_range (v : R) : 0 <= clamp255 v <= 255.
Proof.
  unfold clamp255, Rmax, Rmin.
  destruct (Rle_dec v 255); destruct (Rle_dec _ 0); lra.
Qed.

Lemma clamp255_mono (v w : R) : v <= w -> clamp255 v <= clamp255 w.
Proof.
  intro H. unfold clamp255, Rmax, Rmin.
  destruct (Rle_dec v 255); destruct (Rle_dec w 255);
    repeat match goal with |- context [Rle_dec ?p ?q] => destruct (Rle_dec p q) end;
    lra.
Qed.

Lemma clamp255_inside (v : R) : 0 <= v <= 255 -> clamp255 v = v.
Proof.
  intro H. unfold clamp255, Rmax, Rmin.
  destruct (Rle_dec v 255); destruct (Rle_dec _ 0); lra.
Qed.

Lemma clamp255_low (v : R) : v <= 0 -> clamp255 v = 0.
Proof.
  intro H. unfold clamp255, Rmax, Rmin.
  destruct (Rle_dec v 255); destruct (Rle_dec _ 0); lra.
Qed.


(** ** Fading: [Particle.update] *)

Lemma fade_floor (lifetime : R) :
  Particle.fade lifetime = Int_part (clamp255 (255 * lifetime / PARTICLE_LIFETIME)).
Proof.
  unfold Particle.fade. rewrite py_min_Rmin, py_max_Rmax.
  fold (clamp255 (255 * lifetime / PARTICLE_LIFETIME)).
  apply py_int_nonneg. apply clamp255_range.
Qed.

Lemma fade_range (lifetime : R) : (0 <= Particle.fade lifetime <= 255)%Z.
Proof.
  rewrite fade_floor.
  pose proof (clamp255_range (255 * lifetime / PARTICLE_LIFETIME)) as C.
  assert (E0 : Int_part 0 = 0%Z) by (apply Int_part_floor; simpl; lra).
  assert (E1 : Int_part 255 = 255%Z) by (apply Int_part_floor; simpl; lra).
  split.
  - pose proof (Int_part_mono _ _ (proj1 C)) as H. rewrite E0 in H. exact H.
  - pose proof (Int_part_mono _ _ (proj2 C)) as H. rewrite E1 in H. exact H.
Qed.

Lemma fade_mono (l1 l2 : R) : l1 <= l2 -> (Particle.fade l1 <= Particle.fade l2)%Z.
Proof.
  intro H. rewrite !fade_floor. apply Int_part_mono. apply clamp255_mono.
  unfold PARTICLE_LIFETIME. lra.
Qed.

Lemma fade_dead (lifetime : R) : lifetime <= 0 -> Particle.fade lifetime = 0%Z.
Proof.
  intro H. rewrite fade_floor, clamp255_low.
  - apply Int_part_floor. simpl. lra.
  - unfold PARTICLE_LIFETIME. lra.
Qed.

Lemma fade_value (lifetime : R) (z : Z) :
  (0 <= z <= 254)%Z ->
  IZR z <= 255 * lifetime / PARTICLE_LIFETIME < IZR z + 1 ->
  Particle.fade lifetime = z.
Proof.
  intros [Z0 Z1] H. apply IZR_le in Z0, Z1. rewrite fade_floor, clamp255_inside.
  - apply Int_part_floor. exact H.
  - lra.
Qed.


Lemma update_lifetime (m : R) (p : Particle.t) :
  Particle.lifetime (Particle.update m p) = Particle.lifetime p - m.
Proof. reflexivity. Qed.

Lemma update_alpha (m : R) (p : Particle.t) :
  Particle.alpha (Particle.update m p)
  = Particle.fade (Particle.lifetime (Particle.update m p)).
Proof. reflexivity. Qed.

Lemma update_alive (m : R) (p : Particle.t) :
  Particle.alive (Particle.update m p)
  = if Rle_dec (Particle.lifetime p - m) 0 then false else Particle.alive p.
Proof.
  unfold Particle.update, Particle.alive. simpl.
  destruct (Rle_dec (Particle.lifetime p - m) 0); reflexivity.
Qed.

Lemma updates_lifetime (mults : list R) (p : Particle.t) :
  Particle.lifetime (Particle.updates mults p) = Particle.lifetime p - Rsum mults.
Proof.
  revert p. induction mults as [| m rest IH]; intro p; simpl.
  - ring.
  - rewrite IH, update_lifetime. ring.
Qed.

Lemma updates_alpha (m : R) (mults : list R) (p : Particle.t) :
  Particle.alpha (Particle.updates (m :: mults) p)
  = Particle.fade (Particle.lifetime (Particle.updates (m :: mults) p)).
Proof.
  revert m p. induction mults as [| m' rest IH]; intros m p.
  - reflexivity.
  - change (Particle.updates (m :: m' :: rest) p)
      with (Particle.updates (m' :: rest) (Particle.update m p)).
    apply IH.
Qed.

Lemma updates_stay_dead (mults : list R) (p : Particle.t) :
  Particle.alive p = false -> Particle.alive (Particle.updates mults p) = false.
Proof.
  revert p. induction mults as [| m rest IH]; intros p D; simpl; [exact D |].
  apply IH. rewrite update_alive, D.
  destruct (Rle_dec (Particle.lifetime p - m) 0); reflexivity.
Qed.

Lemma updates_dead (mults : list R) (p : Particle.t) :
  mults <> [] ->
  Forall (fun m => 0 <= m) mults ->
  Particle.lifetime p <= Rsum mults ->
  Particle.alive (Particle.updates mults p) = false.
Proof.
  revert p. induction mults as [| m rest IH]; intros p NE F L; [contradiction |].
  inversion F as [| m0 r0 Hm Hrest]; subst. simpl in *.
  destruct rest as [| m' rest'].
  - simpl in *. rewrite update_alive.
    destruct (Rle_dec (Particle.lifetime p - m) 0); [reflexivity | lra].
  - apply IH; [discriminate | exact Hrest |].
    rewrite update_lifetime. simpl in *. lra.
Qed.

Lemma updates_alive (mults : list R) (p : Particle.t) :
  Forall (fun m => 0 <= m) mults ->
  Rsum mults < Particle.lifetime p ->
  Particle.alive (Particle.updates mults p) = Particle.alive p.
Proof.
  revert p. induction mults as [| m rest IH]; intros p F L; [reflexivity |].
  inversion F as [| m0 r0 Hm Hrest]; subst. simpl in *.
  assert (S : 0 <= Rsum rest).
  { clear -Hrest. induction Hrest; simpl; lra. }
  rewrite IH; [| exact Hrest | rewrite update_lifetime; lra].
  rewrite update_alive.
  destruct (Rle_dec (Particle.lifetime p - m) 0); [lra | reflexivity].
Qed.

Lemma Rsum_nonneg (mults : list R) : Forall (fun m => 0 <= m) mults -> 0 <= Rsum mults.
Proof. intro F. induction F; simpl; lra. Qed.

Lemma Rsum_at_least_length (mults : list R) :
  Forall (fun m => 1 <= m) mults -> INR (length mults) <= Rsum mults.
Proof.
  intro F. induction F as [| m rest Hm _ IH].
  - simpl. lra.
  - change (length (m :: rest)) with (S (length rest)). rewrite S_INR. simpl. lra.
Qed.

Lemma Rsum_repeat (c : R) (n : nat) : Rsum (repeat c n) = INR n * c.
Proof.
  induction n as [| n IH].
  - simpl. ring.
  - change (repeat c (S n)) with (c :: repeat c n). rewrite S_INR. simpl.
    rewrite IH. ring.
Qed.

Lemma alphas_head (mults : list R) (p : Particle.t) :
  exists rest, Particle.alphas mults p = Particle.alpha p :: rest.
Proof. destruct mults; simpl; eexists; reflexivity. Qed.

Lemma alphas_sorted (mults : list R) (p : Particle.t) :
  (Particle.fade (Particle.lifetime p) <= Particle.alpha p)%Z ->
  Forall (fun m => 0 <= m) mults ->
  Sorted Z.ge (Particle.alphas mults p).
Proof.
  revert p. induction mults as [| m rest IH]; intros p I F.
  - simpl. constructor; constructor.
  - inversion F as [| m0 r0 Hm Hrest]; subst.
    change (Particle.alphas (m :: rest) p)
      with (Particle.alpha p :: Particle.alphas rest (Particle.update m p)).
    assert (I' : (Particle.fade (Particle.lifetime (Particle.update m p))
                  <= Particle.alpha (Particle.update m p))%Z)
      by (rewrite update_alpha; lia).
    constructor; [apply IH; assumption |].
    destruct (alphas_head rest (Particle.update m p)) as [t ->].
    constructor. rewrite update_alpha, update_lifetime.
    assert (Particle.fade (Particle.lifetime p - m)
            <= Particle.fade (Particle.lifetime p))%Z by (apply fade_mono; lra).
    lia.
Qed.

(** ** Construction of a particle *)

Lemma new_Surface_square (radius : R) :
  0 <= radius ->
  new_Surface (radius * 2) (radius * 2) = Ok (mkSurface (radius * 2) (radius * 2)).
Proof.
  intro H. unfold new_Surface.
  destruct (Rlt_dec (radius * 2) 0) as [C | _]; [lra | reflexivity].
Qed.

Lemma Sprite_init_square (center : Point) (radius : R) :
  Sprite.init center (mkSurface (radius * 2) (radius * 2))
  = Ok (Sprite.mk (Circle.mk center radius) true).
Proof.
  unfold Sprite.init. simpl.
  destruct (Req_dec_T (radius * 2) (radius * 2)) as [_ | N]; [| contradiction N; reflexivity].
  replace (radius * 2 / 2) with radius by field. reflexivity.
Qed.

Lemma particle_init_ok (center : Point) (cr cg cb : Z) (radius : R)
    (velocity gravity : option Vector2) (lifetime : option R) (s : Random.state) :
  channel_ok cr = true -> channel_ok cg = true -> channel_ok cb = true ->
  0 <= radius ->
  Particle.init center [cr; cg; cb] radius velocity gravity lifetime s
  = Ok (Particle.mk (Sprite.mk (Circle.mk center radius) true)
          (fst (initial_velocity velocity s))
          (initial_gravity gravity)
          (initial_lifetime lifetime)
          (mkColor cr cg cb 255),
        snd (initial_velocity velocity s)).
Proof.
  intros Hr Hg Hb Hrad.
  assert (E : forall (vel : Vector2) (s1 : Random.state),
             (col <- lift (new_Color [cr; cg; cb]) ;;
              let col := set_alpha col 255 in
              image <- lift (new_Surface (radius * 2) (radius * 2)) ;;
              sp <- lift (Sprite.init center image) ;;
              ret (Particle.mk sp vel (initial_gravity gravity)
                     (initial_lifetime lifetime) col))%m s1
             = Ok (Particle.mk (Sprite.mk (Circle.mk center radius) true) vel
                     (initial_gravity gravity) (initial_lifetime lifetime)
                     (mkColor cr cg cb 255), s1)).
  { intros vel s1. unfold bind, lift, ret, new_Color.
    rewrite Hr, Hg, Hb. cbn [andb].
    rewrite (new_Surface_square radius Hrad), Sprite_init_square. reflexivity. }
  unfold Particle.init, initial_velocity.
  fold (initial_gravity gravity). fold (initial_lifetime lifetime).
  destruct velocity as [v |].
  - destruct (Vector2.nonzero v).
    + unfold bind at 1. unfold ret at 1. apply E.
    + unfold bind at 1. unfold Particle.random_velocity, bind at 1, draw, ret at 1,
        Random.random. apply E.
  - unfold bind at 1. unfold Particle.random_velocity, bind at 1, draw, ret at 1,
      Random.random. apply E.
Qed.

(** A constructed particle is opaque and alive, and keeps the colour it
    was given. *)
Lemma particle_init_fresh (center : Point) (color : list Z) (radius : R)
    (velocity gravity : option Vector2) (lifetime : option R)
    (s s' : Random.state) (p : Particle.t) :
  Particle.init center color radius velocity gravity lifetime s = Ok (p, s') ->
  Particle.alpha p = 255%Z /\ Particle.alive p = true /\
  Particle.lifetime p = initial_lifetime lifetime /\
  Particle.circle p = Circle.mk center radius.
Proof.
  unfold Particle.init. fold (initial_lifetime lifetime).
  unfold bind at 1.
  destruct (match velocity with
            | Some v => if Vector2.nonzero v then ret v else Particle.random_velocity
            | None => Particle.random_velocity
            end s) as [[vel s1] | e]; [| discriminate].
  unfold bind, lift, ret.
  destruct (new_Color color) as [col | e]; [| discriminate].
  unfold new_Surface.
  destruct (Rlt_dec (radius * 2) 0); [discriminate |].
  unfold Sprite.init. simpl.
  destruct (Req_dec_T (radius * 2) (radius * 2)); [| discriminate].
  intro E. injection E as <- <-. unfold Particle.alpha, Particle.alive, Particle.circle.
  simpl. repeat split. f_equal. field.
Qed.

(** A constructed particle starts at least as opaque as its lifetime
    asks, and every update keeps it so. *)
Lemma fresh_particle_alpha (center : Point) (color : list Z) (radius : R)
    (velocity gravity : option Vector2) (lifetime : option R)
    (s s' : Random.state) (p : Particle.t) :
  Particle.init center color radius velocity gravity lifetime s = Ok (p, s') ->
  (Particle.fade (Particle.lifetime p) <= Particle.alpha p)%Z.
Proof.
  intro E. destruct (particle_init_fresh _ _ _ _ _ _ _ _ _ E) as [A _].
  rewrite A. apply fade_range.
Qed.

Lemma updated_particle_alpha (m : R) (p : Particle.t) :
  (Particle.fade (Particle.lifetime (Particle.update m p))
   <= Particle.alpha (Particle.update m p))%Z.
Proof. rewrite update_alpha. lia. Qed.

(** ** The alpha of a particle *)


Lemma truthy_nonzero (v : R) : v <> 0 -> truthy v = true.
Proof.
  intro N. unfold truthy. destruct (Req_dec_T v 0); [contradiction | reflexivity].
Qed.


(** C9, as the code has it: the alpha never increases from tick to tick,
    and a particle whose ticks all run at a speed multiplier of 1 or more is
    dead with alpha 0 after as many ticks as its lifetime.  The multiplier
    is what each tick takes off the lifetime; below 1 the bound fails, as
    the half-speed run further down shows. *)
Theorem particle_fades_and_dies (p : Particle.t) (mults : list R) :
  (Particle.fade (Particle.lifetime p) <= Particle.alpha p)%Z ->
  Forall (fun m => 0 <= m) mults ->
  Sorted Z.ge (Particle.alphas mults p) /\
  (mults <> [] -> Forall (fun m => 1 <= m) mults ->
   Particle.lifetime p <= INR (length mults) ->
   Particle.alpha (Particle.updates mults p) = 0%Z /\
   Particle.alive (Particle.updates mults p) = false).
Proof.
  intros I F.
  assert (D : mults <> [] -> Particle.lifetime p <= Rsum mults ->
              Particle.alpha (Particle.updates mults p) = 0%Z /\
              Particle.alive (Particle.updates mults p) = false).
  { intros NE L. split.
    - destruct mults as [| m rest]; [contradiction |].
      rewrite updates_alpha. apply fade_dead. rewrite updates_lifetime. lra.
    - apply updates_dead; assumption. }
  split; [apply alphas_sorted; assumption |].
  intros NE F1 L. apply D; [exact NE |].
  pose proof (Rsum_at_least_length mults F1). lra.
Qed.

Lemma particle_fades_and_dies_witness :
  Sorted Z.ge (Particle.alphas [1; 1] short_lived)
  /\ Particle.alpha (Particle.updates [1; 1] short_lived) = 0%Z
  /\ Particle.alive (Particle.updates [1; 1] short_lived) = false.
Proof.
  destruct (particle_fades_and_dies short_lived [1; 1]) as [S D].
  - exact (proj2 (fade_range (Particle.lifetime short_lived))).
  - repeat constructor; lra.
  - split; [exact S |]. apply D.
    + discriminate.
    + repeat constructor; lra.
    + simpl. lra.
Defined.

(** C9 as stated fails: with the simulation slowed to half speed by the
    mouse wheel, a particle of lifetime 40 is alive and at least half opaque
    at every tick up to the 40th. *)
Lemma particle_outlives_lifetime_when_slowed :
  exists p,
    Particle.init (Vector2.mk 0 0) [235; 113; 20]%Z 3
      (Some (Vector2.mk 0 (-1))) None None still_source
    = Ok (p, still_source) /\
    Particle.lifetime p = 40 /\
    wheel 1 (-5) = 1 / 2 /\
    forall n, (n <= 40)%nat ->
      length (repeat (1 / 2) n) = n /\
      (127 <= Particle.alpha (Particle.updates (repeat (1 / 2)%R n) p))%Z /\
      Particle.alive (Particle.updates (repeat (1 / 2) n) p) = true.
Proof.
  assert (NZ : Vector2.nonzero (Vector2.mk 0 (-1)) = true).
  { unfold Vector2.nonzero. simpl. rewrite (truthy_nonzero (-1)) by lra.
    apply orb_true_r. }
  assert (F : forall n, Forall (fun m => 0 <= m) (repeat (1 / 2) n)).
  { intro n. apply Forall_forall. intros m Hm. apply repeat_spec in Hm. lra. }
  assert (H127 : Particle.fade 20 = 127%Z).
  { apply fade_value; [lia |]. unfold PARTICLE_LIFETIME. simpl. lra. }
  eexists. split.
  - rewrite particle_init_ok; try reflexivity; [| lra].
    unfold initial_velocity, initial_lifetime. rewrite NZ. reflexivity.
  - cbn [Particle.lifetime]. split; [reflexivity |]. split.
    { unfold wheel, py_min, py_max. simpl.
      destruct (Rlt_dec (1 + 1 / 10 * -5) (1 / 10)); [lra |].
      destruct (Rlt_dec 3 (1 + 1 / 10 * -5)); lra. }
    intros n Hn.
    assert (B : INR n <= 40).
    { apply le_INR in Hn. rewrite (INR_IZR_INZ 40) in Hn. simpl in Hn. exact Hn. }
    pose proof (pos_INR n) as B0.
    split; [apply repeat_length |]. split.
    + destruct n as [| k];
        [cbn [repeat Particle.updates Particle.alpha Particle.color a]; clear; lia |].
      change (repeat (1 / 2) (S k)) with (1 / 2 :: repeat (1 / 2) k) at 1.
      rewrite updates_alpha.
      change (1 / 2 :: repeat (1 / 2) k) with (repeat (1 / 2) (S k)).
      rewrite updates_lifetime, Rsum_repeat. cbn [Particle.lifetime].
      rewrite <- H127. apply fade_mono. unfold PARTICLE_LIFETIME. lra.
    + rewrite updates_alive; [reflexivity | apply F |].
      rewrite Rsum_repeat. cbn [Particle.lifetime]. unfold PARTICLE_LIFETIME. lra.
Qed.

(** ** Construction of an arc *)

Lemma truthy_zero : truthy 0 = false.
Proof.
  unfold truthy. destruct (Req_dec_T 0 0) as [_ | N]; [reflexivity |].
  contradiction N. reflexivity.
Qed.

Lemma new_Color_of_valid (c : list Z) :
  valid_color c ->
  exists cl, new_Color c = Ok cl /\ [r cl; g cl; b cl] = c.
Proof.
  intros [cr [cg [cb [-> [Hr [Hg Hb]]]]]].
  exists (mkColor cr cg cb 255). unfold new_Color. rewrite Hr, Hg, Hb.
  split; reflexivity.
Qed.

Lemma valid_color_wedge : valid_color [200; 50; 30]%Z.
Proof. exists 200%Z, 50%Z, 30%Z. repeat split. Qed.

(** C10: an angle of 0.0 or a speed of 0 passed to the constructor is
    dropped like an omitted one: the two calls are the same computation.
    With a radius that is not negative and a colour pygame accepts the
    constructor returns, and the arc stores an angle, or a speed, drawn from
    the generator during the call. *)
Theorem arc_init_zero_is_omitted (center : Point) (radius : R)
    (color : option (list Z)) (angle speed : option R) (s : Random.state) :
  Arc.init center radius color (Some 0) speed s
  = Arc.init center radius color None speed s
  /\ Arc.init center radius color angle (Some 0) s
     = Arc.init center radius color angle None s
  /\ (0 <= radius -> color_arg_ok color ->
      exists arc s' k,
        Arc.init center radius color (Some 0) speed s = Ok (arc, s')
        /\ (Random.pos s <= k < Random.pos s')%nat
        /\ Arc.angle arc = drawn_angle s k)
  /\ (0 <= radius -> color_arg_ok color ->
      exists arc s' k,
        Arc.init center radius color angle (Some 0) s = Ok (arc, s')
        /\ (Random.pos s <= k /\ k + 1 < Random.pos s')%nat
        /\ Arc.speed arc = drawn_speed s k).
Proof.
  split; [| split; [| split]].
  - unfold Arc.init. rewrite truthy_zero. reflexivity.
  - unfold Arc.init. rewrite truthy_zero. reflexivity.
  - intros Hrad Hcol. unfold Arc.init. rewrite truthy_zero.
    unfold bind, lift, ret, draw, Arc.random_color, Arc.random_speed,
      Arc.random_angle, bind, draw, ret, Random.random, Random.randint,
      Random.choice_sign, new_Surface, Sprite.init.
    destruct color as [[| c cs] |]; destruct speed as [v |];
      try destruct (truthy v);
      try (destruct (new_Color_of_valid _ Hcol) as [cl [E _]]; rewrite E);
      (destruct (Rlt_dec (radius * 2) 0); [lra |]);
      cbn [width height];
      (destruct (Req_dec_T (radius * 2) (radius * 2)); [| contradiction]);
      do 3 eexists; (split; [reflexivity |]);
      cbn [Arc.angle Random.advance Random.pos Random.draws Random.peek];
      unfold drawn_angle, Random.peek; cbn [Random.pos Random.draws];
      (split; [| reflexivity]); lia.
  - intros Hrad Hcol. unfold Arc.init. rewrite truthy_zero.
    unfold bind, lift, ret, draw, Arc.random_color, Arc.random_speed,
      Arc.random_angle, bind, draw, ret, Random.random, Random.randint,
      Random.choice_sign, new_Surface, Sprite.init.
    destruct color as [[| c cs] |]; destruct angle as [v |];
      try destruct (truthy v);
      try (destruct (new_Color_of_valid _ Hcol) as [cl [E _]]; rewrite E);
      (destruct (Rlt_dec (radius * 2) 0); [lra |]);
      cbn [width height];
      (destruct (Req_dec_T (radius * 2) (radius * 2)); [| contradiction]);
      do 3 eexists; (split; [reflexivity |]);
      cbn [Arc.speed Random.advance Random.pos Random.draws Random.peek];
      unfold drawn_speed, Random.peek; cbn [Random.pos Random.draws];
      (split; [| reflexivity]); lia.
Qed.

Lemma arc_init_zero_is_omitted_witness :
  (exists arc s' k,
     Arc.init (Vector2.mk 0 0) 10 (Some [200; 50; 30]%Z) (Some 0) (Some 0)
       still_source = Ok (arc, s')
     /\ (Random.pos still_source <= k < Random.pos s')%nat
     /\ Arc.angle arc = drawn_angle still_source k)
  /\ (exists arc s' k,
        Arc.init (Vector2.mk 0 0) 10 (Some [200; 50; 30]%Z) (Some 0) (Some 0)
          still_source = Ok (arc, s')
        /\ (Random.pos still_source <= k /\ k + 1 < Random.pos s')%nat
        /\ Arc.speed arc = drawn_speed still_source k).
Proof.
  destruct (arc_init_zero_is_omitted (Vector2.mk 0 0) 10
              (Some [200; 50; 30]%Z) (Some 0) (Some 0) still_source)
    as [_ [_ [A V]]].
  split; [apply A | apply V]; try lra; exact valid_color_wedge.
Defined.

(** ** Fracture: [break_arc] *)

Lemma advance_advance (n m : nat) (s : Random.state) :
  Random.advance m (Random.advance n s) = Random.advance (n + m) s.
Proof. unfold Random.advance. simpl. f_equal. lia. Qed.

Lemma unit_draws_advance (n : nat) (s : Random.state) :
  Random.unit_draws s -> Random.unit_draws (Random.advance n s).
Proof. intros U k. apply U. Qed.

Lemma unit_draws_peek (s : Random.state) :
  Random.unit_draws s -> 0 <= Random.peek s < 1.
Proof. intro U. apply U. Qed.

Lemma randint_range (lo hi : Z) (s : Random.state) :
  (lo <= hi)%Z -> 0 <= Random.peek s < 1 ->
  (lo <= fst (Random.randint lo hi s) <= hi)%Z.
Proof.
  intros H [L U]. unfold Random.randint. simpl.
  set (w := IZR (hi - lo + 1)).
  assert (W : 1 <= w) by (unfold w; apply IZR_le; lia).
  assert (B0 : 0 <= Random.peek s * w) by (apply Rmult_le_pos; lra).
  assert (B1 : Random.peek s * w < w).
  { rewrite <- (Rmult_1_l w) at 2. apply Rmult_lt_compat_r; lra. }
  pose proof (Int_part_bounds (Random.peek s * w)) as [I0 I1].
  assert (Z0 : (0 <= Int_part (Random.peek s * w))%Z).
  { assert (T : IZR (-1) < IZR (Int_part (Random.peek s * w))) by (simpl; lra).
    apply lt_IZR in T. lia. }
  assert (Z1 : (Int_part (Random.peek s * w) < hi - lo + 1)%Z).
  { apply lt_IZR. fold w. lra. }
  lia.
Qed.

Lemma arc_delta_range : 0 < ARC_DELTA < 2 * PI.
Proof. unfold ARC_DELTA. pose proof PI_RGT_0. lra. Qed.

(** A point at polar coordinates [(rad, -theta)] around a centre is at
    distance [rad] from it. *)
Lemma polar_distance (c : Point) (rad theta : R) :
  0 <= rad ->
  Circle.center_distance
    (Circle.mk (Vector2.add c (Vector2.rotate_rad (Vector2.mk rad 0) (- theta))) 1)
    (Circle.mk c 0)
  = rad.
Proof.
  intro H. unfold Circle.center_distance. simpl.
  pose proof (sin2_cos2 (- theta)) as T. unfold Rsqr in T.
  set (cs := cos (- theta)) in *. set (sn := sin (- theta)) in *.
  apply sqrt_lem_1; [nra | exact H |].
  replace ((Vector2.x c + (cs * rad - sn * 0) - Vector2.x c)
           * (Vector2.x c + (cs * rad - sn * 0) - Vector2.x c)
           + (Vector2.y c + (sn * rad + cs * 0) - Vector2.y c)
             * (Vector2.y c + (sn * rad + cs * 0) - Vector2.y c))
    with (rad * rad * (sn * sn + cs * cs)) by ring.
  rewrite T. ring.
Qed.

Lemma spawn_particle_ok (arc : Arc.t) (center : Vector2) (s : Random.state) :
  Random.unit_draws s ->
  valid_color (Arc.color arc) ->
  exists theta p,
    random_angle_with_cut (Arc.angle arc - ARC_DELTA) ARC_DELTA s
    = Ok (theta, Random.advance 1 s)
    /\ spawn_particle arc center s = Ok (p, Random.advance 3 s)
    /\ 0 <= theta < 2 * PI
    /\ in_allowed theta (py_mod (Arc.angle arc - ARC_DELTA) (2 * PI)) ARC_DELTA
    /\ burst_particle_at arc center theta p.
Proof.
  intros U [cr [cg [cb [Ec [Hr [Hg Hb]]]]]].
  destruct (random_angle_with_cut_allowed (Arc.angle arc - ARC_DELTA) ARC_DELTA s
              arc_delta_range (unit_draws_peek s U)) as [theta [E [Ht Ha]]].
  pose proof (randint_range 1 3 (Random.advance 1 s) ltac:(lia)
                (unit_draws_peek _ (unit_draws_advance 1 s U))) as Hsize.
  set (size := fst (Random.randint 1 3 (Random.advance 1 s))) in *.
  assert (Hrad : 0 <= IZR size) by (apply IZR_le; lia).
  eexists theta, _. split; [exact E |]. split; [| split; [exact Ht | split; [exact Ha |]]].
  - unfold spawn_particle. unfold bind at 1. rewrite E.
    unfold bind at 1. unfold draw at 1.
    change (Random.randint 1 3 (Random.advance 1 s))
      with (size, Random.advance 1 (Random.advance 1 s)).
    rewrite Ec, (particle_init_ok _ cr cg cb (IZR size) None None None _ Hr Hg Hb Hrad).
    unfold initial_velocity. cbn [fst snd].
    rewrite !advance_advance. reflexivity.
  - unfold burst_particle_at, Particle.circle, Particle.alpha, Particle.alive.
    cbn. rewrite Ec. repeat split.
Qed.

Lemma break_arc_loop_ok (arc : Arc.t) (center : Vector2) (n : nat) :
  valid_color (Arc.color arc) ->
  forall (ps : list Particle.t) (s : Random.state),
    Random.unit_draws s ->
    exists new,
      break_arc_loop n arc ps center s = Ok (ps ++ new, Random.advance (3 * n) s)
      /\ length new = n
      /\ Forall (fun p => exists theta,
                   0 <= theta < 2 * PI
                   /\ in_allowed theta (py_mod (Arc.angle arc - ARC_DELTA) (2 * PI))
                        ARC_DELTA
                   /\ burst_particle_at arc center theta p) new
      /\ (forall p s1, spawn_particle arc center s = Ok (p, s1) ->
          (0 < n)%nat -> hd_error new = Some p).
Proof.
  intro V. induction n as [| n IH]; intros ps s U.
  - exists []. simpl. unfold ret. rewrite app_nil_r.
    replace (Random.advance 0 s) with s
      by (destruct s; unfold Random.advance; simpl; f_equal; lia).
    repeat split; [constructor | intros; lia].
  - destruct (spawn_particle_ok arc center s U V) as [theta [p [_ [E [Ht [Ha B]]]]]].
    destruct (IH (ps ++ [p]) (Random.advance 3 s) (unit_draws_advance 3 s U))
      as [new [E' [L [F _]]]].
    exists (p :: new). split; [| split; [| split]].
    + cbn [break_arc_loop]. unfold bind. rewrite E, E'.
      rewrite <- app_assoc, advance_advance. simpl app.
      do 3 f_equal. lia.
    + simpl. rewrite L. reflexivity.
    + constructor; [| exact F]. exists theta. split; [exact Ht |]. split; assumption.
    + intros p0 s1 E0 _. rewrite E in E0. injection E0 as <- _. reflexivity.
Qed.

Lemma polar_distance_circles (c1 c2 : Circle) (rad theta : R) :
  0 <= rad ->
  Circle.center c1
  = Vector2.add (Circle.center c2) (Vector2.rotate_rad (Vector2.mk rad 0) (- theta)) ->
  Circle.center_distance c1 c2 = rad.
Proof.
  intros H E.
  rewrite <- (polar_distance (Circle.center c2) rad theta H).
  unfold Circle.center_distance. rewrite E. reflexivity.
Qed.

Lemma still_source_unit : Random.unit_draws still_source.
Proof. intro k. simpl. lra. Qed.

Lemma closed_cut_in_cut (theta start length e : R) :
  0 < e ->
  in_closed_cut theta (start + e) (length - 2 * e) ->
  in_cut theta start length.
Proof.
  intros He [k Hk]. exists k. lra.
Qed.

(** C5, as the code has it: fracture kills the arc and adds exactly 200
    particles, each opaque and of the arc's colour, each at distance of the
    arc's radius from the arc's centre when [break_arc] is given that centre,
    and, for an arc whose angle is within [ANGLE_RANGE], none at an angle
    inside the wedge by more than the margin: none in
    [[angle - D + e, angle - e]].  Over the reals the sampling leaves out all
    of [[angle - D, angle)] at any angle; the floats of the code round at the
    two ends (the lemmas after this one), which the margin leaves out. *)
Theorem break_arc_burst (arc : Arc.t) (particles : list Particle.t)
    (center : Vector2) (s : Random.state) :
  Random.unit_draws s ->
  valid_color (Arc.color arc) ->
  0 <= Circle.radius (Arc.circle arc) ->
  center = Circle.center (Arc.circle arc) ->
  Rabs (Arc.angle arc) <= ANGLE_RANGE ->
  exists new,
    break_arc arc particles center s
    = Ok ((Arc.kill arc, particles ++ new), Random.advance 600 s)
    /\ Arc.alive (Arc.kill arc) = false
    /\ length new = 200%nat
    /\ Forall (fun p =>
         [r (Particle.color p); g (Particle.color p); b (Particle.color p)]
         = Arc.color arc
         /\ Particle.alpha p = 255%Z
         /\ Circle.center_distance (Particle.circle p) (Arc.circle arc)
            = Circle.radius (Arc.circle arc)
         /\ exists theta,
              0 <= theta < 2 * PI
              /\ Circle.center (Particle.circle p)
                 = Vector2.add center
                     (Vector2.rotate_rad
                        (Vector2.mk (Circle.radius (Arc.circle arc)) 0) (- theta))
              /\ ~ in_closed_cut theta (Arc.angle arc - ARC_DELTA + ANGLE_MARGIN)
                     (ARC_DELTA - 2 * ANGLE_MARGIN)) new.
Proof.
  intros U V Hrad Hc _.
  destruct (break_arc_loop_ok (Arc.kill arc) center PARTICLE_AMOUNT V particles s U)
    as [new [E [L [F _]]]].
  exists new. split; [| split; [reflexivity | split; [exact L |]]].
  - unfold break_arc, bind, ret. rewrite E. reflexivity.
  - eapply Forall_impl; [| exact F].
    intros p [theta [Ht [Ha [Bc [Bcol [Balpha _]]]]]].
    split; [exact Bcol |]. split; [exact Balpha |]. split.
    + apply polar_distance_circles with (theta := theta); [exact Hrad |].
      rewrite Bc, Hc. reflexivity.
    + exists theta. split; [exact Ht |]. split; [exact Bc |].
      intro C. apply closed_cut_in_cut in C; [| unfold ANGLE_MARGIN; lra].
      revert C.
      apply allowed_not_in_cut; [apply arc_delta_range | exact Ht | exact Ha].
Qed.

Lemma break_arc_burst_witness :
  exists new,
    break_arc (arc_at 0 0 100 1) [] (Vector2.mk 0 0) still_source
    = Ok ((Arc.kill (arc_at 0 0 100 1), [] ++ new), Random.advance 600 still_source)
    /\ Arc.alive (Arc.kill (arc_at 0 0 100 1)) = false
    /\ length new = 200%nat
    /\ Forall (fun p =>
         [r (Particle.color p); g (Particle.color p); b (Particle.color p)]
         = [200; 50; 30]%Z
         /\ Particle.alpha p = 255%Z
         /\ Circle.center_distance (Particle.circle p) (Arc.circle (arc_at 0 0 100 1))
            = 100
         /\ exists theta,
              0 <= theta < 2 * PI
              /\ Circle.center (Particle.circle p)
                 = Vector2.add (Vector2.mk 0 0)
                     (Vector2.rotate_rad (Vector2.mk 100 0) (- theta))
              /\ ~ in_closed_cut theta (1 - ARC_DELTA + ANGLE_MARGIN)
                     (ARC_DELTA - 2 * ANGLE_MARGIN)) new.
Proof.
  apply (break_arc_burst (arc_at 0 0 100 1) [] (Vector2.mk 0 0) still_source).
  - exact still_source_unit.
  - exact valid_color_wedge.
  - simpl. lra.
  - reflexivity.
  - unfold ANGLE_RANGE. cbn [Arc.angle arc_at]. rewrite Rabs_R1. lra.
Defined.

Lemma random_angle_at_wedge_end :
  random_angle_with_cut (PI / 6 - ARC_DELTA) ARC_DELTA still_source
  = Ok (PI / 6, Random.advance 1 still_source).
Proof.
  pose proof PI_RGT_0 as P. pose proof arc_delta_range as D.
  replace (PI / 6 - ARC_DELTA) with 0 by (unfold ARC_DELTA; ring).
  unfold random_angle_with_cut.
  destruct (Rle_dec ARC_DELTA 0) as [C | _]; [lra |].
  destruct (Rge_dec ARC_DELTA (2 * PI)) as [C | _]; [lra |].
  rewrite (py_mod_small 0) by lra.
  destruct (Rgt_dec (0 + ARC_DELTA) (2 * PI)) as [C | _]; [lra |].
  unfold bind, draw, ret, Random.uniform, Random.peek, still_source.
  cbn [Random.draws Random.pos].
  destruct (Rlt_dec (0 + (0 + (2 * PI - (0 + ARC_DELTA)) - 0) * 0) 0) as [C | _];
    [lra |].
  replace (0 + ARC_DELTA + (0 + (0 + (2 * PI - (0 + ARC_DELTA)) - 0) * 0 - 0))
    with (PI / 6) by (unfold ARC_DELTA; ring).
  rewrite py_mod_small by lra. reflexivity.
Qed.

(** The same call in binary64: every operation is exact, and the angle
    returned is the angle of the arc. *)
Lemma float_angle_at_wedge_end :
  Float64.random_angle_with_cut (ARC_DELTA_f - ARC_DELTA_f) ARC_DELTA_f 0
  = Ok ARC_DELTA_f.
Proof. vm_compute. reflexivity. Qed.

(** Rounding inside the wedge, in binary64: for an arc at angle
    0.14366857106988024 and a draw of 0 the angle returned is
    0.14366857106988018, one step of the floats below the angle of the arc. *)
Lemma float_angle_below_wedge_end :
  let angle := 0x1.263bb531aa5e2p-3%float in
  let theta := 0x1.263bb531aa5e0p-3%float in
  Float64.random_angle_with_cut (angle - ARC_DELTA_f) ARC_DELTA_f 0 = Ok theta
  /\ Float64.within theta (angle - ARC_DELTA_f) angle = true.
Proof. vm_compute. split; reflexivity. Qed.

(** C5 as stated fails at the closed end of the wedge: for an arc at angle
    pi / 6 and a first draw of 0, the first particle of the burst sits at
    the angle of the arc itself.  The wedge of this arc starts at 0, the
    sampling takes the branch without wrap, and the draw 0 is mapped to the
    end of the cut, which is the angle of the arc. *)
Lemma break_arc_particle_at_wedge_end :
  let arc := arc_at 0 0 100 (PI / 6) in
  exists new p,
    break_arc arc [] (Vector2.mk 0 0) still_source
    = Ok ((Arc.kill arc, new), Random.advance 600 still_source)
    /\ hd_error new = Some p
    /\ Circle.center (Particle.circle p)
       = Vector2.add (Circle.center (Arc.circle arc))
           (Vector2.rotate_rad (Vector2.mk (Circle.radius (Arc.circle arc)) 0)
              (- (PI / 6)))
    /\ Arc.angle arc - ARC_DELTA <= PI / 6 <= Arc.angle arc
    /\ in_closed_cut (PI / 6) (Arc.angle arc - ARC_DELTA) ARC_DELTA.
Proof.
  intro arc. pose proof arc_delta_range as D.
  destruct (break_arc_loop_ok (Arc.kill arc) (Vector2.mk 0 0) PARTICLE_AMOUNT
              valid_color_wedge [] still_source still_source_unit)
    as [new [E [_ [_ H]]]].
  destruct (spawn_particle_ok (Arc.kill arc) (Vector2.mk 0 0) still_source
              still_source_unit valid_color_wedge)
    as [theta [p [Et [Es [_ [_ [Bc _]]]]]]].
  assert (T : theta = PI / 6).
  { change (Arc.angle (Arc.kill arc)) with (PI / 6) in Et.
    rewrite random_angle_at_wedge_end in Et. injection Et as ->. reflexivity. }
  subst theta.
  exists new, p. split; [| split; [| split; [| split]]].
  - unfold break_arc, bind, ret. rewrite E. reflexivity.
  - apply (H p _ Es). unfold PARTICLE_AMOUNT. lia.
  - exact Bc.
  - simpl. lra.
  - exists 0%Z. simpl. lra.
Qed.

(** ** The collision check of the main loop *)

Lemma arcs_of_map (arcs : list Arc.t) : arcs_of (map RArc arcs) = arcs.
Proof. induction arcs as [| arc rest IH]; simpl; [| rewrite IH]; reflexivity. Qed.

Lemma last_map_RArc (arcs : list Arc.t) (arc : Arc.t) :
  arcs <> [] -> last (RBall :: map RArc arcs) RBall = RArc (last arcs arc).
Proof.
  induction arcs as [| a0 rest IH]; intro NE; [contradiction |].
  destruct rest as [| a1 rest'].
  - reflexivity.
  - change (last (RBall :: map RArc (a0 :: a1 :: rest')) RBall)
      with (last (RBall :: map RArc (a1 :: rest')) RBall).
    rewrite IH by discriminate. reflexivity.
Qed.

Lemma removelast_map_RArc (arcs : list Arc.t) :
  removelast (map RArc arcs) = map RArc (removelast arcs).
Proof.
  induction arcs as [| x l IH]; [reflexivity |].
  destruct l as [| y l']; [reflexivity |].
  change (removelast (map RArc (x :: y :: l')))
    with (RArc x :: removelast (map RArc (y :: l'))).
  rewrite IH. reflexivity.
Qed.

Lemma removelast_ball_arcs (arcs : list Arc.t) :
  arcs <> [] ->
  removelast (RBall :: map RArc arcs) = RBall :: map RArc (removelast arcs).
Proof.
  intro NE. destruct arcs as [| x l]; [contradiction |].
  change (removelast (RBall :: map RArc (x :: l)))
    with (RBall :: removelast (map RArc (x :: l))).
  rewrite removelast_map_RArc. reflexivity.
Qed.

Lemma break_arc_kills (arc arc' : Arc.t) (ps ps' : list Particle.t)
    (center : Vector2) (s s' : Random.state) :
  break_arc arc ps center s = Ok ((arc', ps'), s') -> arc' = Arc.kill arc.
Proof.
  unfold break_arc, bind, ret.
  destruct (break_arc_loop PARTICLE_AMOUNT (Arc.kill arc) ps center s)
    as [[l s1] | e]; [| discriminate].
  intro E. injection E as <- _ _. reflexivity.
Qed.

(** What the guarded block leaves in the group: every slot but the last
    as it was, and in the last slot the arc, killed or not. *)
Lemma resolve_sprites (collide_mask : Arc.t -> Ball.t -> bool) (arc : Arc.t)
    (st st' : Sim) (s s' : Random.state) :
  resolve collide_mask arc st s = Ok (st', s') ->
  exists arc',
    all_sprites st' = removelast (all_sprites st) ++ [RArc arc']
    /\ (arc' = arc \/ arc' = Arc.kill arc).
Proof.
  unfold resolve. unfold bind at 1. unfold lift at 1.
  destruct (Arc.collide_ball collide_mask arc (ball st)) as [[hit ball1] | e];
    [| discriminate].
  destruct hit.
  - unfold bind at 1.
    destruct (destroy_on_collide st).
    + destruct (break_arc arc (particles st) (center st) s) as [[[arc1 ps1] s1] | e] eqn:B;
        [| discriminate].
      apply break_arc_kills in B. unfold bind.
      destruct (Ball.reflect ball1 (Arc.circle arc1) s1) as [[ball2 s2] | e];
        [| discriminate].
      unfold ret. intro E. injection E as <- _.
      exists arc1. split; [reflexivity | right; exact B].
    + unfold ret at 1. unfold bind.
      destruct (Ball.reflect ball1 (Arc.circle arc) s) as [[ball2 s2] | e];
        [| discriminate].
      unfold ret. intro E. injection E as <- _.
      exists arc. split; [reflexivity | left; reflexivity].
  - unfold bind.
    destruct (break_arc arc (particles st) (center st) s) as [[[arc1 ps1] s1] | e] eqn:B;
      [| discriminate].
    apply break_arc_kills in B.
    unfold ret. intro E. injection E as <- _.
    exists arc1. split; [reflexivity | right; exact B].
Qed.

(** The guarded block asks the mask test about its arc only. *)
Lemma resolve_mask (mask1 mask2 : Arc.t -> Ball.t -> bool) (arc : Arc.t)
    (st : Sim) (s : Random.state) :
  (forall ball, mask1 arc ball = mask2 arc ball) ->
  resolve mask1 arc st s = resolve mask2 arc st s.
Proof.
  intro H. unfold resolve, Arc.collide_ball, bind, lift, rbind.
  destruct (Vector2.normalize (Ball.velocity (ball st))) as [dir | e];
    [| reflexivity].
  rewrite H. reflexivity.
Qed.

(** C2, as the code has it: with the ball in the first slot of the group
    and the arcs behind it, the check fires exactly when at least one arc
    remains and the ball's circle is not contained in the circle of the last
    arc; the block then runs on that arc alone. *)
Theorem collision_check_targets_last_arc
    (collide_mask : Arc.t -> Ball.t -> bool) (st : Sim) (arcs : list Arc.t)
    (s : Random.state) :
  all_sprites st = RBall :: map RArc arcs ->
  (check_fires st = true
   <-> (1 <= length arcs)%nat
       /\ forall arc, Circle.contains (Arc.circle (last arcs arc))
                        (Ball.circle (ball st)) = false)
  /\ (check_fires st = false -> collision_phase collide_mask st s = Ok (st, s))
  /\ (check_fires st = true ->
      forall arc,
        collision_phase collide_mask st s = resolve collide_mask (last arcs arc) st s
        /\ (forall mask2,
              (forall ball, collide_mask (last arcs arc) ball
                            = mask2 (last arcs arc) ball) ->
              collision_phase mask2 st s = collision_phase collide_mask st s)
        /\ (forall st' s',
              collision_phase collide_mask st s = Ok (st', s') ->
              exists arc',
                all_sprites st' = RBall :: map RArc (removelast arcs ++ [arc'])
                /\ (arc' = last arcs arc \/ arc' = Arc.kill (last arcs arc)))).
Proof.
  intro W.
  assert (G : check_fires st = true
              <-> (1 <= length arcs)%nat
                  /\ forall arc, Circle.contains (Arc.circle (last arcs arc))
                                   (Ball.circle (ball st)) = false).
  { unfold check_fires. rewrite W. cbn [length]. rewrite length_map.
    destruct arcs as [| a0 rest].
    - simpl. split; [discriminate | intros [H _]; lia].
    - assert (NE : a0 :: rest <> []) by discriminate.
      rewrite (last_map_RArc _ a0 NE). cbn [ref_circle].
      replace (1 <? S (length (a0 :: rest)))%nat with true
        by (symmetry; apply Nat.ltb_lt; simpl; lia).
      rewrite andb_true_l, negb_true_iff. split.
      + intro H. split; [simpl; lia |]. intro arc.
        rewrite <- H. f_equal. f_equal. revert NE. clear.
        generalize (a0 :: rest). intros l NE.
        induction l as [| x l' IH]; [contradiction |].
        destruct l' as [| y l'']; [reflexivity |].
        change (last (x :: y :: l'') arc) with (last (y :: l'') arc).
        change (last (x :: y :: l'') a0) with (last (y :: l'') a0).
        apply IH. discriminate.
      + intros [_ H]. apply H. }
  split; [exact G |]. split.
  - intro F. unfold collision_phase. rewrite F. reflexivity.
  - intros F arc.
    assert (NE : arcs <> []).
    { apply G in F. destruct F as [L _]. destruct arcs; [simpl in L; lia | discriminate]. }
    assert (P : forall mask, collision_phase mask st s = resolve mask (last arcs arc) st s).
    { intro mask. unfold collision_phase. rewrite F, W.
      rewrite (last_map_RArc _ arc NE). reflexivity. }
    split; [apply P |]. split.
    + intros mask2 H. rewrite !P. symmetry. apply resolve_mask. exact H.
    + intros st' s' E. rewrite P in E.
      destruct (resolve_sprites _ _ _ _ _ _ E) as [arc' [Es Ha]].
      exists arc'. split; [| exact Ha].
      rewrite Es, W, (removelast_ball_arcs _ NE), map_app. reflexivity.
Qed.

Lemma one_arc_state_fires : check_fires one_arc_state = true.
Proof.
  unfold check_fires, one_arc_state, Circle.contains. simpl.
  assert (E : sqrt ((10 - 0) * (10 - 0) + (0 - 0) * (0 - 0)) = 10)
    by (apply sqrt_lem_1; lra).
  rewrite E. destruct (Rle_dec (10 + 2) 10) as [C | _]; [lra | reflexivity].
Qed.

Lemma collision_check_targets_last_arc_witness :
  check_fires two_arc_state = true
  /\ collision_phase (fun _ _ => true) two_arc_state still_source
     = resolve (fun _ _ => true) (arc_at 0 0 10 1) two_arc_state still_source
  /\ (forall st' s',
        collision_phase (fun _ _ => true) two_arc_state still_source
        = Ok (st', s') ->
        exists arc',
          all_sprites st' = [RBall; RArc (arc_at 0 0 50 1); RArc arc']
          /\ (arc' = arc_at 0 0 10 1 \/ arc' = Arc.kill (arc_at 0 0 10 1))).
Proof.
  destruct (collision_check_targets_last_arc (fun _ _ => true) two_arc_state
              [arc_at 0 0 50 1; arc_at 0 0 10 1] still_source)
    as [G [_ H]].
  - reflexivity.
  - assert (F : check_fires two_arc_state = true).
    { apply G. split; [simpl; lia |]. intro arc.
      unfold two_arc_state, Circle.contains. simpl.
      assert (E : sqrt ((10 - 0) * (10 - 0) + (0 - 0) * (0 - 0)) = 10)
        by (apply sqrt_lem_1; lra).
      rewrite E. destruct (Rle_dec (10 + 2) 10) as [C | _]; [lra | reflexivity]. }
    destruct (H F (arc_at 0 0 10 1)) as [P [_ K]].
    split; [exact F |]. split; [exact P |]. exact K.
Defined.

(** C2 as stated fails: the check fires on the last arc left, when no
    more than one arc remains. *)
Lemma collision_check_fires_with_one_arc :
  all_sprites one_arc_state = RBall :: map RArc [arc_at 0 0 10 1]
  /\ arcs_of (all_sprites one_arc_state) = [arc_at 0 0 10 1]
  /\ check_fires one_arc_state = true
  /\ ~ (1 < length (arcs_of (all_sprites one_arc_state)))%nat
  /\ collision_phase (fun _ _ => true) one_arc_state still_source
     = resolve (fun _ _ => true) (arc_at 0 0 10 1) one_arc_state still_source.
Proof.
  split; [reflexivity |]. split; [reflexivity |].
  split; [exact one_arc_state_fires |]. split.
  - simpl. lia.
  - unfold collision_phase. rewrite one_arc_state_fires. reflexivity.
Qed.

(** ** A small logic for the computations of the module *)

Lemma unit_draws_same (s s' : Random.state) :
  Random.draws s' = Random.draws s -> Random.unit_draws s -> Random.unit_draws s'.
Proof. intros E U k. rewrite E. apply U. Qed.

Lemma returns_ret {A : Type} (v : A) (Q : A -> Prop) : Q v -> returns (ret v) Q.
Proof.
  intros H s w s' _ E. unfold ret in E. injection E as <- <-. split; [exact H | reflexivity].
Qed.

Lemma returns_bind {A B : Type} (m : M A) (f : A -> M B) (P : A -> Prop)
    (Q : B -> Prop) :
  returns m P -> (forall v, P v -> returns (f v) Q) -> returns (bind m f) Q.
Proof.
  intros Hm Hf s w s' U E. unfold bind in E.
  destruct (m s) as [[v s1] | e] eqn:Em; [| discriminate].
  destruct (Hm s v s1 U Em) as [Pv D1].
  destruct (Hf v Pv s1 w s' (unit_draws_same _ _ D1 U) E) as [Qw D2].
  split; [exact Qw | congruence].
Qed.

Lemma returns_weaken {A : Type} (m : M A) (P Q : A -> Prop) :
  returns m P -> (forall v, P v -> Q v) -> returns m Q.
Proof.
  intros Hm H s v s' U E. destruct (Hm s v s' U E) as [Pv D].
  split; [apply H; exact Pv | exact D].
Qed.

Lemma returns_lift {A : Type} (v : result A) (Q : A -> Prop) :
  (forall w, v = Ok w -> Q w) -> returns (lift v) Q.
Proof.
  intros H s w s' _ E. unfold lift in E. destruct v as [w0 | e]; [| discriminate].
  injection E as <- <-. split; [apply H; reflexivity | reflexivity].
Qed.

Lemma returns_random : returns (draw Random.random) (fun u => 0 <= u < 1).
Proof.
  intros s v s' U E. unfold draw, Random.random in E. injection E as <- <-.
  split; [apply U | reflexivity].
Qed.

Lemma returns_choice_sign : returns (draw Random.choice_sign) (fun _ => True).
Proof.
  intros s v s' U E. unfold draw, Random.choice_sign in E. injection E as <- <-.
  split; [exact I | reflexivity].
Qed.

Lemma returns_randint (lo hi : Z) :
  (lo <= hi)%Z -> returns (draw (Random.randint lo hi)) (fun z => (lo <= z <= hi)%Z).
Proof.
  intros H s v s' U E. unfold draw in E.
  pose proof (randint_range lo hi s H (unit_draws_peek s U)) as Rg.
  destruct (Random.randint lo hi s) as [z s1] eqn:Ez.
  injection E as <- <-. split; [exact Rg |].
  unfold Random.randint in Ez. injection Ez as _ <-. reflexivity.
Qed.

Lemma returns_mapM {A B : Type} (f : A -> M B) (Q : B -> Prop) (l : list A) :
  (forall v, returns (f v) Q) -> returns (mapM f l) (Forall Q).
Proof.
  intro H. induction l as [| v rest IH]; simpl.
  - apply returns_ret. constructor.
  - apply returns_bind with (P := Q); [apply H |]. intros w Qw.
    apply returns_bind with (P := Forall Q); [exact IH |]. intros ws Qws.
    apply returns_ret. constructor; assumption.
Qed.

Lemma returns_random_angle_with_cut (start length : R) :
  returns (random_angle_with_cut start length) (fun _ => True).
Proof.
  intros s v s' U E. split; [exact I |].
  unfold random_angle_with_cut in E.
  destruct (Rle_dec length 0); [discriminate |].
  destruct (Rge_dec length (2 * PI)); [discriminate |].
  destruct (Rgt_dec (py_mod start (2 * PI) + length) (2 * PI));
    unfold bind, draw, ret, Random.uniform in E; injection E as _ <-; reflexivity.
Qed.

(** ** The invariants of the main loop *)

Lemma new_Color_valid (c : list Z) (cl : Color) :
  new_Color c = Ok cl -> valid_color [r cl; g cl; b cl].
Proof.
  unfold new_Color.
  destruct c as [| cr [| cg [| cb [| ca [| x rest]]]]]; try discriminate.
  - destruct (channel_ok cr) eqn:Hr; [| discriminate].
    destruct (channel_ok cg) eqn:Hg; [| discriminate].
    destruct (channel_ok cb) eqn:Hb; [| discriminate].
    simpl. intro E. injection E as <-.
    exists cr, cg, cb. repeat split; assumption.
  - destruct (channel_ok cr) eqn:Hr; [| discriminate].
    destruct (channel_ok cg) eqn:Hg; [| discriminate].
    destruct (channel_ok cb) eqn:Hb; [| discriminate].
    destruct (channel_ok ca); [| discriminate].
    simpl. intro E. injection E as <-.
    exists cr, cg, cb. repeat split; assumption.
Qed.

Lemma returns_random_color : returns Arc.random_color valid_color.
Proof.
  assert (C : forall z, (50 <= z <= 255)%Z -> channel_ok z = true).
  { intros z H. unfold channel_ok. apply andb_true_intro.
    split; apply Z.leb_le; lia. }
  unfold Arc.random_color.
  apply returns_bind with (P := fun z => (50 <= z <= 255)%Z);
    [apply returns_randint; lia |]. intros c1 H1.
  apply returns_bind with (P := fun z => (50 <= z <= 255)%Z);
    [apply returns_randint; lia |]. intros c2 H2.
  apply returns_bind with (P := fun z => (50 <= z <= 255)%Z);
    [apply returns_randint; lia |]. intros c3 H3.
  apply returns_ret. exists c1, c2, c3. repeat split; apply C; assumption.
Qed.

Lemma returns_random_speed : returns Arc.random_speed (fun _ => True).
Proof.
  unfold Arc.random_speed.
  apply returns_bind with (P := fun _ => True); [apply returns_choice_sign |].
  intros sign _.
  apply returns_bind with (P := fun _ => True).
  - apply returns_weaken with (P := fun z => (ARC_SPEED_MIN <= z <= ARC_SPEED_MAX)%Z).
    + apply returns_randint. unfold ARC_SPEED_MIN, ARC_SPEED_MAX. lia.
    + intros; exact I.
  - intros n _. apply returns_ret. exact I.
Qed.

Lemma returns_random_angle : returns Arc.random_angle (fun _ => True).
Proof.
  unfold Arc.random_angle.
  apply returns_bind with (P := fun _ => True).
  - apply returns_weaken with (P := fun u => 0 <= u < 1); [apply returns_random |].
    intros; exact I.
  - intros u _. apply returns_ret. exact I.
Qed.

(** Every arc the constructor returns lies around the centre it was
    given, with a radius that is not negative and a colour of three
    channels. *)
Lemma returns_arc_init (center : Point) (radius : R) (color : option (list Z))
    (angle speed : option R) :
  returns (Arc.init center radius color angle speed) (arc_ok center).
Proof.
  unfold Arc.init.
  apply returns_bind with (P := valid_color).
  { destruct color as [[| c cs] |]; try apply returns_random_color.
    apply returns_bind with (P := fun cl => valid_color [r cl; g cl; b cl]).
    - apply returns_lift. intros cl E. apply (new_Color_valid _ _ E).
    - intros cl V. apply returns_ret. exact V. }
  intros col V.
  apply returns_bind with (P := fun _ => True).
  { destruct speed as [v |]; [destruct (truthy v) |];
      try apply returns_random_speed. apply returns_ret. exact I. }
  intros spd _.
  apply returns_bind with (P := fun _ => True).
  { destruct angle as [v |]; [destruct (truthy v) |];
      try apply returns_random_angle. apply returns_ret. exact I. }
  intros ang _.
  apply returns_bind with (P := fun image => width image = radius * 2 /\ 0 <= radius).
  { apply returns_lift. intros image E. unfold new_Surface in E.
    destruct (Rlt_dec (radius * 2) 0) as [| N]; [discriminate |].
    injection E as <-. simpl. split; [reflexivity | lra]. }
  intros image [W Hrad].
  apply returns_bind
    with (P := fun sp => Sprite.circle sp = Circle.mk center (radius * 2 / 2)).
  { apply returns_lift. intros sp E. unfold Sprite.init in E.
    destruct (Req_dec_T (width image) (height image)); [| discriminate].
    injection E as <-. simpl. rewrite W. reflexivity. }
  intros sp Hsp. apply returns_ret.
  unfold arc_ok, Arc.circle. simpl. rewrite Hsp. simpl.
  split; [reflexivity |]. split; [lra | exact V].
Qed.

Lemma returns_any {A : Type} (m : M A) (P : A -> Prop) :
  returns m P -> returns m (fun _ => True).
Proof. intro H. apply returns_weaken with (P := P); [exact H | intros; exact I]. Qed.

Lemma returns_particle_init (center : Point) (color : list Z) (radius : R)
    (velocity gravity : option Vector2) (lifetime : option R) :
  returns (Particle.init center color radius velocity gravity lifetime)
          (fun _ => True).
Proof.
  unfold Particle.init.
  apply returns_bind with (P := fun _ => True).
  { assert (V : returns Particle.random_velocity (fun _ => True)).
    { unfold Particle.random_velocity.
      apply returns_bind with (P := fun _ => True);
        [apply (returns_any _ _ returns_random) |].
      intros u _. apply returns_ret. exact I. }
    destruct velocity as [v |]; [destruct (Vector2.nonzero v) |]; try exact V.
    apply returns_ret. exact I. }
  intros vel _.
  apply returns_bind with (P := fun _ => True);
    [apply returns_lift; intros; exact I |]. intros col _.
  apply returns_bind with (P := fun _ => True);
    [apply returns_lift; intros; exact I |]. intros image _.
  apply returns_bind with (P := fun _ => True);
    [apply returns_lift; intros; exact I |]. intros sp _.
  apply returns_ret. exact I.
Qed.

Lemma returns_click_particle (mouse_pos : Point) :
  returns (click_particle mouse_pos) (fun _ => True).
Proof.
  unfold click_particle.
  do 3 (apply returns_bind with (P := fun _ => True);
        [apply (returns_any _ _ (returns_randint (-20) 20 ltac:(lia))) | intros ? _]).
  apply returns_bind with (P := fun _ => True);
    [apply (returns_any _ _ (returns_randint 2 5 ltac:(lia))) | intros ? _].
  do 2 (apply returns_bind with (P := fun _ => True);
        [apply (returns_any _ _ returns_random) | intros ? _]).
  apply returns_bind with (P := fun _ => True);
    [apply (returns_any _ _ (returns_randint 30 60 ltac:(lia))) | intros ? _].
  apply returns_particle_init.
Qed.

Lemma returns_cursor_particle (mouse_pos : Point) (color : list Z) :
  returns (cursor_particle mouse_pos color) (fun _ => True).
Proof.
  unfold cursor_particle.
  apply returns_bind with (P := fun _ => True);
    [apply (returns_any _ _ (returns_randint 2 5 ltac:(lia))) | intros ? _].
  apply returns_bind with (P := fun _ => True);
    [apply (returns_any _ _ returns_random) | intros ? _].
  apply returns_bind with (P := fun _ => True);
    [apply (returns_any _ _ (returns_randint 0 360 ltac:(lia))) | intros ? _].
  apply returns_bind with (P := fun _ => True);
    [apply (returns_any _ _ (returns_randint 30 60 ltac:(lia))) | intros ? _].
  apply returns_particle_init.
Qed.

(** [set_mode] appends arcs around the centre and nothing else. *)
Lemma returns_set_mode (key : Key) (sprites : list SpriteRef) (center : Vector2) :
  returns (set_mode key sprites center)
          (fun l => exists arcs,
                      l = sprites ++ map RArc arcs /\ Forall (arc_ok center) arcs).
Proof.
  unfold set_mode.
  apply returns_bind with (P := fun _ => True);
    [apply (returns_any _ _ returns_random_color) | intros color _].
  apply returns_bind with (P := fun _ => True);
    [apply returns_random_angle | intros angle _].
  apply returns_bind with (P := fun _ => True);
    [apply returns_random_speed | intros speed _].
  apply returns_bind with (P := Forall (arc_ok center)).
  - destruct key; try (apply returns_ret; constructor);
      apply returns_mapM; intro i; apply returns_arc_init.
  - intros arcs F. apply returns_ret. exists arcs. split; [reflexivity | exact F].
Qed.

Lemma wheel_range (mult : R) (wheel_y : Z) : 1 / 10 <= wheel mult wheel_y <= 3.
Proof.
  unfold wheel, py_min, py_max.
  destruct (Rlt_dec (mult + 1 / 10 * IZR wheel_y) (1 / 10));
    match goal with |- context [Rlt_dec ?p ?q] => destruct (Rlt_dec p q) end; lra.
Qed.

(** Every event leaves the state well formed and the centre in place. *)
Lemma returns_handle_event (e : Event) (st : Sim) :
  well_formed st ->
  returns (handle_event e st)
          (fun st' => well_formed st' /\ center st' = center st).
Proof.
  intros [Ha [Hm [arcs [Hs Hf]]]].
  assert (W : well_formed st) by (split; [exact Ha | split; [exact Hm | exists arcs; split; assumption]]).
  assert (K : forall key,
             returns (sprites <- set_mode key [RBall] (center st) ;;
                      ret (mkSim 1 (running st) (center st) (destroy_on_collide st)
                             (particles_on_cursor st)
                             (Ball.reset (ball st) (center st)) sprites []))%m
                     (fun st' => well_formed st' /\ center st' = center st)).
  { intro key.
    apply returns_bind
      with (P := fun l => exists arcs0,
                   l = [RBall] ++ map RArc arcs0 /\ Forall (arc_ok (center st)) arcs0);
      [apply returns_set_mode |].
    intros sprites [arcs0 [-> F0]]. apply returns_ret.
    split; [| reflexivity]. split; [exact Ha |]. split; [simpl; lra |].
    exists arcs0. split; [reflexivity | exact F0]. }
  destruct e as [| key | button mouse_pos | mouse_pos | wheel_y |].
  - apply returns_ret. split; [| reflexivity].
    split; [exact Ha | split; [exact Hm | exists arcs; split; assumption]].
  - destruct key; try apply K; apply returns_ret; (split; [| reflexivity]);
      try exact W;
      (split; [exact Ha | split; [exact Hm | exists arcs; split; assumption]]).
  - cbn [handle_event].
    destruct (button =? 1)%Z.
    + apply returns_bind with (P := fun _ => True).
      * apply (returns_any _ _ (returns_mapM _ _ _
                                  (fun _ => returns_click_particle mouse_pos))).
      * intros new _. apply returns_ret. split; [| reflexivity].
        split; [exact Ha | split; [exact Hm | exists arcs; split; assumption]].
    + destruct (button =? 2)%Z; apply returns_ret; (split; [| reflexivity]);
        [| exact W].
      split; [exact Ha | split; [simpl; lra | exists arcs; split; assumption]].
  - cbn [handle_event].
    destruct (particles_on_cursor st); [| apply returns_ret; split; [exact W | reflexivity]].
    apply returns_bind with (P := fun _ => True);
      [apply (returns_any _ _ returns_random_color) | intros color _].
    apply returns_bind with (P := fun _ => True).
    + apply (returns_any _ _ (returns_mapM _ _ _
                                (fun _ => returns_cursor_particle mouse_pos color))).
    + intros new _. apply returns_ret. split; [| reflexivity].
      split; [exact Ha | split; [exact Hm | exists arcs; split; assumption]].
  - apply returns_ret. split; [| reflexivity].
    split; [exact Ha |]. split; [apply wheel_range |].
    exists arcs. split; assumption.
  - apply returns_ret. split; [exact W | reflexivity].
Qed.

Lemma returns_handle_events (es : list Event) (st : Sim) :
  well_formed st ->
  returns (handle_events es st)
          (fun st' => well_formed st' /\ center st' = center st).
Proof.
  revert st. induction es as [| e rest IH]; intros st W; simpl.
  - apply returns_ret. split; [exact W | reflexivity].
  - apply returns_bind
      with (P := fun st' => well_formed st' /\ center st' = center st);
      [apply returns_handle_event; exact W |].
    intros st1 [W1 C1].
    apply returns_weaken
      with (P := fun st' => well_formed st' /\ center st' = center st1);
      [apply IH; exact W1 |].
    intros st2 [W2 C2]. split; [exact W2 | congruence].
Qed.

Lemma arc_ok_update (center : Vector2) (mult : R) (arc : Arc.t) :
  arc_ok center arc -> arc_ok center (Arc.update mult arc).
Proof. intro H. exact H. Qed.

Lemma arc_ok_kill (center : Vector2) (arc : Arc.t) :
  arc_ok center arc -> arc_ok center (Arc.kill arc).
Proof. intro H. exact H. Qed.

(** [Group.update] on the arcs behind the ball. *)
Lemma update_sprites_arcs (mult : R) (ball : Ball.t) (center : Vector2)
    (arcs : list Arc.t) :
  Forall (arc_ok center) arcs ->
  exists arcs',
    update_sprites mult ball (map RArc arcs) = (ball, map RArc arcs')
    /\ Forall (arc_ok center) arcs'
    /\ Forall (fun arc => Arc.alive arc = true) arcs'.
Proof.
  intro F. induction F as [| arc rest Hok _ IH].
  - exists []. repeat split; constructor.
  - destruct IH as [arcs' [E [F' A']]]. simpl. rewrite E.
    destruct (Arc.alive arc) eqn:Al.
    + exists (Arc.update mult arc :: arcs'). split; [reflexivity |].
      split; constructor; assumption.
    + exists arcs'. repeat split; assumption.
Qed.

Lemma update_sprites_well_formed (mult : R) (ball : Ball.t) (center : Vector2)
    (arcs : list Arc.t) :
  Sprite.alive (Ball.sprite ball) = true ->
  Forall (arc_ok center) arcs ->
  exists arcs',
    update_sprites mult ball (RBall :: map RArc arcs)
    = (Ball.update mult ball, RBall :: map RArc arcs')
    /\ Forall (arc_ok center) arcs'
    /\ Forall (fun arc => Arc.alive arc = true) arcs'.
Proof.
  intros Al F.
  destruct (update_sprites_arcs mult (Ball.update mult ball) center arcs F)
    as [arcs' [E [F' A']]].
  exists arcs'. split; [| split; assumption].
  cbn [update_sprites]. rewrite Al, E. reflexivity.
Qed.

Lemma returns_break_arc (arc : Arc.t) (ps : list Particle.t) (center : Vector2) :
  returns (break_arc arc ps center) (fun v => fst v = Arc.kill arc).
Proof.
  assert (L : forall n l, returns (break_arc_loop n (Arc.kill arc) l center)
                                  (fun _ => True)).
  { induction n as [| n IH]; intro l; simpl.
    - apply returns_ret. exact I.
    - apply returns_bind with (P := fun _ => True); [| intros p _; apply IH].
      unfold spawn_particle.
      apply returns_bind with (P := fun _ => True);
        [apply returns_random_angle_with_cut | intros theta _].
      apply returns_bind with (P := fun _ => True);
        [apply (returns_any _ _ (returns_randint 1 3 ltac:(lia))) | intros size _].
      apply returns_particle_init. }
  unfold break_arc.
  apply returns_bind with (P := fun _ => True); [apply L |].
  intros l _. apply returns_ret. reflexivity.
Qed.

Lemma returns_reflect (ball : Ball.t) (circle : Circle) :
  returns (Ball.reflect ball circle)
          (fun ball' => Sprite.alive (Ball.sprite ball')
                        = Sprite.alive (Ball.sprite ball)).
Proof.
  unfold Ball.reflect.
  apply returns_bind with (P := fun _ => True);
    [apply returns_lift; intros; exact I | intros normal _].
  apply returns_bind with (P := fun _ => True);
    [apply (returns_any _ _ returns_random) | intros u _].
  apply returns_bind with (P := fun _ => True);
    [apply returns_lift; intros; exact I | intros dir _].
  apply returns_bind with (P := fun _ => True);
    [apply returns_lift; intros; exact I | intros v _].
  apply returns_ret. reflexivity.
Qed.

Lemma collide_ball_alive (collide_mask : Arc.t -> Ball.t -> bool) (arc : Arc.t)
    (ball ball' : Ball.t) (hit : bool) :
  Arc.collide_ball collide_mask arc ball = Ok (hit, ball') ->
  Sprite.alive (Ball.sprite ball') = Sprite.alive (Ball.sprite ball).
Proof.
  unfold Arc.collide_ball, rbind.
  destruct (Vector2.normalize (Ball.velocity ball)); [| discriminate].
  intro E. injection E as _ <-. reflexivity.
Qed.

(** The guarded block keeps the ball alive, the centre and the speed
    multiplier, and puts the arc back in its slot, killed or not. *)
Lemma returns_resolve (collide_mask : Arc.t -> Ball.t -> bool) (arc : Arc.t)
    (st : Sim) :
  returns (resolve collide_mask arc st)
          (fun st' =>
             Sprite.alive (Ball.sprite (ball st'))
             = Sprite.alive (Ball.sprite (ball st))
             /\ center st' = center st
             /\ speed_mult st' = speed_mult st
             /\ exists arc',
                  all_sprites st' = removelast (all_sprites st) ++ [RArc arc']
                  /\ (arc' = arc \/ arc' = Arc.kill arc)).
Proof.
  unfold resolve.
  apply returns_bind
    with (P := fun v => Sprite.alive (Ball.sprite (snd v))
                        = Sprite.alive (Ball.sprite (ball st))).
  { apply returns_lift. intros [hit ball1] E. simpl.
    apply (collide_ball_alive _ _ _ _ _ E). }
  intros [hit ball1] Al. simpl in Al. destruct hit.
  - apply returns_bind with (P := fun v => fst v = arc \/ fst v = Arc.kill arc).
    { destruct (destroy_on_collide st).
      - apply returns_weaken with (P := fun v => fst v = Arc.kill arc);
          [apply returns_break_arc | intros v H; right; exact H].
      - apply returns_ret. left. reflexivity. }
    intros [arc1 ps1] Ha. simpl in Ha.
    apply returns_bind
      with (P := fun ball' => Sprite.alive (Ball.sprite ball')
                              = Sprite.alive (Ball.sprite ball1));
      [apply returns_reflect |].
    intros ball2 Al2. apply returns_ret. cbn.
    split; [congruence |]. split; [reflexivity |]. split; [reflexivity |].
    exists arc1. split; [reflexivity | exact Ha].
  - apply returns_bind with (P := fun v => fst v = Arc.kill arc);
      [apply returns_break_arc |].
    intros [arc1 ps1] Ha. simpl in Ha. apply returns_ret. cbn.
    split; [exact Al |]. split; [reflexivity |]. split; [reflexivity |].
    exists arc1. split; [reflexivity | right; exact Ha].
Qed.

Lemma Forall_last (P : Arc.t -> Prop) (arcs : list Arc.t) (d : Arc.t) :
  arcs <> [] -> Forall P arcs -> P (last arcs d).
Proof.
  intros NE F. induction F as [| x l Hx Hl IH]; [contradiction |].
  destruct l as [| y l']; [exact Hx |].
  change (last (x :: y :: l') d) with (last (y :: l') d).
  apply IH. discriminate.
Qed.

Lemma Forall_removelast (P : Arc.t -> Prop) (arcs : list Arc.t) :
  Forall P arcs -> Forall P (removelast arcs).
Proof.
  intro F. induction F as [| x l Hx Hl IH]; [constructor |].
  destruct l as [| y l']; [constructor |].
  change (removelast (x :: y :: l')) with (x :: removelast (y :: l')).
  constructor; assumption.
Qed.

Lemma returns_collision_phase (collide_mask : Arc.t -> Ball.t -> bool) (st : Sim) :
  well_formed st ->
  returns (collision_phase collide_mask st)
          (fun st' => well_formed st' /\ center st' = center st).
Proof.
  intros [Ha [Hm [arcs [Hs Hf]]]].
  assert (W : well_formed st)
    by (split; [exact Ha | split; [exact Hm | exists arcs; split; assumption]]).
  unfold collision_phase.
  destruct (check_fires st) eqn:F; [| apply returns_ret; split; [exact W | reflexivity]].
  assert (NE : arcs <> []).
  { intro E. subst arcs. unfold check_fires in F. rewrite Hs in F.
    simpl in F. discriminate. }
  destruct arcs as [| a0 rest]; [contradiction |].
  rewrite Hs, (last_map_RArc _ a0 NE).
  eapply returns_weaken; [apply returns_resolve |].
  intros st' [Al [Hc [Hsp [arc' [Es Harc]]]]].
  split; [| exact Hc].
  split; [congruence |]. split; [rewrite Hsp; exact Hm |].
  exists (removelast (a0 :: rest) ++ [arc']). split.
  - rewrite Es, Hs, (removelast_ball_arcs _ NE), map_app. reflexivity.
  - rewrite Hc. apply Forall_app. split; [apply Forall_removelast; exact Hf |].
    constructor; [| constructor].
    pose proof (Forall_last _ _ a0 NE Hf) as Hl.
    destruct Harc as [-> | ->]; [exact Hl | apply arc_ok_kill; exact Hl].
Qed.

(** X16: One round of the loop keeps the state well formed. *)
Theorem tick_well_formed (collide_mask : Arc.t -> Ball.t -> bool)
    (events : list Event) (st : Sim) :
  well_formed st ->
  returns (tick collide_mask events st)
          (fun st' => well_formed st' /\ center st' = center st).
Proof.
  intro W. unfold tick.
  apply returns_bind
    with (P := fun st' => well_formed st' /\ center st' = center st);
    [apply returns_handle_events; exact W |].
  intros st1 [[Ha [Hm [arcs [Hs Hf]]]] C1].
  destruct (update_sprites_well_formed (speed_mult st1) (ball st1) (center st1)
              arcs Ha Hf) as [arcs' [E [F' _]]].
  rewrite Hs, E.
  eapply returns_weaken.
  - apply returns_collision_phase.
    split; [exact Ha |]. split; [exact Hm |]. exists arcs'. split; [reflexivity | exact F'].
  - intros st' [W' C']. split; [exact W' |]. simpl in C'. congruence.
Qed.

(** [main] enters its loop in a well-formed state. *)
Theorem main_init_well_formed (center0 : Vector2) :
  returns (main_init center0)
          (fun st => well_formed st /\ center st = center0).
Proof.
  unfold main_init.
  apply returns_bind
    with (P := fun ball0 => Sprite.alive (Ball.sprite ball0) = true).
  { apply returns_lift. intros ball0 E. unfold Ball.init, rbind in E.
    destruct (new_Surface (BALL_RADIUS * 2) (BALL_RADIUS * 2)) as [image |];
      [| discriminate].
    unfold Sprite.init in E.
    destruct (Req_dec_T (width image) (height image)); [| discriminate].
    injection E as <-. reflexivity. }
  intros ball0 Al.
  apply returns_bind with (P := Forall (arc_ok center0)).
  { apply returns_mapM. intro i. apply returns_arc_init. }
  intros arcs F. apply returns_ret. split; [| reflexivity].
  split; [exact Al |]. split; [simpl; lra |].
  exists arcs. split; [reflexivity | exact F].
Qed.

(** In a well-formed state the arc the collision check hands to
    [break_arc] lies around the centre [break_arc] is given. *)
Corollary well_formed_collision_target (st : Sim) (arcs : list Arc.t) (arc : Arc.t) :
  well_formed st ->
  all_sprites st = RBall :: map RArc arcs ->
  check_fires st = true ->
  arc_ok (center st) (last arcs arc).
Proof.
  intros [_ [_ [arcs0 [Hs Hf]]]] Hs' F.
  rewrite Hs in Hs'. injection Hs' as Hmap.
  assert (E : arcs0 = arcs).
  { rewrite <- (arcs_of_map arcs0), <- (arcs_of_map arcs), Hmap. reflexivity. }
  subst arcs0. apply Forall_last; [| exact Hf].
  intro E. subst arcs. unfold check_fires in F. rewrite Hs in F. simpl in F.
  discriminate.
Qed.

(** * Further properties of the code *)

(** ** The mouse wheel *)

Lemma wheel_step (mult : R) (wheel_y : Z) :
  (1 <= wheel_y)%Z -> 1 / 10 <= mult ->
  mult + 1 / 10 <= wheel mult wheel_y \/ wheel mult wheel_y = 3.
Proof.
  intros Hy Hm. apply IZR_le in Hy. unfold wheel, py_min, py_max.
  destruct (Rlt_dec (mult + 1 / 10 * IZR wheel_y) (1 / 10)); [lra |].
  destruct (Rlt_dec 3 (mult + 1 / 10 * IZR wheel_y)); [right; reflexivity | left; lra].
Qed.

Lemma wheels_range (ys : list Z) (mult : R) :
  1 / 10 <= mult <= 3 -> 1 / 10 <= fold_left wheel ys mult <= 3.
Proof.
  revert mult. induction ys as [| y rest IH]; intros mult Hm; [exact Hm |].
  cbn [fold_left]. apply IH. apply wheel_range.
Qed.

Lemma wheels_climb (ys : list Z) (mult : R) :
  Forall (fun y => (1 <= y)%Z) ys -> 1 / 10 <= mult <= 3 ->
  mult + 1 / 10 * INR (length ys) <= fold_left wheel ys mult
  \/ fold_left wheel ys mult = 3.
Proof.
  intro F. revert mult. induction F as [| y rest Hy _ IH]; intros mult Hm.
  - left. simpl. lra.
  - change (length (y :: rest)) with (S (length rest)). rewrite S_INR.
    cbn [fold_left].
    pose proof (wheel_range mult y) as Rg.
    pose proof (wheels_range rest (wheel mult y) Rg) as Rf.
    pose proof (pos_INR (length rest)) as Pl.
    destruct (IH (wheel mult y) Rg) as [L | E]; [| right; exact E].
    destruct (wheel_step mult y Hy (proj1 Hm)) as [St | E3].
    + left. lra.
    + right. rewrite E3 in *. lra.
Qed.

Lemma handle_wheel_events (ys : list Z) (st : Sim) (s : Random.state) :
  handle_events (map MOUSEWHEEL ys) st s
  = Ok (with_speed_mult st (fold_left wheel ys (speed_mult st)), s).
Proof.
  revert st. induction ys as [| y rest IH]; intro st.
  - destruct st. reflexivity.
  - cbn [map handle_events]. unfold bind. cbn [handle_event]. unfold ret at 1.
    rewrite IH. reflexivity.
Qed.

(** X1: Scrolling changes the speed multiplier and nothing else, draws
    nothing, and leaves the multiplier in [0.1, 3] whatever it was; thirty
    notches up from any multiplier give exactly 3. *)
Theorem wheel_events_clamp (ys : list Z) (st : Sim) (s : Random.state) :
  exists mult,
    handle_events (map MOUSEWHEEL ys) st s = Ok (with_speed_mult st mult, s)
    /\ (ys <> [] -> 1 / 10 <= mult <= 3)
    /\ (Forall (fun y => (1 <= y)%Z) ys -> (30 <= length ys)%nat -> mult = 3).
Proof.
  exists (fold_left wheel ys (speed_mult st)).
  split; [apply handle_wheel_events |]. split.
  - intro NE. destruct ys as [| y rest]; [contradiction |].
    cbn [fold_left]. apply wheels_range, wheel_range.
  - intros F L. destruct ys as [| y rest]; [simpl in L; lia |].
    inversion F as [| y0 r0 Hy Hrest]; subst.
    cbn [fold_left].
    pose proof (wheel_range (speed_mult st) y) as Rg.
    pose proof (wheels_range rest _ Rg) as Rf.
    destruct (wheels_climb rest _ Hrest Rg) as [C | E]; [| exact E].
    assert (B : 29 <= INR (length rest)).
    { simpl in L. assert (H : (29 <= length rest)%nat) by lia.
      apply le_INR in H. rewrite (INR_IZR_INZ 29) in H. simpl in H. exact H. }
    lra.
Qed.

(** ** Motion of the ball and of the arcs *)

Lemma vector_eq (u v : Vector2) :
  Vector2.x u = Vector2.x v -> Vector2.y u = Vector2.y v -> u = v.
Proof. destruct u, v. simpl. intros -> ->. reflexivity. Qed.

Lemma vector_eq_dec (u v : Vector2) : u = v \/ u <> v.
Proof.
  destruct (Req_dec (Vector2.x u) (Vector2.x v)) as [Ex | Nx].
  - destruct (Req_dec (Vector2.y u) (Vector2.y v)) as [Ey | Ny].
    + left. apply vector_eq; assumption.
    + right. intro E. apply Ny. rewrite E. reflexivity.
  - right. intro E. apply Nx. rewrite E. reflexivity.
Qed.

(** X2: Gravity is added once per tick whatever the speed multiplier, while
    the displacement of a tick is scaled by it: after any run of ticks the
    horizontal velocity is unchanged, the vertical one has grown by
    [BALL_GRAVITY] per tick, and the ball has moved horizontally by its
    horizontal velocity times the sum of the multipliers. *)
Theorem ball_updates_motion (mults : list R) (ball : Ball.t) :
  let ball' := ball_updates mults ball in
  Vector2.x (Ball.velocity ball') = Vector2.x (Ball.velocity ball)
  /\ Vector2.y (Ball.velocity ball')
     = Vector2.y (Ball.velocity ball) + INR (length mults) * BALL_GRAVITY
  /\ Vector2.x (Circle.center (Ball.circle ball'))
     = Vector2.x (Circle.center (Ball.circle ball))
       + Vector2.x (Ball.velocity ball) * Rsum mults
  /\ Circle.radius (Ball.circle ball') = Circle.radius (Ball.circle ball)
  /\ Sprite.alive (Ball.sprite ball') = Sprite.alive (Ball.sprite ball).
Proof.
  revert ball. induction mults as [| m rest IH]; intro ball.
  - simpl. repeat split; ring.
  - cbn zeta in *. cbn [ball_updates].
    destruct (IH (Ball.update m ball)) as [Hx [Hy [Hp [Hr Ha]]]].
    change (length (m :: rest)) with (S (length rest)). rewrite S_INR.
    rewrite Hx, Hy, Hp, Hr, Ha. unfold Ball.update, Ball.circle. simpl.
    repeat split; ring.
Qed.

(** X3: Rotation composes: two updates of an arc are one update with the sum
    of the multipliers, and a run of updates turns the arc by its speed times
    the sum of the multipliers, leaving circle, colour, speed and liveness
    as they were. *)
Theorem arc_updates_rotation (mults : list R) (arc : Arc.t) (m1 m2 : R) :
  Arc.update m2 (Arc.update m1 arc) = Arc.update (m1 + m2) arc
  /\ Arc.angle (arc_updates mults arc)
     = Arc.angle arc + Arc.speed arc * Rsum mults
  /\ Arc.sprite (arc_updates mults arc) = Arc.sprite arc
  /\ Arc.color (arc_updates mults arc) = Arc.color arc
  /\ Arc.speed (arc_updates mults arc) = Arc.speed arc.
Proof.
  split.
  - unfold Arc.update. simpl. f_equal. ring.
  - revert arc. induction mults as [| m rest IH]; intro arc.
    + simpl. repeat split. ring.
    + cbn [arc_updates]. destruct (IH (Arc.update m arc)) as [Ha [Hs [Hc Hv]]].
      rewrite Ha, Hs, Hc, Hv. simpl. repeat split. ring.
Qed.

(** ** Errors of [Ball.reflect] *)

Lemma normalize_ok_nonzero (v d : Vector2) :
  Vector2.normalize v = Ok d -> v <> Vector2.zero.
Proof.
  intros E Z. rewrite Z, normalize_zero in E. discriminate E.
Qed.

Lemma normalize_outcome (v : Vector2) :
  (v = Vector2.zero /\ Vector2.normalize v = Raise ValueError)
  \/ (v <> Vector2.zero
      /\ Vector2.normalize v = Ok (Vector2.div v (Vector2.length v))).
Proof.
  destruct (vector_eq_dec v Vector2.zero) as [E | N].
  - left. split; [exact E |]. rewrite E. apply normalize_zero.
  - right. split; [exact N | apply normalize_nonzero; exact N].
Qed.

Lemma difference_zero (c1 c2 : Point) :
  Vector2.mk (Vector2.x c1 - Vector2.x c2) (Vector2.y c1 - Vector2.y c2)
  = Vector2.zero <-> c1 = c2.
Proof.
  split.
  - intro E. injection E as Hx Hy. apply vector_eq; lra.
  - intros ->. unfold Vector2.zero. f_equal; ring.
Qed.

(** What [Ball.reflect] returns for a moving ball off the centre of the
    circle. *)
Lemma reflect_moving (ball : Ball.t) (circle : Circle) (s : Random.state) :
  Ball.velocity ball <> Vector2.zero ->
  Circle.center circle <> Circle.center (Ball.circle ball) ->
  exists v,
    Ball.reflect ball circle s
    = Ok (Ball.mk
            (Sprite.move_ip (Ball.sprite ball)
               (Vector2.mul
                  (Vector2.div (Ball.velocity ball)
                     (Vector2.length (Ball.velocity ball)))
                  (Circle.radius circle - Circle.radius (Ball.circle ball)
                   - Circle.center_distance circle (Ball.circle ball))))
            v,
          Random.advance 1 s)
    /\ Vector2.length v = Vector2.length (Ball.velocity ball).
Proof.
  intros N C.
  pose proof (centers_differ _ _ C) as Nn.
  pose proof (div_length_unit _ Nn) as U. cbv zeta in U.
  set (normal := Vector2.mk
                   (Vector2.x (Circle.center circle)
                    - Vector2.x (Circle.center (Ball.circle ball)))
                   (Vector2.y (Circle.center circle)
                    - Vector2.y (Circle.center (Ball.circle ball)))) in *.
  set (n1 := Vector2.div normal (Vector2.length normal)) in *.
  set (angle := (Random.peek s - 5 / 10) * BALL_REFLECT_ANGLE).
  assert (U' : Vector2.x (Vector2.rotate n1 angle) * Vector2.x (Vector2.rotate n1 angle)
               + Vector2.y (Vector2.rotate n1 angle) * Vector2.y (Vector2.rotate n1 angle)
               = 1).
  { unfold Vector2.rotate.
    rewrite (rotate_rad_sqr n1 (angle * PI / 180)). exact U. }
  destruct (reflect_unit_normal (Ball.velocity ball) _ U') as [w [Hw Hl]].
  exists w. split; [| exact Hl].
  unfold Ball.reflect, bind, lift, draw, ret, Random.random.
  fold normal. rewrite (normalize_nonzero _ Nn). fold n1.
  rewrite (normalize_nonzero _ N). fold angle. rewrite Hw.
  reflexivity.
Qed.

(** X4: [Ball.reflect] raises exactly when the ball is at rest or sits on the
    centre of the circle, and then it raises [ValueError]; otherwise it
    returns after one draw, the ball moved along its velocity and its speed
    unchanged. *)
Theorem reflect_raises_iff (ball : Ball.t) (circle : Circle) (s : Random.state) :
  (Ball.reflect ball circle s = Raise ValueError
   <-> (Circle.center circle = Circle.center (Ball.circle ball)
        \/ Ball.velocity ball = Vector2.zero))
  /\ ((exists ball', Ball.reflect ball circle s = Ok (ball', Random.advance 1 s))
      <-> (Circle.center circle <> Circle.center (Ball.circle ball)
           /\ Ball.velocity ball <> Vector2.zero)).
Proof.
  assert (Bad : Circle.center circle = Circle.center (Ball.circle ball)
                \/ Ball.velocity ball = Vector2.zero ->
                Ball.reflect ball circle s = Raise ValueError).
  { intro H. unfold Ball.reflect, bind, lift, draw, ret, Random.random.
    destruct (normalize_outcome
                (Vector2.mk
                   (Vector2.x (Circle.center circle)
                    - Vector2.x (Circle.center (Ball.circle ball)))
                   (Vector2.y (Circle.center circle)
                    - Vector2.y (Circle.center (Ball.circle ball)))))
      as [[_ ->] | [Nn ->]]; [reflexivity |].
    destruct H as [C | Z].
    - exfalso. apply Nn. apply difference_zero. exact C.
    - rewrite Z, normalize_zero. reflexivity. }
  destruct (vector_eq_dec (Circle.center circle) (Circle.center (Ball.circle ball)))
    as [C | C].
  - rewrite (Bad (or_introl C)). split; split.
    + intros _. left. exact C.
    + reflexivity.
    + intros [b' E]. discriminate E.
    + intros [N _]. contradiction.
  - destruct (vector_eq_dec (Ball.velocity ball) Vector2.zero) as [Z | N].
    + rewrite (Bad (or_intror Z)). split; split.
      * intros _. right. exact Z.
      * reflexivity.
      * intros [b' E]. discriminate E.
      * intros [_ N]. contradiction.
    + destruct (reflect_moving ball circle s N C) as [v [E _]].
      rewrite E. split; split.
      * intro D. discriminate D.
      * intros [H | H]; contradiction.
      * intros _. split; assumption.
      * intros _. eexists. reflexivity.
Qed.

(** ** The constructors *)

Lemma outcome_ret {A : Type} (v : A) (Q : A -> Prop) (P : exn -> Prop) :
  Q v -> outcome (ret v) Q P.
Proof. intros H s. exact H. Qed.

Lemma outcome_draw {A : Type} (d : Random.state -> A * Random.state)
    (P : exn -> Prop) :
  outcome (draw d) (fun _ => True) P.
Proof. intros s. unfold draw. destruct (d s). exact I. Qed.

Lemma outcome_lift {A : Type} (v : result A) (Q : A -> Prop) (P : exn -> Prop) :
  match v with Ok w => Q w | Raise e => P e end -> outcome (lift v) Q P.
Proof. intros H s. unfold lift. destruct v; exact H. Qed.

Lemma outcome_bind {A B : Type} (m : M A) (f : A -> M B) (Q : A -> Prop)
    (Q' : B -> Prop) (P : exn -> Prop) :
  outcome m Q P -> (forall v, Q v -> outcome (f v) Q' P) ->
  outcome (bind m f) Q' P.
Proof.
  intros Hm Hf s. unfold bind. specialize (Hm s).
  destruct (m s) as [[v s1] | e]; [| exact Hm].
  apply (Hf v Hm s1).
Qed.

Lemma outcome_weaken {A : Type} (m : M A) (Q Q' : A -> Prop) (P : exn -> Prop) :
  outcome m Q P -> (forall v, Q v -> Q' v) -> outcome m Q' P.
Proof.
  intros Hm H s. specialize (Hm s). destruct (m s) as [[v s1] | e];
    [apply H; exact Hm | exact Hm].
Qed.

Lemma new_Color_raises (c : list Z) (e : exn) :
  new_Color c = Raise e -> e = ValueError.
Proof.
  unfold new_Color.
  destruct c as [| cr [| cg [| cb [| ca [| x rest]]]]];
    repeat match goal with
           | |- context [if ?b then _ else _] => destruct b
           end;
    intro E; try discriminate E; injection E as <-; reflexivity.
Qed.

(** The steps of every constructor from the surface on: a square surface
    of side [radius * 2] and the sprite around it.  The surface is refused
    when the radius is negative; the sprite is never refused. *)
Ltac square_sprite radius :=
  apply outcome_bind
    with (Q := fun image => width image = height image /\ 0 <= radius);
  [ apply outcome_lift; unfold new_Surface;
    destruct (Rlt_dec (radius * 2) 0);
    [ right; split; [reflexivity | lra]
    | simpl; split; [reflexivity | lra] ]
  | let image := fresh "image" in
    let Sq := fresh "Sq" in
    let Hr := fresh "Hr" in
    intros image [Sq Hr];
    apply outcome_bind with (Q := fun _ => 0 <= radius);
    [ apply outcome_lift; unfold Sprite.init;
      destruct (Req_dec_T (width image) (height image));
      [exact Hr | contradiction]
    | ] ].

Lemma outcome_particle_init (center : Point) (color : list Z) (radius : R)
    (velocity gravity : option Vector2) (lifetime : option R) :
  outcome (Particle.init center color radius velocity gravity lifetime)
          (fun _ => 0 <= radius /\ exists cl, new_Color color = Ok cl)
          (fun e => (e = ValueError /\ new_Color color = Raise ValueError)
                    \/ (e = PygameError /\ radius < 0)).
Proof.
  unfold Particle.init.
  apply outcome_bind with (Q := fun _ => True).
  { destruct velocity as [v |]; [destruct (Vector2.nonzero v) |];
      try (apply outcome_ret; exact I);
      unfold Particle.random_velocity;
      (apply outcome_bind with (Q := fun _ => True);
       [apply outcome_draw | intros; apply outcome_ret; exact I]). }
  intros vel _.
  apply outcome_bind with (Q := fun _ => exists cl, new_Color color = Ok cl).
  { apply outcome_lift. destruct (new_Color color) as [cl | e] eqn:E.
    - exists cl. reflexivity.
    - left. pose proof (new_Color_raises _ _ E). subst e. split; reflexivity. }
  intros col Hc. cbv zeta.
  square_sprite radius.
  intros sp Hr'. apply outcome_ret. split; [exact Hr' | exact Hc].
Qed.

Lemma outcome_arc_init (center : Point) (radius : R) (color : option (list Z))
    (angle speed : option R) :
  outcome (Arc.init center radius color angle speed)
          (fun _ => 0 <= radius)
          (fun e => (e = ValueError
                     /\ exists c, color = Some c /\ new_Color c = Raise ValueError)
                    \/ (e = PygameError /\ radius < 0)).
Proof.
  unfold Arc.init.
  apply outcome_bind with (Q := fun _ => True).
  { assert (Rc : outcome Arc.random_color (fun _ => True)
                   (fun e => (e = ValueError
                              /\ exists c, color = Some c
                                           /\ new_Color c = Raise ValueError)
                             \/ (e = PygameError /\ radius < 0))).
    { unfold Arc.random_color.
      do 3 (apply outcome_bind with (Q := fun _ => True);
            [apply outcome_draw | intros ? _]).
      apply outcome_ret. exact I. }
    destruct color as [[| c cs] |]; try exact Rc.
    apply outcome_bind with (Q := fun _ => True).
    - apply outcome_lift. destruct (new_Color (c :: cs)) as [cl | e] eqn:E;
        [exact I |].
      left. pose proof (new_Color_raises _ _ E). subst e.
      split; [reflexivity |]. exists (c :: cs). split; [reflexivity | exact E].
    - intros cl _. apply outcome_ret. exact I. }
  intros col _.
  apply outcome_bind with (Q := fun _ => True).
  { destruct speed as [v |]; [destruct (truthy v) |];
      try (apply outcome_ret; exact I);
      unfold Arc.random_speed;
      do 2 (apply outcome_bind with (Q := fun _ => True);
            [apply outcome_draw | intros ? _]);
      apply outcome_ret; exact I. }
  intros spd _.
  apply outcome_bind with (Q := fun _ => True).
  { destruct angle as [v |]; [destruct (truthy v) |];
      try (apply outcome_ret; exact I);
      unfold Arc.random_angle;
      (apply outcome_bind with (Q := fun _ => True);
       [apply outcome_draw | intros ? _]);
      apply outcome_ret; exact I. }
  intros ang _.
  square_sprite radius.
  intros sp Hr'. apply outcome_ret. exact Hr'.
Qed.

(** X5: The squareness test of [Sprite.__init__] never fails for the sprites
    the module builds: no constructor raises the bare [Exception].  A
    constructor raises [ValueError] for a colour pygame refuses and
    [pygame.error] for a negative radius, and nothing else. *)
Theorem constructors_never_raise_shape_error (center : Point) (radius : R)
    (color : list Z) (arc_color : option (list Z))
    (velocity gravity : option Vector2) (lifetime angle speed : option R)
    (s : Random.state) :
  (forall e, Ball.init center radius = Raise e -> e = PygameError /\ radius < 0)
  /\ (forall e, Arc.init center radius arc_color angle speed s = Raise e ->
        (e = ValueError
         /\ exists c, arc_color = Some c /\ new_Color c = Raise ValueError)
        \/ (e = PygameError /\ radius < 0))
  /\ (forall e, Particle.init center color radius velocity gravity lifetime s
                = Raise e ->
        (e = ValueError /\ new_Color color = Raise ValueError)
        \/ (e = PygameError /\ radius < 0))
  /\ Ball.init center radius <> Raise Exception
  /\ Arc.init center radius arc_color angle speed s <> Raise Exception
  /\ Particle.init center color radius velocity gravity lifetime s
     <> Raise Exception.
Proof.
  assert (B : forall e, Ball.init center radius = Raise e ->
                        e = PygameError /\ radius < 0).
  { intros e. unfold Ball.init, rbind, new_Surface, Sprite.init.
    destruct (Rlt_dec (radius * 2) 0).
    - intro E. injection E as <-. split; [reflexivity | lra].
    - simpl. destruct (Req_dec_T (radius * 2) (radius * 2)); [discriminate |].
      contradiction. }
  assert (A : forall e, Arc.init center radius arc_color angle speed s = Raise e ->
                (e = ValueError
                 /\ exists c, arc_color = Some c /\ new_Color c = Raise ValueError)
                \/ (e = PygameError /\ radius < 0)).
  { intros e E. pose proof (outcome_arc_init center radius arc_color angle speed s) as H.
    rewrite E in H. exact H. }
  assert (P : forall e, Particle.init center color radius velocity gravity lifetime s
                        = Raise e ->
                (e = ValueError /\ new_Color color = Raise ValueError)
                \/ (e = PygameError /\ radius < 0)).
  { intros e E.
    pose proof (outcome_particle_init center color radius velocity gravity lifetime s)
      as H.
    rewrite E in H. exact H. }
  split; [exact B |]. split; [exact A |]. split; [exact P |].
  split; [| split].
  - intro E. destruct (B _ E) as [D _]. discriminate D.
  - intro E. destruct (A _ E) as [[D _] | [D _]]; discriminate D.
  - intro E. destruct (P _ E) as [[D _] | [D _]]; discriminate D.
Qed.

Lemma particle_init_returns (center : Point) (color : list Z) (radius : R)
    (velocity gravity : option Vector2) (lifetime : option R) (s : Random.state)
    (cl : Color) :
  new_Color color = Ok cl ->
  0 <= radius ->
  Particle.init center color radius velocity gravity lifetime s
  = Ok (Particle.mk (Sprite.mk (Circle.mk center radius) true)
          (fst (initial_velocity velocity s))
          (initial_gravity gravity)
          (initial_lifetime lifetime)
          (set_alpha cl 255),
        snd (initial_velocity velocity s)).
Proof.
  intros Ec Hrad.
  assert (E : forall (vel : Vector2) (s1 : Random.state),
             (col <- lift (new_Color color) ;;
              let col := set_alpha col 255 in
              image <- lift (new_Surface (radius * 2) (radius * 2)) ;;
              sp <- lift (Sprite.init center image) ;;
              ret (Particle.mk sp vel (initial_gravity gravity)
                     (initial_lifetime lifetime) col))%m s1
             = Ok (Particle.mk (Sprite.mk (Circle.mk center radius) true) vel
                     (initial_gravity gravity) (initial_lifetime lifetime)
                     (set_alpha cl 255), s1)).
  { intros vel s1. unfold bind, lift, ret. rewrite Ec.
    rewrite (new_Surface_square radius Hrad), Sprite_init_square. reflexivity. }
  unfold Particle.init, initial_velocity.
  fold (initial_gravity gravity). fold (initial_lifetime lifetime).
  destruct velocity as [v |].
  - destruct (Vector2.nonzero v).
    + unfold bind at 1. unfold ret at 1. apply E.
    + unfold bind at 1. unfold Particle.random_velocity, bind at 1, draw, ret at 1,
        Random.random. apply E.
  - unfold bind at 1. unfold Particle.random_velocity, bind at 1, draw, ret at 1,
      Random.random. apply E.
Qed.

Lemma nonzero_zero : Vector2.nonzero Vector2.zero = false.
Proof.
  unfold Vector2.nonzero, Vector2.zero. simpl. rewrite truthy_zero. reflexivity.
Qed.

(** X6: [Particle.__init__] tests its velocity and lifetime for truthiness
    and its gravity for [None].  A zero velocity or a lifetime of 0 gives
    the run of an omitted argument; when the constructor returns (a colour
    pygame accepts, a radius that is not negative) the particle of a zero
    velocity has the velocity (0.5, 0.5) turned by 360 times the next draw,
    the particle of a lifetime 0 has [PARTICLE_LIFETIME], a zero gravity is
    kept, and only an omitted gravity becomes (0, 0.1). *)
Theorem particle_init_falsy_arguments (center : Point) (color : list Z)
    (radius : R) (velocity gravity : option Vector2) (lifetime : option R)
    (s : Random.state) :
  Particle.init center color radius (Some Vector2.zero) gravity lifetime s
  = Particle.init center color radius None gravity lifetime s
  /\ Particle.init center color radius velocity gravity (Some 0) s
     = Particle.init center color radius velocity gravity None s
  /\ (0 <= radius -> (exists cl, new_Color color = Ok cl) ->
      (exists p,
         Particle.init center color radius (Some Vector2.zero) gravity lifetime s
         = Ok (p, Random.advance 1 s)
         /\ Particle.velocity p
            = Vector2.rotate (Vector2.mk PARTICLE_SPEED PARTICLE_SPEED)
                (Random.peek s * 360))
      /\ (exists p s',
            Particle.init center color radius velocity gravity (Some 0) s
            = Ok (p, s')
            /\ Particle.lifetime p = PARTICLE_LIFETIME)
      /\ (exists p s',
            Particle.init center color radius velocity (Some Vector2.zero)
              lifetime s = Ok (p, s')
            /\ Particle.gravity p = Vector2.zero)
      /\ (exists p s',
            Particle.init center color radius velocity None lifetime s
            = Ok (p, s')
            /\ Particle.gravity p = Vector2.mk 0 (1 / 10))).
Proof.
  split; [| split].
  - unfold Particle.init. rewrite nonzero_zero. reflexivity.
  - unfold Particle.init. rewrite truthy_zero. reflexivity.
  - intros Hrad [cl Ec]. split; [| split; [| split]].
    + eexists. rewrite (particle_init_returns _ _ _ _ _ _ _ cl Ec Hrad).
      unfold initial_velocity. rewrite nonzero_zero. cbn [fst snd].
      split; reflexivity.
    + eexists _, _. rewrite (particle_init_returns _ _ _ _ _ _ _ cl Ec Hrad).
      split; [reflexivity |]. cbn [Particle.lifetime initial_lifetime].
      rewrite truthy_zero. reflexivity.
    + eexists _, _. rewrite (particle_init_returns _ _ _ _ _ _ _ cl Ec Hrad).
      split; reflexivity.
    + eexists _, _. rewrite (particle_init_returns _ _ _ _ _ _ _ cl Ec Hrad).
      split; reflexivity.
Qed.

Lemma particle_init_falsy_arguments_witness :
  (exists p,
     Particle.init (Vector2.mk 0 0) [235; 113; 20]%Z 3 (Some Vector2.zero)
       (Some Vector2.zero) (Some 0) still_source
     = Ok (p, Random.advance 1 still_source)
     /\ Particle.velocity p
        = Vector2.rotate (Vector2.mk PARTICLE_SPEED PARTICLE_SPEED)
            (Random.peek still_source * 360))
  /\ (exists p s',
        Particle.init (Vector2.mk 0 0) [235; 113; 20]%Z 3 (Some Vector2.zero)
          (Some Vector2.zero) (Some 0) still_source = Ok (p, s')
        /\ Particle.lifetime p = PARTICLE_LIFETIME)
  /\ (exists p s',
        Particle.init (Vector2.mk 0 0) [235; 113; 20]%Z 3 (Some Vector2.zero)
          (Some Vector2.zero) (Some 0) still_source = Ok (p, s')
        /\ Particle.gravity p = Vector2.zero)
  /\ (exists p s',
        Particle.init (Vector2.mk 0 0) [235; 113; 20]%Z 3 (Some Vector2.zero)
          None (Some 0) still_source = Ok (p, s')
        /\ Particle.gravity p = Vector2.mk 0 (1 / 10)).
Proof.
  destruct (particle_init_falsy_arguments (Vector2.mk 0 0) [235; 113; 20]%Z 3
              (Some Vector2.zero) (Some Vector2.zero) (Some 0) still_source)
    as [_ [_ H]].
  apply H; [lra |]. eexists. reflexivity.
Defined.

(** ** Computations that return *)

Lemma succeeds_ret {A : Type} (v : A) (Q : A -> Prop) : Q v -> succeeds (ret v) Q.
Proof. intros H s _. exists v, s. repeat split. exact H. Qed.

Lemma succeeds_bind {A B : Type} (m : M A) (f : A -> M B) (P : A -> Prop)
    (Q : B -> Prop) :
  succeeds m P -> (forall v, P v -> succeeds (f v) Q) -> succeeds (bind m f) Q.
Proof.
  intros Hm Hf s U. destruct (Hm s U) as [v [s1 [E [Pv D]]]].
  destruct (Hf v Pv s1 (unit_draws_same _ _ D U)) as [w [s2 [E2 [Qw D2]]]].
  exists w, s2. unfold bind. rewrite E. split; [exact E2 |].
  split; [exact Qw | congruence].
Qed.

Lemma succeeds_weaken {A : Type} (m : M A) (P Q : A -> Prop) :
  succeeds m P -> (forall v, P v -> Q v) -> succeeds m Q.
Proof.
  intros Hm H s U. destruct (Hm s U) as [v [s1 [E [Pv D]]]].
  exists v, s1. split; [exact E |]. split; [apply H; exact Pv | exact D].
Qed.

Lemma succeeds_lift {A : Type} (v : A) (Q : A -> Prop) : Q v -> succeeds (lift (Ok v)) Q.
Proof. intros H s _. exists v, s. repeat split. exact H. Qed.

Lemma succeeds_random : succeeds (draw Random.random) (fun u => 0 <= u < 1).
Proof.
  intros s U. exists (Random.peek s), (Random.advance 1 s).
  split; [reflexivity |]. split; [apply U | reflexivity].
Qed.

Lemma succeeds_choice_sign :
  succeeds (draw Random.choice_sign) (fun v => v = 1 \/ v = -1).
Proof.
  intros s U. eexists _, (Random.advance 1 s).
  split; [reflexivity |]. split; [| reflexivity].
  simpl. destruct (Rlt_dec (Random.peek s) (1 / 2)); [left | right]; reflexivity.
Qed.

Lemma succeeds_randint (lo hi : Z) :
  (lo <= hi)%Z -> succeeds (draw (Random.randint lo hi)) (fun z => (lo <= z <= hi)%Z).
Proof.
  intros H s U. eexists _, (Random.advance 1 s).
  split; [reflexivity |]. split; [| reflexivity].
  apply (randint_range lo hi s H (unit_draws_peek s U)).
Qed.

Lemma succeeds_mapM {A B : Type} (f : A -> M B) (Q : A -> B -> Prop) (l : list A) :
  (forall v, In v l -> succeeds (f v) (Q v)) ->
  succeeds (mapM f l) (Forall2 Q l).
Proof.
  induction l as [| v rest IH]; intro H; simpl.
  - apply succeeds_ret. constructor.
  - apply succeeds_bind with (P := Q v); [apply H; left; reflexivity |].
    intros w Qw.
    apply succeeds_bind with (P := Forall2 Q rest);
      [apply IH; intros x Hx; apply H; right; exact Hx |].
    intros ws Qws. apply succeeds_ret. constructor; assumption.
Qed.

Lemma succeeds_random_color :
  succeeds Arc.random_color
           (fun c => exists c1 c2 c3,
                       c = [c1; c2; c3]
                       /\ (50 <= c1 <= 255)%Z /\ (50 <= c2 <= 255)%Z
                       /\ (50 <= c3 <= 255)%Z).
Proof.
  unfold Arc.random_color.
  apply succeeds_bind with (P := fun z => (50 <= z <= 255)%Z);
    [apply succeeds_randint; lia | intros c1 H1].
  apply succeeds_bind with (P := fun z => (50 <= z <= 255)%Z);
    [apply succeeds_randint; lia | intros c2 H2].
  apply succeeds_bind with (P := fun z => (50 <= z <= 255)%Z);
    [apply succeeds_randint; lia | intros c3 H3].
  apply succeeds_ret. exists c1, c2, c3. repeat split; assumption || lia.
Qed.

Lemma drawn_channels_valid (c : list Z) :
  (exists c1 c2 c3,
     c = [c1; c2; c3]
     /\ (50 <= c1 <= 255)%Z /\ (50 <= c2 <= 255)%Z /\ (50 <= c3 <= 255)%Z) ->
  valid_color c.
Proof.
  intros [c1 [c2 [c3 [-> [H1 [H2 H3]]]]]].
  exists c1, c2, c3. unfold channel_ok.
  repeat split; apply andb_true_intro; split; apply Z.leb_le; lia.
Qed.

Lemma succeeds_random_speed :
  succeeds Arc.random_speed (fun v => PI / 300 <= Rabs v <= PI / 150).
Proof.
  unfold Arc.random_speed.
  apply succeeds_bind with (P := fun v => v = 1 \/ v = -1);
    [apply succeeds_choice_sign | intros sign Hs].
  apply succeeds_bind with (P := fun z => (150 <= z <= 300)%Z);
    [apply (succeeds_randint 150 300); lia | intros n [N0 N1]].
  apply succeeds_ret.
  apply IZR_le in N0, N1. pose proof PI_RGT_0 as P.
  assert (Pn : 0 < IZR n) by lra.
  assert (E : Rabs (sign * PI / IZR n) = PI / IZR n).
  { destruct Hs as [-> | ->].
    - rewrite Rabs_right; [field; lra |].
      apply Rle_ge. apply Rmult_le_pos; [lra |].
      apply Rlt_le, Rinv_0_lt_compat. exact Pn.
    - replace (-1 * PI / IZR n) with (- (PI / IZR n)) by (field; lra).
      rewrite Rabs_Ropp, Rabs_right; [reflexivity |].
      apply Rle_ge. apply Rmult_le_pos; [lra |].
      apply Rlt_le, Rinv_0_lt_compat. exact Pn. }
  rewrite E. split.
  - apply Rmult_le_reg_r with (IZR n * 300); [lra |].
    replace (PI / 300 * (IZR n * 300)) with (PI * IZR n) by field.
    replace (PI / IZR n * (IZR n * 300)) with (PI * 300) by (field; lra).
    apply Rmult_le_compat_l; lra.
  - apply Rmult_le_reg_r with (IZR n * 150); [lra |].
    replace (PI / 150 * (IZR n * 150)) with (PI * IZR n) by field.
    replace (PI / IZR n * (IZR n * 150)) with (PI * 150) by (field; lra).
    apply Rmult_le_compat_l; lra.
Qed.

Lemma succeeds_random_angle :
  succeeds Arc.random_angle (fun v => 0 <= v < 2 * PI).
Proof.
  unfold Arc.random_angle.
  apply succeeds_bind with (P := fun u => 0 <= u < 1);
    [apply succeeds_random | intros u [U0 U1]].
  apply succeeds_ret. pose proof PI_RGT_0 as P. split.
  - apply Rmult_le_pos; lra.
  - replace (2 * PI) with (1 * 2 * PI) by ring.
    apply Rmult_lt_compat_r; [lra |]. apply Rmult_lt_compat_r; lra.
Qed.

Lemma succeeds_arc_init (center : Point) (radius : R)
    (color : option (list Z)) (angle speed : option R) :
  0 <= radius ->
  color_arg_ok color ->
  succeeds (Arc.init center radius color angle speed)
           (fun arc =>
              Arc.circle arc = Circle.mk center radius
              /\ Arc.alive arc = true
              /\ stored_color color (Arc.color arc)
              /\ stored_speed speed (Arc.speed arc)
              /\ stored_angle angle (Arc.angle arc)).
Proof.
  intros Hrad Hcol. unfold Arc.init.
  apply succeeds_bind with (P := stored_color color).
  { destruct color as [[| c cs] |]; try apply succeeds_random_color.
    destruct (new_Color_of_valid _ Hcol) as [cl [E Ecl]].
    rewrite E.
    apply succeeds_bind with (P := fun v => v = cl);
      [apply succeeds_lift; reflexivity |].
    intros v ->. apply succeeds_ret. exact Ecl. }
  intros col Scol.
  apply succeeds_bind with (P := stored_speed speed).
  { unfold stored_speed.
    destruct speed as [v |]; [destruct (truthy v) |];
      try apply succeeds_random_speed.
    apply succeeds_ret. reflexivity. }
  intros spd Sspd.
  apply succeeds_bind with (P := stored_angle angle).
  { unfold stored_angle.
    destruct angle as [v |]; [destruct (truthy v) |];
      try apply succeeds_random_angle.
    apply succeeds_ret. reflexivity. }
  intros ang Sang.
  rewrite (new_Surface_square radius Hrad).
  apply succeeds_bind
    with (P := fun image => image = mkSurface (radius * 2) (radius * 2));
    [apply succeeds_lift; reflexivity |].
  intros image ->. rewrite Sprite_init_square.
  apply succeeds_bind
    with (P := fun sp => sp = Sprite.mk (Circle.mk center radius) true);
    [apply succeeds_lift; reflexivity |].
  intros sp ->. apply succeeds_ret.
  repeat split; assumption.
Qed.

(** X7: With a radius that is not negative and a colour pygame accepts, the
    constructor of an arc returns; the arc is alive, around the centre it
    was given; a truthy argument is stored as it is, and a drawn colour has
    its channels in 50..255, a drawn speed a magnitude between pi/300 and
    pi/150, a drawn angle lies in [0, 2 pi). *)
Theorem arc_init_succeeds (center : Point) (radius : R)
    (color : option (list Z)) (angle speed : option R) (s : Random.state) :
  0 <= radius ->
  color_arg_ok color ->
  Random.unit_draws s ->
  exists arc s',
    Arc.init center radius color angle speed s = Ok (arc, s')
    /\ Random.draws s' = Random.draws s
    /\ Circle.center (Arc.circle arc) = center
    /\ Arc.alive arc = true
    /\ stored_color color (Arc.color arc)
    /\ stored_speed speed (Arc.speed arc)
    /\ stored_angle angle (Arc.angle arc).
Proof.
  intros Hrad Hcol U.
  destruct (succeeds_arc_init center radius color angle speed Hrad Hcol s U)
    as [arc [s' [E [[Hc [Ha [Sc [Ss Sa]]]] D]]]].
  exists arc, s'. rewrite Hc. repeat split; assumption.
Qed.

Lemma arc_init_succeeds_witness :
  exists arc s',
    Arc.init (Vector2.mk 0 0) 10 (Some [200; 50; 30]%Z) None (Some 0) still_source
    = Ok (arc, s')
    /\ Random.draws s' = Random.draws still_source
    /\ Circle.center (Arc.circle arc) = Vector2.mk 0 0
    /\ Arc.alive arc = true
    /\ Arc.color arc = [200; 50; 30]%Z
    /\ PI / 300 <= Rabs (Arc.speed arc) <= PI / 150
    /\ 0 <= Arc.angle arc < 2 * PI.
Proof.
  destruct (arc_init_succeeds (Vector2.mk 0 0) 10 (Some [200; 50; 30]%Z) None
              (Some 0) still_source)
    as [arc [s' [E [D [Hc [Ha [Sc [Ss Sa]]]]]]]].
  - lra.
  - exact valid_color_wedge.
  - exact still_source_unit.
  - exists arc, s'. unfold stored_speed in Ss. rewrite truthy_zero in Ss.
    repeat split; try assumption; apply Ss || apply Sa.
Defined.

(** ** Layouts: [set_mode], the mode keys and the start of [main] *)

Lemma arc_radius_nonneg (center : Vector2) (i : nat) :
  0 <= arc_radius center 8 -> In i (seq 0 9) -> 0 <= arc_radius center i.
Proof.
  intros H Hi. apply in_seq in Hi.
  assert (L : (i <= 8)%nat) by lia. apply le_INR in L.
  rewrite (INR_IZR_INZ 8) in L. simpl in L.
  pose proof (pos_INR i) as P. unfold arc_radius, ARC_STEP in *.
  rewrite (INR_IZR_INZ 8) in H. simpl in H. lra.
Qed.

Lemma stored_color_valid (color : option (list Z)) (c : list Z) :
  color_arg_ok color -> stored_color color c -> valid_color c.
Proof.
  intros Hc Hs. destruct color as [[| x rest] |]; simpl in *.
  - apply drawn_channels_valid. exact Hs.
  - rewrite Hs. exact Hc.
  - apply drawn_channels_valid. exact Hs.
Qed.

(** The nine arcs of a layout, given what [set_mode] has drawn. *)
Lemma succeeds_layout (key : Key) (center : Vector2) (color : list Z)
    (angle speed : R) :
  key = K_1 \/ key = K_2 \/ key = K_3 ->
  0 <= arc_radius center 8 ->
  valid_color color ->
  speed <> 0 ->
  succeeds
    match key with
    | K_1 =>
        mapM (fun i => Arc.init center (arc_radius center i) None None None)
             (seq 0 9)
    | K_2 =>
        mapM (fun i => Arc.init center (arc_radius center i) (Some color)
                         (Some angle) (Some (speed + INR i / 2000))) (seq 0 9)
    | K_3 =>
        mapM (fun i => Arc.init center (arc_radius center i) (Some color)
                         (Some (angle + PI * INR (i mod 2)))
                         (Some (if Nat.eqb (i mod 2) 0 then - speed else speed)))
             (seq 0 9)
    | _ => ret []
    end
    (Forall2 (mode_arc key center color speed) (seq 0 9)).
Proof.
  intros Hk Hr Vc Ns.
  assert (Cok : color_arg_ok (Some color)).
  { destruct Vc as [cr [cg [cb [-> V]]]]. simpl. exists cr, cg, cb.
    split; [reflexivity | exact V]. }
  assert (Sc : forall c, stored_color (Some color) c -> c = color).
  { intros c H. destruct Vc as [cr [cg [cb [-> V]]]]. exact H. }
  destruct Hk as [-> | [-> | ->]]; apply succeeds_mapM; intros i Hi.
  - eapply succeeds_weaken;
      [apply succeeds_arc_init; [apply arc_radius_nonneg; assumption | exact I] |].
    intros arc [Hc [Ha [Hcol _]]]. split; [exact Hc |]. split; [exact Ha |].
    split; [apply (stored_color_valid None); [exact I | exact Hcol] |].
    split; [intros [D | D]; discriminate D | intro D; discriminate D].
  - eapply succeeds_weaken;
      [apply succeeds_arc_init; [apply arc_radius_nonneg; assumption | exact Cok] |].
    intros arc [Hc [Ha [Hcol _]]]. split; [exact Hc |]. split; [exact Ha |].
    split; [apply (stored_color_valid (Some color)); assumption |].
    split; [intros _; apply Sc; exact Hcol | intro D; discriminate D].
  - eapply succeeds_weaken;
      [apply succeeds_arc_init; [apply arc_radius_nonneg; assumption | exact Cok] |].
    intros arc [Hc [Ha [Hcol [Hsp _]]]]. split; [exact Hc |]. split; [exact Ha |].
    split; [apply (stored_color_valid (Some color)); assumption |].
    split; [intros _; apply Sc; exact Hcol |].
    intros _. unfold stored_speed in Hsp.
    destruct (Nat.eqb (i mod 2) 0).
    + rewrite truthy_nonzero in Hsp by lra. exact Hsp.
    + rewrite truthy_nonzero in Hsp by exact Ns. exact Hsp.
Qed.

Lemma drawn_speed_nonzero (v : R) : PI / 300 <= Rabs v <= PI / 150 -> v <> 0.
Proof.
  intros [L _] Z. subst v. rewrite Rabs_R0 in L. pose proof PI_RGT_0. lra.
Qed.

Lemma succeeds_set_mode (key : Key) (sprites : list SpriteRef) (center : Vector2) :
  key = K_1 \/ key = K_2 \/ key = K_3 ->
  0 <= arc_radius center 8 ->
  succeeds (set_mode key sprites center)
           (fun l => exists arcs color speed,
                       l = sprites ++ map RArc arcs
                       /\ speed <> 0
                       /\ Forall2 (mode_arc key center color speed) (seq 0 9) arcs).
Proof.
  intros Hk Hr. unfold set_mode.
  apply succeeds_bind with (P := valid_color).
  { eapply succeeds_weaken; [apply succeeds_random_color |].
    apply drawn_channels_valid. }
  intros color Vc.
  apply succeeds_bind with (P := fun _ => True).
  { eapply succeeds_weaken; [apply succeeds_random_angle | intros; exact I]. }
  intros angle _.
  apply succeeds_bind with (P := fun v => v <> 0).
  { eapply succeeds_weaken; [apply succeeds_random_speed |].
    apply drawn_speed_nonzero. }
  intros speed Ns.
  apply succeeds_bind
    with (P := Forall2 (mode_arc key center color speed) (seq 0 9)).
  - apply succeeds_layout; assumption.
  - intros arcs F. apply succeeds_ret. exists arcs, color, speed.
    split; [reflexivity |]. split; assumption.
Qed.

(** X8: A mode key on a screen large enough for the ninth arc always
    succeeds: the speed multiplier is back at 1, the particles are gone, the
    ball rests at the centre, and the group holds the ball and nine live arcs
    around the centre whose radii step down by [ARC_STEP] from
    [min(center) - 50], so that the last one is the innermost.  In modes 2 and
    3 the arcs share one colour; in mode 3 their speeds are mirrored from one
    arc to the next. *)
Theorem mode_switch (key : Key) (st : Sim) (s : Random.state) :
  key = K_1 \/ key = K_2 \/ key = K_3 ->
  0 <= arc_radius (center st) 8 ->
  Random.unit_draws s ->
  exists st' s' arcs color speed,
    handle_event (KEYDOWN key) st s = Ok (st', s')
    /\ speed_mult st' = 1
    /\ particles st' = []
    /\ center st' = center st
    /\ destroy_on_collide st' = destroy_on_collide st
    /\ Ball.velocity (ball st') = Vector2.zero
    /\ Ball.circle (ball st')
       = Circle.mk (center st) (Circle.radius (Ball.circle (ball st)))
    /\ all_sprites st' = RBall :: map RArc arcs
    /\ length arcs = 9%nat
    /\ speed <> 0
    /\ Forall2 (mode_arc key (center st) color speed) (seq 0 9) arcs.
Proof.
  intros Hk Hr U.
  destruct (succeeds_set_mode key [RBall] (center st) Hk Hr s U)
    as [l [s' [E [[arcs [color [speed [-> [Ns F]]]]] _]]]].
  exists (mkSim 1 (running st) (center st) (destroy_on_collide st)
            (particles_on_cursor st) (Ball.reset (ball st) (center st))
            ([RBall] ++ map RArc arcs) []),
    s', arcs, color, speed.
  split.
  - destruct Hk as [-> | [-> | ->]]; cbn [handle_event]; unfold bind; rewrite E;
      reflexivity.
  - repeat split; try assumption.
    apply Forall2_length in F. rewrite length_seq in F. symmetry. exact F.
Qed.

Lemma mode_switch_witness :
  exists st' s' arcs color speed,
    handle_event (KEYDOWN K_3)
      (mkSim 2 true (Vector2.mk 960 540) true false (ball_at 900 500 (25 / 2) 3 4)
         [RBall] [short_lived]) still_source
    = Ok (st', s')
    /\ speed_mult st' = 1
    /\ particles st' = []
    /\ Ball.velocity (ball st') = Vector2.zero
    /\ Ball.circle (ball st') = Circle.mk (Vector2.mk 960 540) (25 / 2)
    /\ all_sprites st' = RBall :: map RArc arcs
    /\ length arcs = 9%nat
    /\ speed <> 0
    /\ Forall2 (mode_arc K_3 (Vector2.mk 960 540) color speed) (seq 0 9) arcs.
Proof.
  destruct (mode_switch K_3
              (mkSim 2 true (Vector2.mk 960 540) true false
                 (ball_at 900 500 (25 / 2) 3 4) [RBall] [short_lived])
              still_source)
    as [st' [s' [arcs [color [speed [E [H1 [H2 [_ [_ [H5 [H6 [H7 [H8 [H9 H10]]]]]]]]]]]]]]].
  - right. right. reflexivity.
  - unfold arc_radius, py_min, ARC_STEP. cbn [center Vector2.x Vector2.y].
    rewrite (INR_IZR_INZ 8). simpl.
    destruct (Rlt_dec 540 960); lra.
  - exact still_source_unit.
  - exists st', s', arcs, color, speed. repeat split; assumption.
Defined.

(** X9: [main] enters its loop, on a screen large enough for the ninth arc,
    with the speed multiplier 1, both modes off, no particles, the ball at
    rest at the centre with radius [BALL_RADIUS], and behind it nine live arcs
    around the centre with radii stepping down from [min(center) - 50]. *)
Theorem main_init_layout (center0 : Vector2) (s : Random.state) :
  0 <= arc_radius center0 8 ->
  Random.unit_draws s ->
  exists st s' arcs,
    main_init center0 s = Ok (st, s')
    /\ speed_mult st = 1
    /\ running st = true
    /\ destroy_on_collide st = false
    /\ particles_on_cursor st = false
    /\ particles st = []
    /\ center st = center0
    /\ ball st = Ball.mk (Sprite.mk (Circle.mk center0 BALL_RADIUS) true) Vector2.zero
    /\ all_sprites st = RBall :: map RArc arcs
    /\ length arcs = 9%nat
    /\ Forall2 (fun i arc =>
                  Arc.circle arc = Circle.mk center0 (arc_radius center0 i)
                  /\ Arc.alive arc = true
                  /\ valid_color (Arc.color arc)) (seq 0 9) arcs.
Proof.
  intros Hr U.
  assert (L : succeeds
                (mapM (fun i => Arc.init center0 (arc_radius center0 i)
                                  None None None) (seq 0 9))
                (Forall2 (fun i arc =>
                            Arc.circle arc = Circle.mk center0 (arc_radius center0 i)
                            /\ Arc.alive arc = true
                            /\ valid_color (Arc.color arc)) (seq 0 9))).
  { apply succeeds_mapM. intros i Hi.
    eapply succeeds_weaken;
      [apply succeeds_arc_init; [apply arc_radius_nonneg; assumption | exact I] |].
    intros arc [Hc [Ha [Hcol _]]]. split; [exact Hc |]. split; [exact Ha |].
    apply (stored_color_valid None); [exact I | exact Hcol]. }
  destruct (L s U) as [arcs [s' [E [F _]]]].
  assert (B : Ball.init center0 BALL_RADIUS
              = Ok (Ball.mk (Sprite.mk (Circle.mk center0 BALL_RADIUS) true)
                      Vector2.zero)).
  { unfold Ball.init, rbind.
    rewrite new_Surface_square by (unfold BALL_RADIUS; lra).
    rewrite Sprite_init_square. reflexivity. }
  exists (mkSim 1 true center0 false false
            (Ball.mk (Sprite.mk (Circle.mk center0 BALL_RADIUS) true) Vector2.zero)
            (RBall :: map RArc arcs) []),
    s', arcs.
  split.
  - unfold main_init, bind, lift. rewrite B, E. reflexivity.
  - repeat split; try assumption.
    apply Forall2_length in F. rewrite length_seq in F. symmetry. exact F.
Qed.

Lemma main_init_layout_witness :
  exists st s' arcs,
    main_init (Vector2.mk 960 540) still_source = Ok (st, s')
    /\ speed_mult st = 1
    /\ particles st = []
    /\ ball st
       = Ball.mk (Sprite.mk (Circle.mk (Vector2.mk 960 540) BALL_RADIUS) true)
           Vector2.zero
    /\ all_sprites st = RBall :: map RArc arcs
    /\ length arcs = 9%nat.
Proof.
  destruct (main_init_layout (Vector2.mk 960 540) still_source)
    as [st [s' [arcs [E [H1 [_ [_ [_ [H5 [_ [H7 [H8 [H9 _]]]]]]]]]]]]].
  - unfold arc_radius, py_min, ARC_STEP. cbn [Vector2.x Vector2.y].
    rewrite (INR_IZR_INZ 8). simpl.
    destruct (Rlt_dec 540 960); lra.
  - exact still_source_unit.
  - exists st, s', arcs. repeat split; assumption.
Defined.

(** ** The groups: [Group.update] *)

Lemma filter_none {A : Type} (f : A -> bool) (l : list A) :
  (forall v, In v l -> f v = false) -> filter f l = [].
Proof.
  induction l as [| v rest IH]; intro H; [reflexivity |].
  simpl. rewrite (H v (or_introl eq_refl)). apply IH.
  intros w Hw. apply H. right. exact Hw.
Qed.

Lemma filter_all {A : Type} (f : A -> bool) (l : list A) :
  (forall v, In v l -> f v = true) -> filter f l = l.
Proof.
  induction l as [| v rest IH]; intro H; [reflexivity |].
  simpl. rewrite (H v (or_introl eq_refl)). f_equal. apply IH.
  intros w Hw. apply H. right. exact Hw.
Qed.

Lemma update_particles_filter (mult : R) (l : list Particle.t) :
  update_particles mult l = map (Particle.update mult) (filter Particle.alive l).
Proof.
  induction l as [| p rest IH]; [reflexivity |].
  simpl. destruct (Particle.alive p); simpl; rewrite IH; reflexivity.
Qed.

Lemma run_particles_app (m1 m2 : list R) (l : list Particle.t) :
  run_particles (m1 ++ m2) l = run_particles m2 (run_particles m1 l).
Proof.
  revert l. induction m1 as [| m rest IH]; intro l; [reflexivity |].
  simpl. apply IH.
Qed.

Lemma run_particles_origin (mults : list R) (l : list Particle.t) (p' : Particle.t) :
  In p' (run_particles mults l) ->
  exists p, In p l /\ p' = Particle.updates mults p.
Proof.
  revert l. induction mults as [| m rest IH]; intros l H.
  - exists p'. split; [exact H | reflexivity].
  - cbn [run_particles] in H. destruct (IH _ H) as [q [Hq ->]].
    rewrite update_particles_filter in Hq. apply in_map_iff in Hq.
    destruct Hq as [p [<- Hp]]. apply filter_In in Hp.
    exists p. split; [apply Hp | reflexivity].
Qed.

(** X10: A pass of [Group.update] over the particles updates the live ones in
    order and drops the dead ones without updating them; what it leaves is
    alive exactly when its lifetime is still positive.  So with a speed
    multiplier of 1 or more on every tick, every particle is gone one pass
    after as many ticks as the longest lifetime. *)
Theorem particles_lazy_removal (mult : R) (mults : list R) (l : list Particle.t) :
  update_particles mult l = map (Particle.update mult) (filter Particle.alive l)
  /\ Forall (fun p => Particle.alive p = true <-> 0 < Particle.lifetime p)
            (update_particles mult l)
  /\ (mults <> [] ->
      Forall (fun m => 1 <= m) mults ->
      Forall (fun p => Particle.lifetime p <= INR (length mults)) l ->
      run_particles (mults ++ [mult]) l = []).
Proof.
  split; [apply update_particles_filter |]. split.
  - rewrite update_particles_filter. apply Forall_forall. intros p' Hp'.
    apply in_map_iff in Hp'. destruct Hp' as [p [<- Hp]].
    apply filter_In in Hp. destruct Hp as [_ Al].
    rewrite update_alive, Al, update_lifetime.
    destruct (Rle_dec (Particle.lifetime p - mult) 0); split; intro H;
      try discriminate H; try reflexivity; lra.
  - intros NE F B. rewrite run_particles_app. cbn [run_particles].
    rewrite update_particles_filter.
    replace (filter Particle.alive (run_particles mults l)) with (@nil Particle.t);
      [reflexivity |].
    symmetry. apply filter_none. intros p' Hp'.
    destruct (run_particles_origin _ _ _ Hp') as [p [Hp ->]].
    pose proof (Rsum_at_least_length mults F) as S.
    rewrite updates_dead; [reflexivity | exact NE | |].
    + eapply Forall_impl; [| exact F]. intros m Hm. simpl in Hm. lra.
    + rewrite Forall_forall in B. specialize (B p Hp). simpl in B. lra.
Qed.

Lemma particles_lazy_removal_witness :
  run_particles ([1; 1] ++ [1]) [short_lived] = [].
Proof.
  destruct (particles_lazy_removal 1 [1; 1] [short_lived]) as [_ [_ H]].
  apply H.
  - discriminate.
  - repeat constructor; lra.
  - constructor; [simpl; lra | constructor].
Defined.

Lemma update_sprites_arcs_filter (mult : R) (ball : Ball.t) (arcs : list Arc.t) :
  update_sprites mult ball (map RArc arcs)
  = (ball, map RArc (map (Arc.update mult) (filter Arc.alive arcs))).
Proof.
  induction arcs as [| arc rest IH]; [reflexivity |].
  simpl. rewrite IH. destruct (Arc.alive arc); reflexivity.
Qed.

(** X11: A pass of [Group.update] over the group of [main] updates the ball and
    the live arcs and drops the dead arcs: the arc [break_arc] has killed is
    gone at the next pass, and the arc before it is the last of the group. *)
Theorem broken_arc_removed (mult : R) (ball : Ball.t) (arcs : list Arc.t)
    (arc : Arc.t) :
  Sprite.alive (Ball.sprite ball) = true ->
  update_sprites mult ball (RBall :: map RArc arcs)
  = (Ball.update mult ball,
     RBall :: map RArc (map (Arc.update mult) (filter Arc.alive arcs)))
  /\ (Forall (fun a => Arc.alive a = true) arcs ->
      update_sprites mult ball (RBall :: map RArc (arcs ++ [Arc.kill arc]))
      = (Ball.update mult ball, RBall :: map RArc (map (Arc.update mult) arcs))).
Proof.
  intro Al.
  assert (G : forall l,
             update_sprites mult ball (RBall :: map RArc l)
             = (Ball.update mult ball,
                RBall :: map RArc (map (Arc.update mult) (filter Arc.alive l)))).
  { intro l. cbn [update_sprites]. rewrite Al, update_sprites_arcs_filter.
    reflexivity. }
  split; [apply G |].
  intro F. rewrite G, filter_app. cbn [filter].
  change (Arc.alive (Arc.kill arc)) with false.
  rewrite app_nil_r.
  replace (filter Arc.alive arcs) with arcs; [reflexivity |].
  symmetry. apply filter_all. rewrite Forall_forall in F. exact F.
Qed.

(** ** The outcomes of a collision *)

Lemma break_arc_loop_adds (n : nat) (arc : Arc.t) (center : Vector2) :
  forall (ps ps' : list Particle.t) (s s' : Random.state),
    break_arc_loop n arc ps center s = Ok (ps', s') ->
    exists new, ps' = ps ++ new /\ length new = n.
Proof.
  induction n as [| n IH]; intros ps ps' s s' E.
  - simpl in E. unfold ret in E. injection E as <- _.
    exists []. split; [symmetry; apply app_nil_r | reflexivity].
  - cbn [break_arc_loop] in E. unfold bind in E.
    destruct (spawn_particle arc center s) as [[p s1] | e]; [| discriminate].
    destruct (IH _ _ _ _ E) as [new [-> L]].
    exists (p :: new). split; [rewrite <- app_assoc; reflexivity |].
    simpl. rewrite L. reflexivity.
Qed.

Lemma break_arc_adds (arc arc' : Arc.t) (ps ps' : list Particle.t)
    (center : Vector2) (s s' : Random.state) :
  break_arc arc ps center s = Ok ((arc', ps'), s') ->
  arc' = Arc.kill arc
  /\ exists new, ps' = ps ++ new /\ length new = PARTICLE_AMOUNT.
Proof.
  intro E. split; [apply (break_arc_kills _ _ _ _ _ _ _ E) |].
  unfold break_arc, bind, ret in E.
  destruct (break_arc_loop PARTICLE_AMOUNT (Arc.kill arc) ps center s)
    as [[l s1] | e] eqn:L; [| discriminate].
  injection E as _ <- _. apply (break_arc_loop_adds _ _ _ _ _ _ _ L).
Qed.

Lemma reflect_degenerate (ball : Ball.t) (circle : Circle) (s : Random.state) :
  Circle.center circle = Circle.center (Ball.circle ball)
  \/ Ball.velocity ball = Vector2.zero ->
  Ball.reflect ball circle s = Raise ValueError.
Proof.
  intro H. unfold Ball.reflect, bind, lift, draw, ret, Random.random.
  destruct (normalize_outcome
              (Vector2.mk
                 (Vector2.x (Circle.center circle)
                  - Vector2.x (Circle.center (Ball.circle ball)))
                 (Vector2.y (Circle.center circle)
                  - Vector2.y (Circle.center (Ball.circle ball)))))
    as [[_ ->] | [Nn ->]]; [reflexivity |].
  destruct H as [C | Z].
  - exfalso. apply Nn. apply difference_zero. exact C.
  - rewrite Z, normalize_zero. reflexivity.
Qed.

Lemma reflect_returns_speed (ball ball' : Ball.t) (circle : Circle)
    (s s' : Random.state) :
  Ball.reflect ball circle s = Ok (ball', s') ->
  Vector2.length (Ball.velocity ball') = Vector2.length (Ball.velocity ball).
Proof.
  intro E.
  destruct (vector_eq_dec (Circle.center circle) (Circle.center (Ball.circle ball)))
    as [C | C];
    [rewrite (reflect_degenerate _ _ _ (or_introl C)) in E; discriminate E |].
  destruct (vector_eq_dec (Ball.velocity ball) Vector2.zero) as [Z | N];
    [rewrite (reflect_degenerate _ _ _ (or_intror Z)) in E; discriminate E |].
  destruct (reflect_moving ball circle s N C) as [v [E' L]].
  rewrite E' in E. injection E as <- _. exact L.
Qed.

(** X12: The block of the collision check, when it returns.  If the mask test
    misses, the arc is killed, exactly [PARTICLE_AMOUNT] particles are added
    and the ball is left as [collide_ball] moved it; if it hits and the
    destroy mode is off, the arc and the particles are untouched and the ball
    is the one [Ball.reflect] returns for the ball [collide_ball] moved and
    the circle of the arc, at unchanged speed; if it hits and the mode is on,
    both happen, the fracture first.  Nothing else of the state changes. *)
Theorem collision_outcomes (collide_mask : Arc.t -> Ball.t -> bool)
    (arc : Arc.t) (st st' : Sim) (s s' : Random.state) :
  resolve collide_mask arc st s = Ok (st', s') ->
  exists hit ball1,
    Arc.collide_ball collide_mask arc (ball st) = Ok (hit, ball1)
    /\ (hit = false \/ destroy_on_collide st = true ->
        all_sprites st' = removelast (all_sprites st) ++ [RArc (Arc.kill arc)]
        /\ exists new,
             particles st' = particles st ++ new
             /\ length new = PARTICLE_AMOUNT)
    /\ (hit = true /\ destroy_on_collide st = false ->
        all_sprites st' = removelast (all_sprites st) ++ [RArc arc]
        /\ particles st' = particles st /\ s' = Random.advance 1 s)
    /\ (hit = true ->
        (exists s1,
           Ball.reflect ball1 (Arc.circle arc) s1 = Ok (ball st', s')
           /\ (if destroy_on_collide st
               then break_arc arc (particles st) (center st) s
                    = Ok ((Arc.kill arc, particles st'), s1)
               else s1 = s))
        /\ Vector2.length (Ball.velocity (ball st'))
           = Vector2.length (Ball.velocity (ball st)))
    /\ (hit = false ->
        ball st' = ball1
        /\ break_arc arc (particles st) (center st) s
           = Ok ((Arc.kill arc, particles st'), s'))
    /\ speed_mult st' = speed_mult st
    /\ center st' = center st
    /\ destroy_on_collide st' = destroy_on_collide st.
Proof.
  unfold resolve. unfold bind at 1. unfold lift at 1.
  destruct (Arc.collide_ball collide_mask arc (ball st)) as [[hit ball1] | e] eqn:Ec;
    [| discriminate].
  assert (V1 : Ball.velocity ball1 = Ball.velocity (ball st)).
  { unfold Arc.collide_ball, rbind in Ec.
    destruct (Vector2.normalize (Ball.velocity (ball st))); [| discriminate].
    injection Ec as _ <-. reflexivity. }
  intro E. exists hit, ball1. split; [reflexivity |].
  destruct hit.
  - unfold bind at 1 in E. destruct (destroy_on_collide st) eqn:Ed.
    + destruct (break_arc arc (particles st) (center st) s)
        as [[[arc1 ps1] s1] | e] eqn:B; [| discriminate].
      destruct (break_arc_adds _ _ _ _ _ _ _ B) as [-> Hnew].
      unfold bind in E.
      destruct (Ball.reflect ball1 (Arc.circle (Arc.kill arc)) s1)
        as [[ball2 s2] | e] eqn:Er; [| discriminate].
      unfold ret in E. injection E as <- <-. cbn.
      pose proof (reflect_returns_speed _ _ _ _ _ Er) as L.
      split; [intros _; split; [reflexivity | exact Hnew] |].
      split; [intros [_ D]; discriminate D |].
      split; [intros _; split;
              [exists s1; split; [exact Er | reflexivity] | congruence] |].
      split; [intro D; discriminate D |].
      repeat split; try assumption; try (symmetry; assumption).
    + unfold ret at 1 in E. unfold bind in E.
      destruct (Ball.reflect ball1 (Arc.circle arc) s) as [[ball2 s2] | e] eqn:Er;
        [| discriminate].
      unfold ret in E. injection E as <- <-. cbn.
      pose proof (reflect_returns_speed _ _ _ _ _ Er) as L.
      assert (S2 : s2 = Random.advance 1 s).
      { destruct (vector_eq_dec (Circle.center (Arc.circle arc))
                    (Circle.center (Ball.circle ball1))) as [C | C];
          [rewrite (reflect_degenerate _ _ _ (or_introl C)) in Er; discriminate Er |].
        destruct (vector_eq_dec (Ball.velocity ball1) Vector2.zero) as [Z | N];
          [rewrite (reflect_degenerate _ _ _ (or_intror Z)) in Er; discriminate Er |].
        destruct (reflect_moving ball1 (Arc.circle arc) s N C) as [v [E' _]].
        rewrite E' in Er. injection Er as _ <-. reflexivity. }
      split; [intros [D | D]; discriminate D |].
      split; [intros _; repeat split; exact S2 |].
      split; [intros _; split;
              [exists s; split; [exact Er | reflexivity] | congruence] |].
      split; [intro D; discriminate D |].
      repeat split; try assumption; try (symmetry; assumption).
  - unfold bind in E.
    destruct (break_arc arc (particles st) (center st) s)
      as [[[arc1 ps1] s1] | e] eqn:B; [| discriminate].
    destruct (break_arc_adds _ _ _ _ _ _ _ B) as [-> Hnew].
    unfold ret in E. injection E as <- <-. cbn.
    split; [intros _; split; [reflexivity | exact Hnew] |].
    split; [intros [D _]; discriminate D |].
    split; [intro D; discriminate D |].
    split; [intros _; split; reflexivity |]. repeat split.
Qed.

Lemma one_arc_state_resolves :
  exists st' s',
    resolve (fun _ _ => true) (arc_at 0 0 10 1) one_arc_state still_source
    = Ok (st', s').
Proof.
  assert (N : Ball.velocity (ball one_arc_state) <> Vector2.zero)
    by (apply vector_neq_zero_y; lra).
  unfold resolve. unfold bind at 1. unfold lift at 1.
  rewrite (collide_ball_moving _ _ _ N).
  cbn [destroy_on_collide one_arc_state]. unfold bind at 1. unfold ret at 1.
  match goal with
  | |- context [Ball.reflect ?b ?c] =>
      destruct (reflect_moving b c still_source) as [v [E _]]
  end.
  - apply vector_neq_zero_y. lra.
  - cbn. intro E. injection E as Ex _.
    unfold Rdiv in Ex. rewrite Rmult_0_l, Rmult_0_l in Ex. lra.
  - unfold bind. rewrite E. unfold ret. eexists _, _. reflexivity.
Qed.

Lemma collision_outcomes_witness :
  exists st' s' ball1,
    resolve (fun _ _ => true) (arc_at 0 0 10 1) one_arc_state still_source
    = Ok (st', s')
    /\ Arc.collide_ball (fun _ _ => true) (arc_at 0 0 10 1) (ball one_arc_state)
       = Ok (true, ball1)
    /\ Ball.reflect ball1 (Arc.circle (arc_at 0 0 10 1)) still_source
       = Ok (ball st', s')
    /\ all_sprites st' = [RBall; RArc (arc_at 0 0 10 1)]
    /\ particles st' = []
    /\ s' = Random.advance 1 still_source
    /\ Vector2.length (Ball.velocity (ball st'))
       = Vector2.length (Vector2.mk 0 1).
Proof.
  destruct one_arc_state_resolves as [st' [s' E]].
  destruct (collision_outcomes _ _ _ _ _ _ E)
    as [hit [ball1 [Ec [_ [H2 [H3 _]]]]]].
  assert (Hh : hit = true).
  { rewrite collide_ball_moving in Ec by (apply vector_neq_zero_y; lra).
    injection Ec as <- _. reflexivity. }
  subst hit.
  destruct (H2 (conj eq_refl eq_refl)) as [Hs [Hp Hd]].
  destruct (H3 eq_refl) as [[s1 [Er Hs1]] HL].
  cbn [destroy_on_collide one_arc_state] in Hs1. subst s1.
  exists st', s', ball1. split; [exact E |]. split; [exact Ec |].
  split; [exact Er |]. split; [exact Hs |].
  split; [exact Hp |]. split; [exact Hd | exact HL].
Defined.

(** ** Particles of the mouse *)

Lemma succeeds_particle_init (center : Point) (cr cg cb : Z) (radius : R)
    (velocity gravity : option Vector2) (lifetime : option R) :
  channel_ok cr = true -> channel_ok cg = true -> channel_ok cb = true ->
  0 <= radius ->
  succeeds (Particle.init center [cr; cg; cb] radius velocity gravity lifetime)
           (fun p =>
              Particle.sprite p = Sprite.mk (Circle.mk center radius) true
              /\ Particle.color p = mkColor cr cg cb 255
              /\ Particle.lifetime p = initial_lifetime lifetime
              /\ Particle.gravity p = initial_gravity gravity
              /\ (forall v, velocity = Some v -> Vector2.nonzero v = true ->
                            Particle.velocity p = v)).
Proof.
  intros Hr Hg Hb Hrad s U.
  eexists _, _. split; [apply particle_init_ok; assumption |].
  split.
  - cbn. repeat split. intros v -> NZ. unfold initial_velocity. rewrite NZ.
    reflexivity.
  - unfold initial_velocity.
    destruct velocity as [v |]; [destruct (Vector2.nonzero v) |]; reflexivity.
Qed.

Lemma Forall2_right {A B : Type} (P : B -> Prop) (l : list A) (l' : list B) :
  Forall2 (fun _ w => P w) l l' -> Forall P l'.
Proof. intro F. induction F; constructor; assumption. Qed.

Lemma channel_ok_range (c : Z) : (0 <= c <= 255)%Z -> channel_ok c = true.
Proof.
  intro H. unfold channel_ok. apply andb_true_intro. split; apply Z.leb_le; lia.
Qed.

Lemma succeeds_click_particle (mouse_pos : Point) :
  succeeds (click_particle mouse_pos) (click_spark mouse_pos).
Proof.
  unfold click_particle.
  apply succeeds_bind with (P := fun z => (-20 <= z <= 20)%Z);
    [apply succeeds_randint; lia | intros c1 H1].
  apply succeeds_bind with (P := fun z => (-20 <= z <= 20)%Z);
    [apply succeeds_randint; lia | intros c2 H2].
  apply succeeds_bind with (P := fun z => (-20 <= z <= 20)%Z);
    [apply succeeds_randint; lia | intros c3 H3].
  apply succeeds_bind with (P := fun z => (2 <= z <= 5)%Z);
    [apply succeeds_randint; lia | intros size [S0 S1]].
  apply succeeds_bind with (P := fun u => 0 <= u < 1);
    [apply succeeds_random | intros u Hu].
  apply succeeds_bind with (P := fun u => 0 <= u < 1);
    [apply succeeds_random | intros w Hw].
  apply succeeds_bind with (P := fun z => (30 <= z <= 60)%Z);
    [apply succeeds_randint; lia | intros life [L0 L1]].
  apply IZR_le in S0, S1, L0, L1.
  eapply succeeds_weaken.
  - apply succeeds_particle_init; try (apply channel_ok_range; lia). lra.
  - intros p [Hsp [Hcol [Hlife [Hgrav Hvel]]]].
    assert (NZ : Vector2.nonzero (Vector2.mk ((u - 5 / 10) * 2) (-1)) = true).
    { unfold Vector2.nonzero. simpl. rewrite (truthy_nonzero (-1)) by lra.
      apply orb_true_r. }
    specialize (Hvel _ eq_refl NZ).
    unfold initial_lifetime in Hlife. rewrite truthy_nonzero in Hlife by lra.
    unfold click_spark, Particle.circle, Particle.alive.
    rewrite Hsp, Hcol, Hlife, Hgrav, Hvel.
    cbn [Sprite.circle Sprite.alive Circle.center Circle.radius r g b a
         Vector2.x Vector2.y initial_gravity].
    repeat split; try lra; try lia.
Qed.

(** X14: A left click always succeeds and adds exactly 40 sparks at the mouse:
    the jitter of 20 keeps every colour channel within 0..255, so pygame
    never refuses the colour.  The middle button sets the speed multiplier
    to 1, any other button changes nothing; neither draws. *)
Theorem click_burst (button : Z) (mouse_pos : Point) (st : Sim) (s : Random.state) :
  Random.unit_draws s ->
  (button = 1%Z ->
   exists new s',
     handle_event (MOUSEBUTTONDOWN button mouse_pos) st s
     = Ok (with_particles st (particles st ++ new), s')
     /\ Random.draws s' = Random.draws s
     /\ length new = 40%nat
     /\ Forall (click_spark mouse_pos) new)
  /\ (button = 2%Z ->
      handle_event (MOUSEBUTTONDOWN button mouse_pos) st s
      = Ok (with_speed_mult st 1, s))
  /\ (button <> 1%Z -> button <> 2%Z ->
      handle_event (MOUSEBUTTONDOWN button mouse_pos) st s = Ok (st, s)).
Proof.
  intro U. split; [| split].
  - intros ->.
    destruct (succeeds_mapM (fun _ : nat => click_particle mouse_pos)
                (fun _ => click_spark mouse_pos) (seq 0 40)
                (fun _ _ => succeeds_click_particle mouse_pos) s U)
      as [new [s' [E [F D]]]].
    exists new, s'. split; [| split; [exact D | split]].
    + cbn [handle_event]. change (1 =? 1)%Z with true. cbv iota.
      unfold bind. rewrite E. reflexivity.
    + apply Forall2_length in F. rewrite length_seq in F. symmetry. exact F.
    + apply (Forall2_right _ _ _ F).
  - intros ->. reflexivity.
  - intros N1 N2. cbn [handle_event].
    apply Z.eqb_neq in N1, N2. rewrite N1, N2. reflexivity.
Qed.

Lemma click_burst_witness :
  exists new s',
    handle_event (MOUSEBUTTONDOWN 1 (Vector2.mk 100 200)) one_arc_state still_source
    = Ok (with_particles one_arc_state (particles one_arc_state ++ new), s')
    /\ length new = 40%nat
    /\ Forall (click_spark (Vector2.mk 100 200)) new.
Proof.
  destruct (click_burst 1 (Vector2.mk 100 200) one_arc_state still_source
              still_source_unit) as [H _].
  destruct (H eq_refl) as [new [s' [E [_ [L F]]]]].
  exists new, s'. repeat split; assumption.
Defined.

Lemma succeeds_cursor_particle (mouse_pos : Point) (color : list Z) :
  valid_color color ->
  succeeds (cursor_particle mouse_pos color) (trail_particle mouse_pos color).
Proof.
  intros [cr [cg [cb [-> [Hr [Hg Hb]]]]]]. unfold cursor_particle.
  apply succeeds_bind with (P := fun z => (2 <= z <= 5)%Z);
    [apply succeeds_randint; lia | intros size [S0 S1]].
  apply succeeds_bind with (P := fun u => 0 <= u < 1);
    [apply succeeds_random | intros u Hu].
  apply succeeds_bind with (P := fun z => (0 <= z <= 360)%Z);
    [apply succeeds_randint; lia | intros deg _].
  apply succeeds_bind with (P := fun z => (30 <= z <= 60)%Z);
    [apply succeeds_randint; lia | intros life [L0 L1]].
  apply IZR_le in S0, S1, L0, L1.
  eapply succeeds_weaken.
  - apply succeeds_particle_init; try assumption. lra.
  - intros p [Hsp [Hcol [Hlife [Hgrav _]]]].
    unfold initial_lifetime in Hlife. rewrite truthy_nonzero in Hlife by lra.
    unfold trail_particle, Particle.circle, Particle.alive.
    rewrite Hsp, Hcol, Hlife, Hgrav.
    cbn [Sprite.circle Sprite.alive Circle.center Circle.radius r g b a
         Vector2.x Vector2.y initial_gravity].
    repeat split; lra.
Qed.

(** X15: A mouse move with the cursor mode on always succeeds and adds exactly
    5 particles at the mouse, all of one drawn colour with channels in
    50..255; with the mode off it changes nothing and draws nothing. *)
Theorem cursor_trail (mouse_pos : Point) (st : Sim) (s : Random.state) :
  Random.unit_draws s ->
  (particles_on_cursor st = true ->
   exists color new s',
     handle_event (MOUSEMOTION mouse_pos) st s
     = Ok (with_particles st (particles st ++ new), s')
     /\ Random.draws s' = Random.draws s
     /\ stored_color None color
     /\ length new = 5%nat
     /\ Forall (trail_particle mouse_pos color) new)
  /\ (particles_on_cursor st = false ->
      handle_event (MOUSEMOTION mouse_pos) st s = Ok (st, s)).
Proof.
  intro U. split.
  - intro On.
    destruct (succeeds_random_color s U) as [color [s1 [Ec [Hc D1]]]].
    destruct (succeeds_mapM (fun _ : nat => cursor_particle mouse_pos color)
                (fun _ => trail_particle mouse_pos color) (seq 0 5)
                (fun _ _ => succeeds_cursor_particle mouse_pos color
                              (drawn_channels_valid _ Hc))
                s1 (unit_draws_same _ _ D1 U))
      as [new [s' [E [F D]]]].
    exists color, new, s'. split; [| split; [congruence | split; [exact Hc | split]]].
    + cbn [handle_event]. unfold with_particles. rewrite On.
      unfold bind at 1. rewrite Ec. unfold bind. rewrite E. reflexivity.
    + apply Forall2_length in F. rewrite length_seq in F. symmetry. exact F.
    + apply (Forall2_right _ _ _ F).
  - intro Off. cbn [handle_event]. rewrite Off. reflexivity.
Qed.

Lemma cursor_trail_witness :
  exists color new s',
    handle_event (MOUSEMOTION (Vector2.mk 100 200)) trail_state still_source
    = Ok (with_particles trail_state (particles trail_state ++ new), s')
    /\ length new = 5%nat
    /\ Forall (trail_particle (Vector2.mk 100 200) color) new.
Proof.
  destruct (cursor_trail (Vector2.mk 100 200) trail_state still_source
              still_source_unit) as [H _].
  destruct (H eq_refl) as [color [new [s' [E [_ [_ [L F]]]]]]].
  exists color, new, s'. repeat split; assumption.
Defined.

(** ** A round of the loop *)

Lemma two_arc_state_well_formed : well_formed two_arc_state.
Proof.
  split; [reflexivity |]. split; [simpl; lra |].
  exists [arc_at 0 0 50 1; arc_at 0 0 10 1]. split; [reflexivity |].
  constructor; [| constructor; [| constructor]];
    (split; [reflexivity |]; split; [simpl; lra | exact valid_color_wedge]).
Qed.

(** A round in which everything happens: key 4 switches the destroy mode
    on, the wheel moves the speed multiplier, the groups are updated, the
    ball is found across the innermost circle, the mask test hits, the arc
    is broken into [PARTICLE_AMOUNT] particles and the ball reflected. *)
Lemma two_arc_state_tick :
  exists st' s',
    tick (fun _ _ => true) [KEYDOWN K_4; MOUSEWHEEL 1] two_arc_state still_source
    = Ok (st', s')
    /\ destroy_on_collide st' = true
    /\ speed_mult st' = wheel 1 1
    /\ length (particles st') = PARTICLE_AMOUNT
    /\ Random.pos s' = 601%nat.
Proof.
  unfold tick.
  cbn [handle_events handle_event bind ret two_arc_state speed_mult running center
       destroy_on_collide particles_on_cursor ball all_sprites particles negb].
  set (m := wheel 1 1).
  cbn [update_sprites ball_at arc_at Ball.sprite Sprite.alive Arc.alive Arc.sprite
       update_particles].
  set (ball1 := Ball.update m (Ball.mk (Sprite.mk (Circle.mk (Vector2.mk 10 0) 2) true) (Vector2.mk 0 1))).
  set (arc := Arc.update m _) at 2.
  assert (N : Ball.velocity ball1 <> Vector2.zero).
  { change (Vector2.mk 0 (1 + BALL_GRAVITY) <> Vector2.zero).
    apply vector_neq_zero_y. unfold BALL_GRAVITY. lra. }
  unfold collision_phase.
  match goal with
  | |- context [check_fires ?st] => assert (F : check_fires st = true)
  end.
  { unfold check_fires, Circle.contains.
    cbn [all_sprites ball length last ref_circle Nat.ltb Nat.leb andb].
    unfold arc, ball1.
    cbn [arc_at ball_at Arc.update Arc.circle Arc.sprite Sprite.circle Circle.center
         Circle.radius Ball.update Ball.circle Ball.sprite Ball.velocity Sprite.move_ip
         Circle.move_ip Vector2.add Vector2.mul Vector2.x Vector2.y].
    match goal with
    | |- context [Rle_dec ?p ?q] => destruct (Rle_dec p q) as [C | _]
    end; [| reflexivity].
    exfalso.
    assert (E : sqrt 100 = 10) by (apply sqrt_lem_1; lra).
    match type of C with
    | sqrt ?v + _ <= _ => assert (L : sqrt 100 <= sqrt v)
    end.
    { apply sqrt_le_1_alt. nra. }
    lra. }
  rewrite F. cbn [all_sprites last].
  unfold resolve. unfold bind at 1. unfold lift at 1.
  rewrite (collide_ball_moving _ _ _ N).
  cbn [destroy_on_collide particles center].
  destruct (break_arc_loop_ok (Arc.kill arc) (Vector2.mk 0 0) PARTICLE_AMOUNT
              valid_color_wedge [] still_source still_source_unit)
    as [new [E [L _]]].
  unfold bind at 1. unfold break_arc at 1. unfold bind at 1. rewrite E.
  unfold ret at 1. unfold bind.
  match goal with
  | |- context [Ball.reflect ?b ?c ?s] =>
      destruct (reflect_moving b c s) as [v [Er _]]
  end.
  - exact N.
  - cbn. intro X. injection X as Ex _. unfold Rdiv in Ex. lra.
  - rewrite Er. unfold ret.
    eexists _, _. split; [reflexivity |].
    cbn [destroy_on_collide speed_mult particles app Random.pos Random.advance still_source].
    split; [reflexivity |]. split; [reflexivity |]. split; [exact L |].
    unfold PARTICLE_AMOUNT. reflexivity.
Qed.

Lemma tick_well_formed_witness :
  exists st' s',
    tick (fun _ _ => true) [KEYDOWN K_4; MOUSEWHEEL 1] two_arc_state still_source
    = Ok (st', s')
    /\ destroy_on_collide st' = true
    /\ length (particles st') = PARTICLE_AMOUNT
    /\ well_formed st'
    /\ center st' = Vector2.mk 0 0.
Proof.
  destruct two_arc_state_tick as [st' [s' [E [D [_ [L _]]]]]].
  destruct (tick_well_formed (fun _ _ => true) [KEYDOWN K_4; MOUSEWHEEL 1]
              two_arc_state two_arc_state_well_formed still_source st' s'
              still_source_unit E) as [[W C] _].
  exists st', s'. split; [exact E |]. split; [exact D |]. split; [exact L |].
  split; [exact W | exact C].
Defined.

(** ** What [Ball.reflect] does to the ball *)

Lemma reflect_unit_formula (v n : Vector2) :
  Vector2.x n * Vector2.x n + Vector2.y n * Vector2.y n = 1 ->
  Vector2.reflect v n
  = Ok (Vector2.mk (Vector2.x v - 2 * Vector2.x n * Vector2.dot v n)
                   (Vector2.y v - 2 * Vector2.y n * Vector2.dot v n)).
Proof.
  intro U. unfold Vector2.reflect, Vector2.dot.
  destruct (Req_dec_T (Vector2.x n * Vector2.x n + Vector2.y n * Vector2.y n) 0)
    as [E | _]; [lra |].
  rewrite U, sqrt_1. unfold Vector2.div. simpl.
  replace (Vector2.x n / 1) with (Vector2.x n) by field.
  replace (Vector2.y n / 1) with (Vector2.y n) by field.
  reflexivity.
Qed.

(** X17: For a moving ball off the centre of the circle, [Ball.reflect] mirrors
    the velocity about a unit normal [n]: the direction from the ball to the
    centre, turned by a jitter of at least -2.5 and less than 2.5 degrees.
    The new velocity is [v - 2 (v . n) n], so its component along [n] is
    reversed. *)
Theorem reflect_mirrors_velocity (ball : Ball.t) (circle : Circle)
    (s : Random.state) :
  Ball.velocity ball <> Vector2.zero ->
  Circle.center circle <> Circle.center (Ball.circle ball) ->
  0 <= Random.peek s < 1 ->
  exists ball' jitter n,
    Ball.reflect ball circle s = Ok (ball', Random.advance 1 s)
    /\ - (5 / 2) <= jitter < 5 / 2
    /\ n = Vector2.rotate
             (Vector2.div
                (Vector2.mk
                   (Vector2.x (Circle.center circle)
                    - Vector2.x (Circle.center (Ball.circle ball)))
                   (Vector2.y (Circle.center circle)
                    - Vector2.y (Circle.center (Ball.circle ball))))
                (Circle.center_distance circle (Ball.circle ball)))
             jitter
    /\ Vector2.length n = 1
    /\ Ball.velocity ball'
       = Vector2.mk
           (Vector2.x (Ball.velocity ball)
            - 2 * Vector2.x n * Vector2.dot (Ball.velocity ball) n)
           (Vector2.y (Ball.velocity ball)
            - 2 * Vector2.y n * Vector2.dot (Ball.velocity ball) n)
    /\ Vector2.dot (Ball.velocity ball') n = - Vector2.dot (Ball.velocity ball) n.
Proof.
  intros N C Hu.
  pose proof (centers_differ _ _ C) as Nn.
  pose proof (div_length_unit _ Nn) as U. cbv zeta in U.
  set (normal := Vector2.mk
                   (Vector2.x (Circle.center circle)
                    - Vector2.x (Circle.center (Ball.circle ball)))
                   (Vector2.y (Circle.center circle)
                    - Vector2.y (Circle.center (Ball.circle ball)))) in *.
  set (n1 := Vector2.div normal (Vector2.length normal)) in *.
  set (angle := (Random.peek s - 5 / 10) * BALL_REFLECT_ANGLE).
  set (n := Vector2.rotate n1 angle).
  assert (U' : Vector2.x n * Vector2.x n + Vector2.y n * Vector2.y n = 1).
  { unfold n, Vector2.rotate.
    rewrite (rotate_rad_sqr n1 (angle * PI / 180)). exact U. }
  eexists _, angle, n. split; [| split; [| split; [| split; [| split]]]].
  - unfold Ball.reflect, bind, lift, draw, ret, Random.random.
    fold normal. rewrite (normalize_nonzero _ Nn). fold n1.
    rewrite (normalize_nonzero _ N). fold angle. fold n.
    rewrite (reflect_unit_formula _ _ U'). reflexivity.
  - unfold angle, BALL_REFLECT_ANGLE. lra.
  - reflexivity.
  - apply length_unit. exact U'.
  - reflexivity.
  - cbn [Ball.velocity]. unfold Vector2.dot. cbn [Vector2.x Vector2.y].
    set (nx := Vector2.x n) in *. set (ny := Vector2.y n) in *.
    set (a0 := Vector2.x (Ball.velocity ball)).
    set (b0 := Vector2.y (Ball.velocity ball)).
    replace ((a0 - 2 * nx * (a0 * nx + b0 * ny)) * nx
             + (b0 - 2 * ny * (a0 * nx + b0 * ny)) * ny)
      with ((a0 * nx + b0 * ny) * (1 - 2 * (nx * nx + ny * ny))) by ring.
    rewrite U'. ring.
Qed.

Lemma reflect_mirrors_velocity_witness :
  exists ball' jitter n,
    Ball.reflect (ball_at 8 0 2 3 4) (Circle.mk (Vector2.mk 0 0) 10)
      (Random.mk (fun _ => 1 / 4) 0)
    = Ok (ball', Random.advance 1 (Random.mk (fun _ => 1 / 4) 0))
    /\ - (5 / 2) <= jitter < 5 / 2
    /\ Vector2.length n = 1
    /\ Vector2.dot (Ball.velocity ball') n = - Vector2.dot (Vector2.mk 3 4) n.
Proof.
  destruct (reflect_mirrors_velocity (ball_at 8 0 2 3 4)
              (Circle.mk (Vector2.mk 0 0) 10) (Random.mk (fun _ => 1 / 4) 0))
    as [ball' [jitter [n [E [J [_ [L [_ D]]]]]]]].
  - apply vector_neq_zero_x. lra.
  - simpl. intro E. injection E. intros. lra.
  - unfold Random.peek. simpl. lra.
  - exists ball', jitter, n. repeat split; assumption || apply J.
Defined.

(** X18: A ball already on the containment boundary, at distance
    [R - r] from the centre of the circle, is not moved by [Ball.reflect]. *)
Theorem reflect_on_boundary_keeps_position (ball ball' : Ball.t) (circle : Circle)
    (s s' : Random.state) :
  Circle.center_distance circle (Ball.circle ball)
  = Circle.radius circle - Circle.radius (Ball.circle ball) ->
  Ball.reflect ball circle s = Ok (ball', s') ->
  Ball.circle ball' = Ball.circle ball.
Proof.
  intros D E.
  destruct (vector_eq_dec (Circle.center circle) (Circle.center (Ball.circle ball)))
    as [C | C];
    [rewrite (reflect_degenerate _ _ _ (or_introl C)) in E; discriminate E |].
  destruct (vector_eq_dec (Ball.velocity ball) Vector2.zero) as [Z | N];
    [rewrite (reflect_degenerate _ _ _ (or_intror Z)) in E; discriminate E |].
  destruct (reflect_moving ball circle s N C) as [v [E' _]].
  rewrite E' in E. injection E as <- _.
  unfold Ball.circle, Sprite.move_ip, Circle.move_ip. cbn [Ball.sprite Sprite.circle].
  fold (Ball.circle ball). rewrite D.
  destruct (Ball.circle ball) as [c rad]. cbn [Circle.center Circle.radius].
  f_equal. apply vector_eq; simpl; ring.
Qed.

Lemma reflect_on_boundary_keeps_position_witness :
  exists ball' s',
    Ball.reflect (ball_at 8 0 2 3 4) (Circle.mk (Vector2.mk 0 0) 10) still_source
    = Ok (ball', s')
    /\ Ball.circle ball' = Circle.mk (Vector2.mk 8 0) 2.
Proof.
  destruct (reflect_moving (ball_at 8 0 2 3 4) (Circle.mk (Vector2.mk 0 0) 10)
              still_source) as [v [E _]].
  - apply vector_neq_zero_x. lra.
  - simpl. intro E. injection E. intros. lra.
  - eexists _, _. split; [exact E |].
    refine (reflect_on_boundary_keeps_position (ball_at 8 0 2 3 4) _
              (Circle.mk (Vector2.mk 0 0) 10) still_source
              (Random.advance 1 still_source) _ E).
    unfold Circle.center_distance. simpl. apply sqrt_lem_1; lra.
Defined.

Lemma broken_arc_removed_witness :
  update_sprites 1 (ball_at 0 0 2 0 0)
    (RBall :: map RArc ([arc_at 0 0 50 1] ++ [Arc.kill (arc_at 0 0 10 1)]))
  = (Ball.update 1 (ball_at 0 0 2 0 0),
     RBall :: map RArc (map (Arc.update 1) [arc_at 0 0 50 1])).
Proof.
  destruct (broken_arc_removed 1 (ball_at 0 0 2 0 0) [arc_at 0 0 50 1]
              (arc_at 0 0 10 1)) as [_ H].
  - reflexivity.
  - apply H. repeat constructor.
Defined.

(** ** The contract of [Particle.__init__] *)

(** X19: The constructor of a particle returns when pygame accepts the colour
    and the radius is not negative; it raises [ValueError] for a colour
    pygame refuses, whatever the radius, and [pygame.error] for an accepted
    colour and a radius of -1/2 or less.  A particle it returns is alive and
    fully opaque, around the centre it was given, with the red, green and
    blue of the colour passed, a truthy velocity as passed, the lifetime
    passed or, for none or 0, [PARTICLE_LIFETIME], and the gravity passed
    or, for none, (0, 0.1); a draw is taken only for the velocity. *)
Theorem particle_init_contract (center : Point) (color : list Z) (radius : R)
    (velocity gravity : option Vector2) (lifetime : option R) (s : Random.state) :
  (0 <= radius -> (exists cl, new_Color color = Ok cl) ->
   exists p s',
     Particle.init center color radius velocity gravity lifetime s = Ok (p, s'))
  /\ (new_Color color = Raise ValueError ->
      Particle.init center color radius velocity gravity lifetime s
      = Raise ValueError)
  /\ (radius <= - (1 / 2) -> (exists cl, new_Color color = Ok cl) ->
      Particle.init center color radius velocity gravity lifetime s
      = Raise PygameError)
  /\ (forall p s',
        Particle.init center color radius velocity gravity lifetime s = Ok (p, s') ->
        Circle.center (Particle.circle p) = center
        /\ Particle.alive p = true
        /\ Particle.alpha p = 255%Z
        /\ Particle.velocity p = fst (initial_velocity velocity s)
        /\ Particle.lifetime p = initial_lifetime lifetime
        /\ Particle.gravity p = initial_gravity gravity
        /\ s' = snd (initial_velocity velocity s)
        /\ exists cl,
             new_Color color = Ok cl
             /\ r (Particle.color p) = r cl /\ g (Particle.color p) = g cl
             /\ b (Particle.color p) = b cl).
Proof.
  assert (V : match velocity with
              | Some v => if Vector2.nonzero v then ret v else Particle.random_velocity
              | None => Particle.random_velocity
              end s = Ok (initial_velocity velocity s)).
  { unfold initial_velocity.
    destruct velocity as [v |]; [destruct (Vector2.nonzero v) |]; reflexivity. }
  split; [| split; [| split]].
  - intros Hrad [cl Ec].
    rewrite (particle_init_returns _ _ _ _ _ _ _ cl Ec Hrad).
    eexists _, _. reflexivity.
  - intro Ec. unfold Particle.init. unfold bind at 1. rewrite V.
    destruct (initial_velocity velocity s) as [vel s1].
    unfold bind, lift. rewrite Ec. reflexivity.
  - intros Hrad [cl Ec]. unfold Particle.init. unfold bind at 1. rewrite V.
    destruct (initial_velocity velocity s) as [vel s1].
    unfold bind, lift, ret, new_Surface. rewrite Ec.
    destruct (Rlt_dec (radius * 2) 0) as [_ | C]; [reflexivity | lra].
  - intros p s' E.
    pose proof (outcome_particle_init center color radius velocity gravity lifetime s)
      as H.
    rewrite E in H. destruct H as [Hrad [cl Ec]].
    rewrite (particle_init_returns _ _ _ _ _ _ _ cl Ec Hrad) in E.
    injection E as <- <-.
    repeat split. exists cl. repeat split. exact Ec.
Qed.

Lemma particle_init_contract_witness :
  (exists p s',
     Particle.init (Vector2.mk 0 0) [235; 113; 20]%Z 3 (Some (Vector2.mk 0 (-1)))
       None (Some 60) still_source = Ok (p, s'))
  /\ Particle.init (Vector2.mk 0 0) [300; 113; 20]%Z 3 None None None still_source
     = Raise ValueError
  /\ Particle.init (Vector2.mk 0 0) [235; 113; 20]%Z (-1) None None None
       still_source
     = Raise PygameError.
Proof.
  split; [| split].
  - destruct (particle_init_contract (Vector2.mk 0 0) [235; 113; 20]%Z 3
                (Some (Vector2.mk 0 (-1))) None (Some 60) still_source)
      as [H _].
    apply H; [lra |]. eexists. reflexivity.
  - destruct (particle_init_contract (Vector2.mk 0 0) [300; 113; 20]%Z 3
                None None None still_source)
      as [_ [H _]].
    apply H. reflexivity.
  - destruct (particle_init_contract (Vector2.mk 0 0) [235; 113; 20]%Z (-1)
                None None None still_source)
      as [_ [_ [H _]]].
    apply H; [lra |]. eexists. reflexivity.
Defined.

(** ** Fracture of a constructed arc *)

(** X21: Whatever arc [Arc.__init__] returns, fracturing it never fails: the
    arc is killed and exactly [PARTICLE_AMOUNT] particles of its colour join
    the group, each on the circle of the arc when [break_arc] is given the
    centre the arc was built around. *)
Theorem constructed_arc_breaks (center : Point) (radius : R)
    (color : option (list Z)) (angle speed : option R)
    (arc : Arc.t) (ps : list Particle.t) (s s1 : Random.state) :
  Random.unit_draws s ->
  Arc.init center radius color angle speed s = Ok (arc, s1) ->
  exists new s2,
    break_arc arc ps center s1 = Ok ((Arc.kill arc, ps ++ new), s2)
    /\ length new = PARTICLE_AMOUNT
    /\ Forall (fun p =>
                 [r (Particle.color p); g (Particle.color p); b (Particle.color p)]
                 = Arc.color arc
                 /\ Particle.alive p = true
                 /\ Circle.center_distance (Particle.circle p) (Arc.circle arc)
                    = Circle.radius (Arc.circle arc)) new.
Proof.
  intros U E.
  destruct (returns_arc_init center radius color angle speed s arc s1 U E)
    as [[Hc [Hr Hv]] D].
  destruct (break_arc_loop_ok (Arc.kill arc) center PARTICLE_AMOUNT Hv ps s1
              (unit_draws_same _ _ D U)) as [new [El [L [F _]]]].
  exists new, (Random.advance (3 * PARTICLE_AMOUNT) s1).
  split; [| split; [exact L |]].
  - unfold break_arc, bind, ret. rewrite El. reflexivity.
  - eapply Forall_impl; [| exact F].
    intros p [theta [_ [_ [Bc [Bcol [_ Bal]]]]]].
    split; [exact Bcol |]. split; [exact Bal |].
    apply polar_distance_circles with (theta := theta); [exact Hr |].
    rewrite Bc. change (Arc.circle (Arc.kill arc)) with (Arc.circle arc).
    rewrite Hc. reflexivity.
Qed.

Lemma constructed_arc_breaks_witness :
  exists arc s1 new s2,
    Arc.init (Vector2.mk 960 540) 490 None None None still_source = Ok (arc, s1)
    /\ break_arc arc [] (Vector2.mk 960 540) s1 = Ok ((Arc.kill arc, [] ++ new), s2)
    /\ length new = PARTICLE_AMOUNT.
Proof.
  destruct (succeeds_arc_init (Vector2.mk 960 540) 490 None None None
              ltac:(lra) I still_source still_source_unit)
    as [arc [s1 [E _]]].
  destruct (constructed_arc_breaks (Vector2.mk 960 540) 490 None None None
              arc [] still_source s1 still_source_unit E)
    as [new [s2 [B [L _]]]].
  exists arc, s1, new, s2. repeat split; assumption.
Defined.
